(** * The SPDK event reactor ([lib/event/reactor.c])

    A shallow embedding of the per-core reactor: the DPDK rings it is
    built on, events and the event pool, the poller ring, the control
    protocol (register / unregister / migrate), the reactor loop and the
    lifecycle functions (mask parsing, init, stop).

    Every function of [reactor.c] that is modelled keeps its C name.
    The functions run on a [world], the process-wide state of the file
    (its [static] globals plus the memory of the pollers), and return a
    [result]: the process can leave a function by [exit(EXIT_FAILURE)],
    by a failed [RTE_VERIFY] or by dereferencing a bad pointer.

    What lies outside [reactor.c] is modelled as little as the file
    needs.  A ring is a bounded FIFO.  The callbacks of the application
    are given by the calls they make into the reactor ([api_call]).  The
    C library's [strtoull] follows ISO C as glibc implements it.  The
    constants and the state of DPDK are the fields of a [host].  The
    [trace] of a world records what an observer sees, and is not read by
    any function.  The threads of the reactors are interleaved at the
    grain of one event, one timer tick or one poll ([run_steps]). *)

From Stdlib Require Import ZArith String Ascii Lia.
From Equations Require Import Equations.
From stdpp Require Import base option list gmap.

Set Default Proof Using "Type".

(** ** Outcomes of a C function *)

Inductive result (A : Type) : Type :=
| Ok (a : A)        (* the function returned *)
| Exit_failure      (* exit(EXIT_FAILURE) *)
| Panic             (* a failed RTE_VERIFY: rte_panic *)
| Fault.            (* a NULL or otherwise invalid pointer was dereferenced *)
Arguments Ok {A} a.
Arguments Exit_failure {A}.
Arguments Panic {A}.
Arguments Fault {A}.

#[global] Instance result_ret : MRet result := fun A a => Ok a.
#[global] Instance result_bind : MBind result := fun A B f m =>
  match m with
  | Ok a => f a
  | Exit_failure => Exit_failure
  | Panic => Panic
  | Fault => Fault
  end.

Definition is_Ok {A} (r : result A) : bool :=
  match r with Ok _ => true | _ => false end.

(** ** DPDK rings ([rte_ring.h])

    Only the part of the ring interface the reactor uses: a bounded FIFO
    of pointers.  [rte_ring_enqueue] fails (returns [-ENOBUFS]) on a full
    ring, [rte_ring_dequeue] fails (returns [-ENOENT]) on an empty one. *)

Record rte_ring (A : Type) : Type := Ring {
  ring_capacity : N;
  ring_entries : list A;
}.
Arguments Ring {A} _ _.
Arguments ring_capacity {A} _.
Arguments ring_entries {A} _.

Definition rte_ring_count {A} (r : rte_ring A) : nat := length (ring_entries r).

Definition rte_ring_enqueue {A} (r : rte_ring A) (x : A) : option (rte_ring A) :=
  if (N.of_nat (rte_ring_count r) <? ring_capacity r)%N
  then Some (Ring (ring_capacity r) (ring_entries r ++ [x]))
  else None.

Definition rte_ring_dequeue {A} (r : rte_ring A) : option (A * rte_ring A) :=
  match ring_entries r with
  | [] => None
  | x :: l => Some (x, Ring (ring_capacity r) l)
  end.

(** [rte_ring_create(name, count, socket, flags)]: a ring created with
    [count] slots holds at most [count - 1] entries; the creation returns
    NULL when the memory cannot be reserved ([ok = false]). *)
Definition rte_ring_create {A} (count : N) (ok : bool) : option (rte_ring A) :=
  if ok then Some (Ring (count - 1)%N []) else None.

(** ** Events, pollers, reactors *)

Inductive spdk_reactor_state : Set :=
| SPDK_REACTOR_STATE_INVALID
| SPDK_REACTOR_STATE_INITIALIZED
| SPDK_REACTOR_STATE_RUNNING
| SPDK_REACTOR_STATE_EXITING
| SPDK_REACTOR_STATE_SHUTDOWN.

(** The numeric value of the enumerators. *)
Definition state_value (s : spdk_reactor_state) : Z :=
  match s with
  | SPDK_REACTOR_STATE_INVALID => 0
  | SPDK_REACTOR_STATE_INITIALIZED => 1
  | SPDK_REACTOR_STATE_RUNNING => 2
  | SPDK_REACTOR_STATE_EXITING => 3
  | SPDK_REACTOR_STATE_SHUTDOWN => 4
  end%Z.

#[global] Instance spdk_reactor_state_eq_dec : EqDecision spdk_reactor_state.
Proof. solve_decision. Defined.

(** The [void *] arguments of an event: NULL, [&g_reactors[lcore]], a
    poller, or a pointer of the caller's own. *)
Inductive event_arg : Set :=
| Arg_null
| Arg_reactor (lcore : nat)
| Arg_poller (poller : nat)
| Arg_user (data : nat).

(** The callback of an event: one of the three handlers of the control
    protocol, or a function of the application, named by a number. *)
Inductive event_fn : Set :=
| Fn_add_poller            (* _spdk_event_add_poller *)
| Fn_remove_poller         (* _spdk_event_remove_poller *)
| Fn_poller_migrate        (* _spdk_poller_migrate *)
| Fn_user (id : nat).

(** [struct spdk_event]. *)
#[warnings="-register-all"]
Inductive spdk_event : Set := Event {
  ev_lcore : nat;
  ev_fn : event_fn;
  ev_arg1 : event_arg;
  ev_arg2 : event_arg;
  ev_next : option spdk_event;
}.

(** [struct spdk_reactor]; a ring pointer is NULL until the reactor is
    constructed. *)
Record spdk_reactor : Type := Reactor {
  lcore : nat;
  active_pollers : option (rte_ring nat);
  events : option (rte_ring spdk_event);
}.

(** What an observer of the process sees: callbacks being invoked, event
    records going back to the pool, timer ticks. *)
Inductive obs : Set :=
| Obs_event_fn (e : spdk_event)
| Obs_event_free (e : spdk_event)
| Obs_timer (cur : nat)
| Obs_poller_fn (poller : nat).

(** The process state.  A poller is named by a number (its address);
    [poller_lcore] holds the [lcore] field of the pollers that have one
    written.  [g_spdk_event_mempool] is NULL or the number of free event
    records.  [trace] is the history of observations, oldest first. *)
Record world : Type := World {
  g_reactors : list spdk_reactor;
  g_reactor_mask : Z;
  g_reactor_count : Z;
  g_reactor_state : spdk_reactor_state;
  g_spdk_event_mempool : option N;
  poller_lcore : gmap nat nat;
  trace : list obs;
}.

Definition set_reactors (rs : list spdk_reactor) (w : world) : world :=
  World rs (g_reactor_mask w) (g_reactor_count w) (g_reactor_state w)
        (g_spdk_event_mempool w) (poller_lcore w) (trace w).

Definition set_reactor_mask (m : Z) (w : world) : world :=
  World (g_reactors w) m (g_reactor_count w) (g_reactor_state w)
        (g_spdk_event_mempool w) (poller_lcore w) (trace w).

Definition set_reactor_count (n : Z) (w : world) : world :=
  World (g_reactors w) (g_reactor_mask w) n (g_reactor_state w)
        (g_spdk_event_mempool w) (poller_lcore w) (trace w).

Definition set_reactor_state (s : spdk_reactor_state) (w : world) : world :=
  World (g_reactors w) (g_reactor_mask w) (g_reactor_count w) s
        (g_spdk_event_mempool w) (poller_lcore w) (trace w).

Definition set_mempool (p : option N) (w : world) : world :=
  World (g_reactors w) (g_reactor_mask w) (g_reactor_count w) (g_reactor_state w)
        p (poller_lcore w) (trace w).

Definition set_poller_lcore (poller l : nat) (w : world) : world :=
  World (g_reactors w) (g_reactor_mask w) (g_reactor_count w) (g_reactor_state w)
        (g_spdk_event_mempool w) (<[poller := l]> (poller_lcore w)) (trace w).

Definition observe (o : obs) (w : world) : world :=
  World (g_reactors w) (g_reactor_mask w) (g_reactor_count w) (g_reactor_state w)
        (g_spdk_event_mempool w) (poller_lcore w) (trace w ++ [o]).

(** [*reactor] for [reactor = &g_reactors[n]]: outside the array there is
    nothing to read. *)
Definition reactor_load (n : nat) (w : world) : result spdk_reactor :=
  match g_reactors w !! n with
  | Some r => Ok r
  | None => Fault
  end.

(** [g_reactors[n].active_pollers] and [g_reactors[n].events] as they are
    after an operation on the ring. *)
Definition set_active_pollers (n : nat) (ring : rte_ring nat) (w : world) : world :=
  set_reactors (alter (λ r, Reactor (lcore r) (Some ring) (events r)) n (g_reactors w)) w.

Definition set_events (n : nat) (ring : rte_ring spdk_event) (w : world) : world :=
  set_reactors (alter (λ r, Reactor (lcore r) (active_pollers r) (Some ring)) n (g_reactors w)) w.

(** The poller ring and the event queue of core [n], as lists ([[]] when
    there is no ring). *)
Definition pollers_of (n : nat) (w : world) : list nat :=
  match g_reactors w !! n with
  | Some (Reactor _ (Some ring) _) => ring_entries ring
  | _ => []
  end.

Definition events_of (n : nat) (w : world) : list spdk_event :=
  match g_reactors w !! n with
  | Some (Reactor _ _ (Some ring)) => ring_entries ring
  | _ => []
  end.

(** ** Event pool and event queue *)

(** [spdk_reactor_get] only computes the address [&g_reactors[lcore]]. *)
Definition spdk_reactor_get (lcore : nat) : event_arg := Arg_reactor lcore.

Definition spdk_event_allocate (lcore : nat) (fn : event_fn) (arg1 arg2 : event_arg)
    (next : option spdk_event) (w : world) : result (spdk_event * world) :=
  match g_spdk_event_mempool w with
  | None => Fault
  | Some free =>
      if (free =? 0)%N then Panic         (* RTE_VERIFY((rc == 0) && (event != NULL)) *)
      else Ok (Event lcore fn arg1 arg2 next, set_mempool (Some (free - 1)%N) w)
  end.

Definition spdk_event_free (e : spdk_event) (w : world) : result world :=
  match g_spdk_event_mempool w with
  | None => Fault
  | Some free => Ok (observe (Obs_event_free e) (set_mempool (Some (free + 1)%N) w))
  end.

Definition spdk_event_call (e : spdk_event) (w : world) : result world :=
  reactor ← reactor_load (ev_lcore e) w;
  match events reactor with
  | None => Panic                         (* RTE_VERIFY(reactor->events != NULL) *)
  | Some q =>
      match rte_ring_enqueue q e with
      | None => Panic                     (* RTE_VERIFY(rc == 0) *)
      | Some q' => Ok (set_events (ev_lcore e) q' w)
      end
  end.

Definition spdk_event_queue_count (lcore : nat) (w : world) : result nat :=
  reactor ← reactor_load lcore w;
  match events reactor with
  | None => Ok 0
  | Some q => Ok (rte_ring_count q)
  end.

(** ** The control protocol: posting side *)

Definition spdk_poller_register (poller lcore : nat) (complete : option spdk_event)
    (w : world) : result world :=
  '(event, w1) ← spdk_event_allocate lcore Fn_add_poller (spdk_reactor_get lcore)
                   (Arg_poller poller) complete w;
  spdk_event_call event w1.

(** [poller->lcore] is read from the poller; a poller that was never
    given one has no value to read. *)
Definition spdk_poller_unregister (poller : nat) (complete : option spdk_event)
    (w : world) : result world :=
  match poller_lcore w !! poller with
  | None => Fault
  | Some l =>
      '(event, w1) ← spdk_event_allocate l Fn_remove_poller (spdk_reactor_get l)
                       (Arg_poller poller) complete w;
      spdk_event_call event w1
  end.

(** [g_reactor_mask & (1ULL << lcore)], as the Boolean C tests.  C leaves
    a shift by 64 or more undefined; here the shifted bit is outside the
    64 bits of the mask and the test is false.  (A processor that takes
    the count of a shift modulo 64, as x86-64 does, tests the bit
    [lcore mod 64] instead.)  The test is exact for the cores below
    64. *)
Definition mask_has (mask : Z) (lcore : nat) : bool :=
  negb (Z.land mask (Z.shiftl 1 (Z.of_nat lcore)) =? 0)%Z.

Definition spdk_app_get_core_mask (w : world) : Z := g_reactor_mask w.

Definition spdk_poller_migrate (poller new_lcore : nat) (complete : option spdk_event)
    (w : world) : result world :=
  if mask_has (spdk_app_get_core_mask w) new_lcore then
    '(event, w1) ← spdk_event_allocate new_lcore Fn_poller_migrate (Arg_poller poller)
                     Arg_null complete w;
    spdk_poller_unregister poller (Some event) w1
  else Panic.                             (* RTE_VERIFY(mask & (1ULL << new_lcore)) *)

Definition spdk_reactors_stop (w : world) : world :=
  set_reactor_state SPDK_REACTOR_STATE_EXITING w.

(** A value together with the equation that names it, for the case
    analyses of [remove_poller_walk]. *)
Definition inspect {A} (a : A) : {b | a = b} := exist _ a eq_refl.

(** ** The removal walk of [_spdk_event_remove_poller]

    [for (i = 0; i < rte_ring_count(ring); i++)]: the bound is read again
    before every iteration.  The dequeue cannot fail, the guard has just
    seen a non-empty ring.  Next to the ring the walk returns [seen], the
    entries it has dequeued, oldest first. *)
Equations? remove_poller_walk (poller i : nat) (ring : rte_ring nat) (seen : list nat)
    : result (rte_ring nat * list nat) by wf (rte_ring_count ring - i) lt :=
  remove_poller_walk poller i ring seen with inspect (i <? rte_ring_count ring) := {
    | exist _ false _ := Ok (ring, seen);
    | exist _ true Hi with inspect (rte_ring_dequeue ring) := {
      | exist _ None _ := Fault;
      | exist _ (Some (pair tmp ring1)) Hd with decide (tmp = poller) := {
        | left _ := remove_poller_walk poller (S i) ring1 (seen ++ [tmp]);
        | right _ with inspect (rte_ring_enqueue ring1 tmp) := {
          | exist _ None _ := Exit_failure;
          | exist _ (Some ring2) He :=
              remove_poller_walk poller (S i) ring2 (seen ++ [tmp]) } } } }.
Proof.
  - apply Nat.ltb_lt in Hi. unfold rte_ring_dequeue in Hd.
    destruct ring as [c [|x l]]; simplify_eq/=. unfold rte_ring_count in *; simpl in *. lia.
  - apply Nat.ltb_lt in Hi. unfold rte_ring_dequeue in Hd.
    destruct ring as [c [|x l]]; simplify_eq/=.
    unfold rte_ring_enqueue in He. case_match; simplify_eq/=.
    unfold rte_ring_count in *; simpl in *. rewrite length_app. simpl. lia.
Qed.

(** ** The application's callbacks *)

(** A callback of the application is described by the calls it makes into
    the reactor.  [Api_event_call e] stands for allocating [e] and
    passing it to [spdk_event_call]; a completion event handed to one of
    the poller calls has been allocated by the callback before. *)
Inductive api_call : Set :=
| Api_event_call (e : spdk_event)
| Api_poller_register (poller lcore : nat) (complete : option spdk_event)
| Api_poller_unregister (poller : nat) (complete : option spdk_event)
| Api_poller_migrate (poller new_lcore : nat) (complete : option spdk_event)
| Api_reactors_stop.

Fixpoint chain_length (e : spdk_event) : nat :=
  match e with
  | Event _ _ _ _ None => 1
  | Event _ _ _ _ (Some n) => S (chain_length n)
  end.

(** [n] calls of [spdk_event_allocate]. *)
Definition allocate_records (n : nat) (w : world) : result world :=
  match g_spdk_event_mempool w with
  | None => if n is 0 then Ok w else Fault
  | Some free =>
      if (free <? N.of_nat n)%N then Panic
      else Ok (set_mempool (Some (free - N.of_nat n)%N) w)
  end.

Definition allocate_chain (e : option spdk_event) (w : world) : result world :=
  match e with
  | None => Ok w
  | Some e => allocate_records (chain_length e) w
  end.

Definition run_api (c : api_call) (w : world) : result world :=
  match c with
  | Api_event_call e => w1 ← allocate_chain (Some e) w; spdk_event_call e w1
  | Api_poller_register p l complete =>
      w1 ← allocate_chain complete w; spdk_poller_register p l complete w1
  | Api_poller_unregister p complete =>
      w1 ← allocate_chain complete w; spdk_poller_unregister p complete w1
  | Api_poller_migrate p l complete =>
      w1 ← allocate_chain complete w; spdk_poller_migrate p l complete w1
  | Api_reactors_stop => Ok (spdk_reactors_stop w)
  end.

Fixpoint run_script (s : list api_call) (w : world) : result world :=
  match s with
  | [] => Ok w
  | c :: s' => w1 ← run_api c w; run_script s' w1
  end.

(** How far a reactor loop has come: it has left the function (or the
    process), or it is about to start another iteration in [w]. *)
Inductive loop_outcome : Type :=
| Returned (r : result world)
| Still_running (w : world).

Section reactor.

(** The application: what the callback numbered [id] does when it is
    invoked on an event, and what the callback of a poller does. *)
Variable user_fn : nat → spdk_event → world → list api_call.
Variable poller_fn : nat → world → list api_call.

(** *** The control protocol: handlers *)

Definition _spdk_event_add_poller (event : spdk_event) (w : world) : result world :=
  match ev_arg1 event, ev_arg2 event with
  | Arg_reactor r, Arg_poller poller =>
      reactor ← reactor_load r w;
      let w1 := set_poller_lcore poller (lcore reactor) w in
      match active_pollers reactor with
      | None => Fault
      | Some ring =>
          (* the return value of rte_ring_enqueue is not looked at *)
          let w2 := match rte_ring_enqueue ring poller with
                    | Some ring' => set_active_pollers r ring' w1
                    | None => w1
                    end in
          match ev_next event with
          | Some next => spdk_event_call next w2
          | None => Ok w2
          end
      end
  | _, _ => Fault
  end.

Definition _spdk_event_remove_poller (event : spdk_event) (w : world) : result world :=
  match ev_arg1 event, ev_arg2 event with
  | Arg_reactor r, Arg_poller poller =>
      reactor ← reactor_load r w;
      match active_pollers reactor with
      | None => Fault
      | Some ring =>
          '(ring', _) ← remove_poller_walk poller 0 ring [];
          let w1 := set_active_pollers r ring' w in
          match ev_next event with
          | Some next => spdk_event_call next w1
          | None => Ok w1
          end
      end
  | _, _ => Fault
  end.

(** [cur] is [rte_lcore_id()], the core of the running thread. *)
Definition _spdk_poller_migrate (cur : nat) (event : spdk_event) (w : world)
    : result world :=
  match ev_arg1 event with
  | Arg_poller poller => spdk_poller_register poller cur (ev_next event) w
  | _ => Fault
  end.

(** [event->fn(event)] on the thread of core [cur]. *)
Definition event_fn_call (cur : nat) (event : spdk_event) (w : world) : result world :=
  match ev_fn event with
  | Fn_add_poller => _spdk_event_add_poller event w
  | Fn_remove_poller => _spdk_event_remove_poller event w
  | Fn_poller_migrate => _spdk_poller_migrate cur event w
  | Fn_user id => run_script (user_fn id event w) w
  end.

(** *** Draining the event queue

    The functions that run callbacks carry [cur], the core of the thread
    that calls them, next to their C arguments. *)

Definition spdk_event_queue_run_single (cur lcore : nat) (w : world) : result world :=
  reactor ← reactor_load lcore w;
  match events reactor with
  | None => Panic                       (* RTE_VERIFY(reactor->events != NULL) *)
  | Some q =>
      match rte_ring_dequeue q with
      | None => Ok w
      | Some (event, q') =>
          let w1 := observe (Obs_event_fn event) (set_events lcore q' w) in
          w2 ← event_fn_call cur event w1;
          spdk_event_free event w2
      end
  end.

(** [while (count--)]. *)
Fixpoint spdk_event_queue_run (cur lcore count : nat) (w : world) : result world :=
  match count with
  | 0 => Ok w
  | S count' =>
      w1 ← spdk_event_queue_run_single cur lcore w;
      spdk_event_queue_run cur lcore count' w1
  end.

Definition spdk_event_queue_run_all (cur lcore : nat) (w : world) : result world :=
  count ← spdk_event_queue_count lcore w;
  spdk_event_queue_run cur lcore count w.

(** *** The reactor loop *)

(** [rte_timer_manage()]: an opaque tick. *)
Definition rte_timer_manage (cur : nat) (w : world) : world :=
  observe (Obs_timer cur) w.

(** Lines 260-268: at most one poller is taken from the head, run, and
    put back at the tail. *)
Definition reactor_poll (reactor : nat) (w : world) : result world :=
  r ← reactor_load reactor w;
  match active_pollers r with
  | None => Fault
  | Some ring =>
      match rte_ring_dequeue ring with
      | None => Ok w
      | Some (poller, ring1) =>
          let w1 := observe (Obs_poller_fn poller) (set_active_pollers reactor ring1 w) in
          w2 ← run_script (poller_fn poller w1) w1;
          r2 ← reactor_load reactor w2;
          match active_pollers r2 with
          | None => Fault
          | Some ring2 =>
              match rte_ring_enqueue ring2 poller with
              | None => Exit_failure
              | Some ring3 => Ok (set_active_pollers reactor ring3 w2)
              end
          end
      end
  end.

(** The body of [while (1)], up to the test of [g_reactor_state]. *)
Definition reactor_iteration (cur reactor : nat) (w : world) : result world :=
  w1 ← spdk_event_queue_run_all cur cur w;
  reactor_poll reactor (rte_timer_manage cur w1).

(** [_spdk_reactor_run(arg)] on the thread of core [cur], with
    [arg = &g_reactors[reactor]], for at most [fuel] iterations. *)
Fixpoint _spdk_reactor_run (fuel cur reactor : nat) (w : world) : loop_outcome :=
  match fuel with
  | 0 => Still_running w
  | S fuel' =>
      match reactor_iteration cur reactor w with
      | Ok w1 =>
          if decide (g_reactor_state w1 ≠ SPDK_REACTOR_STATE_RUNNING)
          then Returned (Ok w1)         (* break; return 0 *)
          else _spdk_reactor_run fuel' cur reactor w1
      | Exit_failure => Returned Exit_failure
      | Panic => Returned Panic
      | Fault => Returned Fault
      end
  end.

End reactor.

(** ** Parsing a core mask *)

Definition ULLONG_MAX : Z := 2 ^ 64 - 1.

Definition isspace (c : ascii) : bool :=
  let n := nat_of_ascii c in (n =? 32) || ((9 <=? n) && (n <=? 13)).

(** The value of a character as a digit in base 16. *)
Definition hex_digit (c : ascii) : option Z :=
  let n := Z.of_nat (nat_of_ascii c) in
  (if (48 <=? n) && (n <=? 57) then Some (n - 48)
   else if (97 <=? n) && (n <=? 102) then Some (n - 87)
   else if (65 <=? n) && (n <=? 70) then Some (n - 55)
   else None)%Z.

Definition is_x (c : ascii) : bool :=
  let n := nat_of_ascii c in (n =? 120) || (n =? 88).

Fixpoint skip_space (s : string) : string :=
  match s with
  | String c s' => if isspace c then skip_space s' else s
  | EmptyString => EmptyString
  end.

(** An optional sign in front of the number. *)
Definition strip_sign (s : string) : bool * string :=
  match s with
  | String c s' =>
      if Ascii.eqb c "-" then (true, s')
      else if Ascii.eqb c "+" then (false, s')
      else (false, s)
  | EmptyString => (false, s)
  end.

(** The digit loop of [strtoull]: [i] stops growing once one more digit
    would carry it past [ULLONG_MAX]; the digits are still consumed. *)
Fixpoint scan_digits (i : Z) (overflow : bool) (s : string) : Z * bool * string :=
  match s with
  | String c s' =>
      match hex_digit c with
      | Some d =>
          if (ULLONG_MAX / 16 <? i) || ((i =? ULLONG_MAX / 16) && (ULLONG_MAX mod 16 <? d))
          then scan_digits i true s'
          else scan_digits (i * 16 + d) overflow s'
      | None => (i, overflow, s)
      end
  | EmptyString => (i, overflow, s)
  end%Z.

(** [strtoull(nptr, &end, 16)] of the C library: white space, an optional
    sign, an optional [0x], then hexadecimal digits.  The result is the
    value, the rest of the string at [end], and whether [errno] has been
    set (to [ERANGE]; nothing else sets it in base 16).  Without a digit
    nothing is converted: the value is 0 and [end] is [nptr], or the [x]
    of a [0x] that no digit follows. *)
Definition strtoull (nptr : string) : Z * string * bool :=
  let '(negative, s1) := strip_sign (skip_space nptr) in
  let '(after_0, save) :=
    match s1 with
    | String c (String x s) =>
        if Ascii.eqb c "0" && is_x x then (Some (String x s), s) else (None, s1)
    | _ => (None, s1)
    end in
  let '(i, overflow, s) := scan_digits 0 false save in
  if String.length s =? String.length save then
    match after_0 with
    | Some at_x => (0, at_x, false)
    | None => (0, nptr, false)
    end%Z
  else if overflow then (ULLONG_MAX, s, true)
  else ((if negative then - i else i) mod 2 ^ 64, s, false)%Z.

(** [*end]: the character at [end], the terminator when nothing is left. *)
Definition char_at (s : string) : ascii :=
  match s with
  | String c _ => c
  | EmptyString => zero
  end.

(** ** The host: DPDK's environment abstraction layer

    What [reactor.c] takes from [rte_config.h], [rte_lcore.h] and
    [reactor.h], and whether the allocations of [spdk_reactors_init]
    succeed. *)
Record host : Type := Host {
  RTE_MAX_LCORE : nat;
  rte_lcore_is_enabled : nat → bool;
  rte_get_master_lcore : nat;
  SPDK_POLLER_RING_SIZE : N;
  poller_ring_created : nat → bool;    (* rte_ring_create succeeds, per core *)
  event_ring_created : nat → bool;
  mempool_created : bool;              (* rte_mempool_create succeeds *)
}.

Section lifecycle.

Variable h : host.

(** [RTE_LCORE_FOREACH]: the enabled cores, in increasing order. *)
Definition lcores : list nat :=
  filter (λ i, rte_lcore_is_enabled h i = true) (seq 0 (RTE_MAX_LCORE h)).

(** One turn of the loop that drops the cores the host has not enabled. *)
Definition clear_disabled (cpumask : Z) (i : nat) : Z :=
  if negb (Z.land cpumask (Z.shiftl 1 (Z.of_nat i)) =? 0)%Z
     && negb (rte_lcore_is_enabled h i)
  then Z.land cpumask (Z.lnot (Z.shiftl 1 (Z.of_nat i)))
  else cpumask.

(** [mask] and [cpumask] are pointers: [None] is NULL, [Some] holds
    what the pointer points to.  The result is the return value and
    what [cpumask] points to afterwards. *)
Definition spdk_app_parse_core_mask (mask : option string) (cpumask : option Z)
    : Z * option Z :=
  match mask, cpumask with
  | Some s, Some _ =>
      let '(v, end_, errno) := strtoull s in
      if negb (Ascii.eqb (char_at end_) zero) || errno then (-1, Some v)%Z
      else (0%Z, Some (foldl clear_disabled v (seq 0 (RTE_MAX_LCORE h `min` 64))))
  | _, _ => (-1, cpumask)%Z
  end.

(** [g_reactor_mask |= (1ULL << i)], within 64 bits: a core from 64 on
    (a shift C leaves undefined) adds no bit.  (A processor that takes
    the count of a shift modulo 64 sets the bit [i mod 64] instead.)
    Exact for the cores below 64. *)
Definition set_core_bit (mask : Z) (i : nat) : Z :=
  Z.lor mask (Z.shiftl 1 (Z.of_nat i) mod 2 ^ 64).

Definition spdk_reactor_parse_mask (mask : option string) (w : world) : Z * world :=
  if (state_value SPDK_REACTOR_STATE_INITIALIZED <=? state_value (g_reactor_state w))%Z
  then (-1, w)%Z
  else
    let w0 := set_reactor_mask 0 w in
    match mask with
    | None => (0%Z, set_reactor_mask (foldl set_core_bit (g_reactor_mask w0) lcores) w0)
    | Some s =>
        let '(ret, cpumask) := spdk_app_parse_core_mask (Some s) (Some (g_reactor_mask w0)) in
        let w1 := set_reactor_mask (default 0%Z cpumask) w0 in
        if negb (ret =? 0)%Z then (ret, w1)
        else if negb (mask_has (g_reactor_mask w1) (rte_get_master_lcore h))
        then (-1, w1)%Z
        else (0, w1)%Z
    end.

Definition spdk_reactor_construct (n : nat) (w : world) : result world :=
  match g_reactors w !! n with
  | None => Fault
  | Some _ =>
      let reactor :=
        Reactor n (rte_ring_create (SPDK_POLLER_RING_SIZE h) (poller_ring_created h n))
                  (rte_ring_create 65536%N (event_ring_created h n)) in
      if events reactor is None then Panic   (* RTE_VERIFY(reactor->events != NULL) *)
      else Ok (set_reactors (<[n := reactor]> (g_reactors w)) w)
  end.

(** The construction loop of [spdk_reactors_init] over the cores [l]. *)
Fixpoint construct_reactors (l : list nat) (w : world) : result world :=
  match l with
  | [] => Ok w
  | i :: l' =>
      if mask_has (spdk_app_get_core_mask w) i then
        w1 ← spdk_reactor_construct i w;
        construct_reactors l' (set_reactor_count (g_reactor_count w1 + 1) w1)
      else construct_reactors l' w
  end.

Definition spdk_reactors_init (mask : option string) (w : world) : result (Z * world) :=
  let '(rc, w1) := spdk_reactor_parse_mask mask w in
  if (rc <? 0)%Z then Ok (rc, w1)
  else
    w2 ← construct_reactors lcores w1;
    if mempool_created h then
      Ok (rc, set_reactor_state SPDK_REACTOR_STATE_INITIALIZED
                (set_mempool (Some 262144%N) w2))
    else Ok ((-1)%Z, set_mempool None w2).

(** [spdk_reactors_start] on the thread of core [cur], from its entry
    to the launch of the reactor threads (the lines before the first
    [RTE_LCORE_FOREACH_SLAVE]). *)
Definition spdk_reactors_start_entry (cur : nat) (w : world) : result world :=
  if decide (rte_get_master_lcore h = cur)
  then Ok (set_reactor_state SPDK_REACTOR_STATE_RUNNING w)
  else Panic.                           (* RTE_VERIFY(master == rte_lcore_id()) *)

End lifecycle.

(** ** The rest of the lifecycle *)

Definition spdk_app_get_core_count (w : world) : Z := g_reactor_count w.

(** [spdk_reactors_fini] releases nothing ([TODO: free rings and
    mempool]) and returns 0. *)
Definition spdk_reactors_fini (w : world) : Z * world := (0%Z, w).

Section sockets.

Variable h : host.

(** [rte_lcore_to_socket_id], the NUMA socket of a core. *)
Variable rte_lcore_to_socket_id : nat → nat.

(** [socket_info |= (1ULL << socket_id)] is the operation of
    [set_core_bit], on a socket number. *)
Definition spdk_reactor_get_socket_mask (w : world) : Z :=
  foldl (λ socket_info i,
           if mask_has (g_reactor_mask w) i
           then set_core_bit socket_info (rte_lcore_to_socket_id i)
           else socket_info)
        0%Z (lcores h).

End sockets.

(** *** What [spdk_reactors_init] prints

    [printf("Occupied cpu core mask is 0x%lx\n", spdk_app_get_core_mask())]:
    the C library writes the digits of a [%lx] from the last to the
    first, at least one and at most sixteen for a 64-bit value. *)

(** ["0123456789abcdef"[d]]. *)
Definition hex_char (d : Z) : ascii :=
  ascii_of_nat (Z.to_nat (if d <? 10 then 48 + d else 87 + d)%Z).

Fixpoint lx_digits (fuel : nat) (v : Z) (acc : string) : string :=
  match fuel with
  | 0 => acc
  | S fuel' =>
      let acc' := String (hex_char (v mod 16)) acc in
      if (v / 16 =? 0)%Z then acc' else lx_digits fuel' (v / 16) acc'
  end.

Definition printf_lx (v : Z) : string := lx_digits 16 v EmptyString.

(** The mask as the line shows it, [0x] included. *)
Definition core_mask_text (w : world) : string :=
  String "0" (String "x" (printf_lx (spdk_app_get_core_mask w))).

(** ** Starting the reactors

    [spdk_reactors_start] and [spdk_reactor_start] run on the thread
    that calls them, the master's, and are followed on that thread.
    The reactors of the other cores are handed to DPDK's launcher,
    which runs them on threads of their own; what those threads do is a
    run of steps ([run_steps]) and is not part of these functions.  Of
    the launcher the functions see the state of each lcore; where the
    master has to wait for another lcore to finish, they end in
    [Start_waiting]. *)

(** [enum rte_lcore_state_t]. *)
Inductive rte_lcore_state_t : Set := WAIT | RUNNING | FINISHED.

#[global] Instance rte_lcore_state_t_eq_dec : EqDecision rte_lcore_state_t.
Proof. solve_decision. Defined.

(** The launcher: the state of every lcore, and the launches it has
    accepted, each with the lcore and the reactor given to
    [_spdk_reactor_run]. *)
Record eal : Type := Eal {
  lcore_state : nat → rte_lcore_state_t;
  launched : list (nat * nat);
}.

(** [lcore_config[lcore].state = s]. *)
Definition set_lcore_state (lcore : nat) (s : rte_lcore_state_t) (e : eal) : eal :=
  Eal (λ i, if decide (i = lcore) then s else lcore_state e i) (launched e).

(** [rte_eal_get_lcore_state]. *)
Definition rte_eal_get_lcore_state (lcore : nat) (e : eal) : rte_lcore_state_t :=
  lcore_state e lcore.

(** [rte_eal_wait_lcore]: at once on an lcore in WAIT, after setting a
    FINISHED lcore back to WAIT; on a RUNNING lcore the call does not
    return before that lcore has finished ([None]). *)
Definition rte_eal_wait_lcore (lcore : nat) (e : eal) : option eal :=
  match lcore_state e lcore with
  | WAIT => Some e
  | FINISHED => Some (set_lcore_state lcore WAIT e)
  | RUNNING => None
  end.

(** [rte_eal_remote_launch(_spdk_reactor_run, reactor, lcore)]: refused
    ([-EBUSY], which the caller does not look at) unless the lcore is
    in WAIT. *)
Definition rte_eal_remote_launch (reactor lcore : nat) (e : eal) : eal :=
  match lcore_state e lcore with
  | WAIT =>
      let e1 := set_lcore_state lcore RUNNING e in
      Eal (lcore_state e1) (launched e1 ++ [(lcore, reactor)])
  | _ => e
  end.

(** How far [spdk_reactors_start] has come. *)
Inductive start_outcome : Type :=
| Start_returned (r : result (world * eal))
| Start_in_loop (w : world)                 (* inside a reactor loop *)
| Start_waiting (lcore : nat) (w : world) (e : eal).
                      (* inside rte_eal_wait_lcore(lcore), until that lcore finishes *)

Section start.

Variable h : host.
Variable user_fn : nat → spdk_event → world → list api_call.
Variable poller_fn : nat → world → list api_call.

(** [spdk_reactor_start(&g_reactors[reactor])] on the thread of core
    [cur]; a reactor loop it runs itself gets [fuel] iterations. *)
Definition spdk_reactor_start (fuel cur reactor : nat) (w : world) (e : eal)
    : start_outcome :=
  match g_reactors w !! reactor with
  | None => Start_returned Fault
  | Some r =>
      if decide (lcore r ≠ rte_get_master_lcore h) then
        match rte_eal_get_lcore_state (lcore r) e with
        | FINISHED =>
            match rte_eal_wait_lcore (lcore r) e with
            | Some e1 => Start_returned (Ok (w, rte_eal_remote_launch reactor (lcore r) e1))
            | None => Start_waiting (lcore r) w e
            end
        | WAIT => Start_returned (Ok (w, rte_eal_remote_launch reactor (lcore r) e))
        | RUNNING => Start_returned (Ok (w, e))      (* "Something already running" *)
        end
      else
        match _spdk_reactor_run user_fn poller_fn fuel cur reactor w with
        | Returned (Ok w1) => Start_returned (Ok (w1, e))
        | Returned Exit_failure => Start_returned Exit_failure
        | Returned Panic => Start_returned Panic
        | Returned Fault => Start_returned Fault
        | Still_running w1 => Start_in_loop w1
        end
  end.

(** [RTE_LCORE_FOREACH_SLAVE]: the enabled cores but the master. *)
Definition slave_lcores : list nat :=
  filter (λ i, i ≠ rte_get_master_lcore h) (lcores h).

(** The first loop of [spdk_reactors_start], over the cores [l]. *)
Fixpoint start_slaves (fuel cur : nat) (l : list nat) (w : world) (e : eal)
    : start_outcome :=
  match l with
  | [] => Start_returned (Ok (w, e))
  | i :: l' =>
      if mask_has (spdk_app_get_core_mask w) i then
        match spdk_reactor_start fuel cur i w e with
        | Start_returned (Ok (w1, e1)) => start_slaves fuel cur l' w1 e1
        | o => o
        end
      else start_slaves fuel cur l' w e
  end.

(** [rte_eal_mp_wait_lcore] over the cores [l]: the launcher when every
    one of them has been waited for, or the lcore whose wait does not
    return. *)
Fixpoint rte_eal_mp_wait_lcore (l : list nat) (e : eal) : eal + nat :=
  match l with
  | [] => inl e
  | i :: l' =>
      match rte_eal_wait_lcore i e with
      | Some e1 => rte_eal_mp_wait_lcore l' e1
      | None => inr i
      end
  end.

Definition spdk_reactors_start (fuel cur : nat) (w : world) (e : eal) : start_outcome :=
  if decide (rte_get_master_lcore h = cur) then
    let w1 := set_reactor_state SPDK_REACTOR_STATE_RUNNING w in
    match start_slaves fuel cur slave_lcores w1 e with
    | Start_returned (Ok (w2, e2)) =>
        match spdk_reactor_start fuel cur (rte_get_master_lcore h) w2 e2 with
        | Start_returned (Ok (w3, e3)) =>
            match rte_eal_mp_wait_lcore slave_lcores e3 with
            | inl e4 =>
                Start_returned (Ok (set_reactor_state SPDK_REACTOR_STATE_SHUTDOWN w3, e4))
            | inr lcore => Start_waiting lcore w3 e3
            end
        | o => o
        end
    | o => o
    end
  else Start_returned Panic.        (* RTE_VERIFY(master == rte_lcore_id()) *)

End start.

(** ** The names of threads and rings

    The names [reactor.c] builds with [snprintf]: the digits of a [%d]
    (or [%u]) of a core number, behind a prefix, cut to the size of the
    buffer. *)

Fixpoint d_digits (fuel : nat) (v : Z) (acc : string) : string :=
  match fuel with
  | 0 => acc
  | S fuel' =>
      let acc' := String (ascii_of_nat (Z.to_nat (48 + v mod 10))) acc in
      if (v / 10 =? 0)%Z then acc' else d_digits fuel' (v / 10) acc'
  end.

(** [%d] and [%u] of a core number, a value below [2^31]. *)
Definition printf_d (v : nat) : string := d_digits 10 (Z.of_nat v) EmptyString.

(** [snprintf(buf, size, ...)] keeps [size - 1] characters of the
    text. *)
Definition snprintf (size : nat) (text : string) : string :=
  substring 0 (size - 1) text.

(** [set_reactor_thread_name]: the name given to the thread of core
    [cur] ([char thread_name[16]]). *)
Definition set_reactor_thread_name (cur : nat) : string :=
  snprintf 16 ("reactor " ++ printf_d cur).

(** The names of the two rings of [spdk_reactor_construct]
    ([char ring_name[64]]; the second [snprintf] is given
    [sizeof(ring_name) - 1]). *)
Definition active_pollers_ring_name (lcore : nat) : string :=
  snprintf 64 ("spdk_active_pollers_" ++ printf_d lcore).

Definition events_ring_name (lcore : nat) : string :=
  snprintf 63 ("spdk_event_queue_" ++ printf_d lcore).

(** * Vocabulary of the properties *)

(** ** What a step of the process may change *)

(** [q'] is the event queue [q] with entries added at the tail. *)
Definition queue_extends (q q' : option (rte_ring spdk_event)) : Prop :=
  match q, q' with
  | Some q, Some q' =>
      ring_capacity q' = ring_capacity q
      ∧ ∃ added, ring_entries q' = ring_entries q ++ added
  | None, None => True
  | _, _ => False
  end.

(** A relation on reactors, lifted to the slots of [g_reactors]. *)
Definition slot_rel (R : spdk_reactor → spdk_reactor → Prop)
    (a b : option spdk_reactor) : Prop :=
  match a, b with
  | Some r, Some r' => R r r'
  | None, None => True
  | _, _ => False
  end.

(** [w'] comes from [w] by handlers and callbacks running: nothing is
    observed, event queues only grow at the tail, and the reactor state
    is left alone or set to EXITING. *)
Definition extends (w w' : world) : Prop :=
  trace w' = trace w
  ∧ (g_reactor_state w' = g_reactor_state w
     ∨ g_reactor_state w' = SPDK_REACTOR_STATE_EXITING)
  ∧ ∀ n, slot_rel (λ r r', lcore r' = lcore r ∧ queue_extends (events r) (events r'))
                  (g_reactors w !! n) (g_reactors w' !! n).

(** [w'] comes from [w] by calls of the application into the reactor:
    on top of [extends], no poller ring and no poller is touched. *)
Definition posts (w w' : world) : Prop :=
  extends w w'
  ∧ poller_lcore w' = poller_lcore w
  ∧ g_reactor_mask w' = g_reactor_mask w
  ∧ ∀ n, slot_rel (λ r r', active_pollers r' = active_pollers r)
                  (g_reactors w !! n) (g_reactors w' !! n).

(** The observations of one event being run: its callback, then its
    record going back to the pool. *)
Definition event_obs (e : spdk_event) : list obs := [Obs_event_fn e; Obs_event_free e].

(** The pollers whose callbacks a trace shows, in order. *)
Definition poller_log (t : list obs) : list nat :=
  flat_map (λ o, match o with Obs_poller_fn p => [p] | _ => [] end) t.

(** One turn of a round-robin ring: the head goes to the tail. *)
Definition head_to_tail {A} (l : list A) : list A :=
  match l with
  | [] => []
  | p :: rest => rest ++ [p]
  end.

(** What the trace shows of one poll of the ring [l]. *)
Definition poll_obs (l : list nat) : list obs :=
  match l with
  | [] => []
  | p :: _ => [Obs_poller_fn p]
  end.

(** ** The text of a core mask

    How the specification reads a mask string: white space, an optional
    sign, an optional [0x], a hexadecimal number, and a tail.  The
    number is taken as an unbounded integer. *)

(** The digits of the longest hexadecimal prefix of [s], and what
    follows them. *)
Fixpoint hex_span (s : string) : list Z * string :=
  match s with
  | String c s' =>
      match hex_digit c with
      | Some d => let '(ds, t) := hex_span s' in (d :: ds, t)
      | None => ([], s)
      end
  | EmptyString => ([], s)
  end.

Definition hex_number (ds : list Z) : Z := foldl (λ a d, a * 16 + d)%Z 0%Z ds.

Definition mask_sign (s : string) : bool * string := strip_sign (skip_space s).

(** The digits of the number and the tail behind it.  A [0x] is part of
    the number only when a digit follows; otherwise the number is the
    [0] in front of the [x]. *)
Definition mask_digits (s : string) : list Z * string :=
  let s1 := snd (mask_sign s) in
  match s1 with
  | String c (String x s2) =>
      if Ascii.eqb c "0" && is_x x then
        match hex_span s2 with
        | ([], _) => ([0%Z], String x s2)
        | dt => dt
        end
      else hex_span s1
  | _ => hex_span s1
  end.

(** The hexadecimal value written in [s], 0 when there is none. *)
Definition mask_value (s : string) : Z := hex_number (fst (mask_digits s)).

(** What follows the number; all of [s] when [s] holds no number. *)
Definition mask_tail (s : string) : string :=
  match mask_digits s with
  | ([], _) => s
  | (_, t) => t
  end.

(** The value of [s] as a 64-bit unsigned integer. *)
Definition mask_parsed (s : string) : Z :=
  ((if fst (mask_sign s) then - mask_value s else mask_value s) mod 2 ^ 64)%Z.

(** ** Reactor threads, interleaved

    The reactors run on threads of their own and meet in the event
    queues.  What a thread does to the shared state between two of its
    own steps is a run of steps of the other threads; a step is one turn
    of the drain loop, one timer tick, or one poll of the poller ring,
    each by the thread of the core it names.  Every execution of the
    reactor loops is such a sequence of steps. *)

Inductive reactor_step : Set :=
| Step_event (n : nat)
| Step_timer (n : nat)
| Step_poll (n : nat).

Section interleaving.

Variable user_fn : nat → spdk_event → world → list api_call.
Variable poller_fn : nat → world → list api_call.

Definition run_step (s : reactor_step) (w : world) : result world :=
  match s with
  | Step_event n => spdk_event_queue_run_single user_fn n n w
  | Step_timer n => Ok (rte_timer_manage n w)
  | Step_poll n => reactor_poll poller_fn n w
  end.

Fixpoint run_steps (l : list reactor_step) (w : world) : result world :=
  match l with
  | [] => Ok w
  | s :: l' => w1 ← run_step s w; run_steps l' w1
  end.

End interleaving.

(** ** A migration among other things

    The vocabulary of the migration protocol: the migration of poller
    [P] to core [M], with completion event [E], while the application
    goes on posting events and registering, unregistering and migrating
    other pollers. *)

(** The poller a handler of the control protocol is run on: the poller
    argument of an add, a remove or a migrate event. *)
Definition poller_of_event (e : spdk_event) : option nat :=
  match ev_fn e with
  | Fn_add_poller | Fn_remove_poller =>
      match ev_arg2 e with Arg_poller p => Some p | _ => None end
  | Fn_poller_migrate =>
      match ev_arg1 e with Arg_poller p => Some p | _ => None end
  | Fn_user _ => None
  end.

(** An event that leaves the poller [P] and the event [E] alone: no
    handler is run on [P], neither by the event nor by the events
    chained behind it that a handler will queue, and none of those is
    [E].  What is chained behind an event of the application is the
    business of its callback. *)
Fixpoint apart (P : nat) (E : spdk_event) (e : spdk_event) : Prop :=
  poller_of_event e ≠ Some P
  ∧ match e with
    | Event _ (Fn_user _) _ _ _ => True
    | Event _ _ _ _ (Some n) => n ≠ E ∧ apart P E n
    | Event _ _ _ _ None => True
    end.

(** An event other than [E] that leaves [P] and [E] alone.  Events are
    named by their content: [E] stands for one record of the pool, and
    an event with the same content would be taken for it. *)
Definition foreign (P : nat) (E : spdk_event) (e : spdk_event) : Prop :=
  e ≠ E ∧ apart P E e.

Definition foreign_next (P : nat) (E : spdk_event) (c : option spdk_event) : Prop :=
  match c with
  | Some n => foreign P E n
  | None => True
  end.

(** A call that leaves [P] and [E] alone: it posts such an event,
    registers, unregisters or migrates another poller, or stops the
    reactors. *)
Definition foreign_call (P : nat) (E : spdk_event) (c : api_call) : Prop :=
  match c with
  | Api_event_call e => foreign P E e
  | Api_poller_register q _ complete => q ≠ P ∧ foreign_next P E complete
  | Api_poller_unregister q complete => q ≠ P ∧ foreign_next P E complete
  | Api_poller_migrate q _ complete => q ≠ P ∧ foreign_next P E complete
  | Api_reactors_stop => True
  end.

(** The handlers of the control protocol that a trace shows running on
    the poller [P], in order. *)
Definition control_log (P : nat) (t : list obs) : list event_fn :=
  flat_map (λ o, match o with
                 | Obs_event_fn e =>
                     if decide (poller_of_event e = Some P) then [ev_fn e] else []
                 | _ => []
                 end) t.

(** How often [p] is in the ring [l]. *)
Definition occurrences (p : nat) (l : list nat) : nat :=
  length (filter (λ x, x = p) l).

(** The events the migration passes through the queues. *)
Definition migrate_event (P M : nat) (E : spdk_event) : spdk_event :=
  Event M Fn_poller_migrate (Arg_poller P) Arg_null (Some E).

Definition remove_event (P A M : nat) (E : spdk_event) : spdk_event :=
  Event A Fn_remove_poller (Arg_reactor A) (Arg_poller P) (Some (migrate_event P M E)).

Definition add_event (P M : nat) (E : spdk_event) : spdk_event :=
  Event M Fn_add_poller (Arg_reactor M) (Arg_poller P) (Some E).

(** Where the migration is: which of its events is queued, on which
    core. *)
Inductive migrate_phase : Set :=
| Unregistering
| Migrating
| Registering
| Completing
| Completed.

Definition phase_pending (P A M : nat) (E : spdk_event) (ph : migrate_phase)
    : option (nat * spdk_event) :=
  match ph with
  | Unregistering => Some (A, remove_event P A M E)
  | Migrating => Some (M, migrate_event P M E)
  | Registering => Some (M, add_event P M E)
  | Completing => Some (ev_lcore E, E)
  | Completed => None
  end.

Definition phase_log (ph : migrate_phase) : list event_fn :=
  match ph with
  | Unregistering => []
  | Migrating => [Fn_remove_poller]
  | Registering => [Fn_remove_poller; Fn_poller_migrate]
  | Completing | Completed => [Fn_remove_poller; Fn_poller_migrate; Fn_add_poller]
  end.

(** The queue of core [n]: events that leave the migration alone, and
    the pending event of the migration when [n] is its core. *)
Definition queue_ok (P : nat) (E : spdk_event) (pending : option (nat * spdk_event))
    (n : nat) (q : list spdk_event) : Prop :=
  match pending with
  | Some (c, x) =>
      if decide (n = c)
      then ∃ l1 l2, q = l1 ++ x :: l2 ∧ Forall (foreign P E) l1 ∧ Forall (foreign P E) l2
      else Forall (foreign P E) q
  | None => Forall (foreign P E) q
  end.

(** Where the poller is, by phase. *)
Definition poller_ok (P A M : nat) (ph : migrate_phase) (w : world) : Prop :=
  match ph with
  | Unregistering =>
      occurrences P (pollers_of A w) = 1
      ∧ ∀ n, n ≠ A → occurrences P (pollers_of n w) = 0
  | Migrating | Registering =>
      ∀ n, occurrences P (pollers_of n w) = 0
  | Completing | Completed =>
      poller_lcore w !! P = Some M
      ∧ occurrences P (pollers_of M w) = 1
      ∧ ∀ n, n ≠ M → occurrences P (pollers_of n w) = 0
  end.

(** The reactor of core [n] carries the number [n], as
    [spdk_reactor_construct] leaves it. *)
Definition own_number (n : nat) (w : world) : Prop :=
  ∀ r, g_reactors w !! n = Some r → lcore r = n.

(** [w'] has the poller rings and the pollers of [w]. *)
Definition rings_same (w w' : world) : Prop :=
  poller_lcore w' = poller_lcore w
  ∧ ∀ n, slot_rel (λ r r', lcore r' = lcore r ∧ active_pollers r' = active_pollers r)
                  (g_reactors w !! n) (g_reactors w' !! n).

(** ** More vocabulary *)

(** Every poller ring holds no more than its capacity, as a ring of
    DPDK does. *)
Definition pollers_fit (w : world) : Prop :=
  ∀ n r ring, g_reactors w !! n = Some r → active_pollers r = Some ring →
    (N.of_nat (rte_ring_count ring) ≤ ring_capacity ring)%N.

(** The reactor [spdk_reactor_construct] leaves in slot [i]. *)
Definition constructed (h : host) (i : nat) : spdk_reactor :=
  Reactor i (rte_ring_create (SPDK_POLLER_RING_SIZE h) (poller_ring_created h i))
            (Some (Ring 65535%N [])).

(** The cores of [l] whose bit is set in the mask [m]. *)
Definition in_mask (m : Z) (l : list nat) : list nat :=
  filter (λ i, mask_has m i = true) l.

(** The number a string of decimal digits writes. *)
Fixpoint decimal_value (acc : Z) (s : string) : Z :=
  match s with
  | EmptyString => acc
  | String c s' => decimal_value (acc * 10 + (Z.of_nat (nat_of_ascii c) - 48))%Z s'
  end.

(** ** The invariant of a migration *)

(** The invariant of a migration started in [w0]. *)
Definition migrate_inv (P A M : nat) (E : spdk_event) (w0 : world)
    (ph : migrate_phase) (w : world) : Prop :=
  (∃ t, trace w = trace w0 ++ t
        ∧ control_log P t = phase_log ph
        ∧ (ph ≠ Completed → Obs_event_fn E ∉ t))
  ∧ (∀ n, queue_ok P E (phase_pending P A M E ph) n (events_of n w))
  ∧ poller_ok P A M ph w
  ∧ pollers_fit w
  ∧ own_number M w.

(** The poller ring of core [n] has a free slot. *)
Definition ring_has_room (n : nat) (w : world) : Prop :=
  ∀ r ring, g_reactors w !! n = Some r → active_pollers r = Some ring →
    (N.of_nat (rte_ring_count ring) < ring_capacity ring)%N.

Section room.

Variable user_fn : nat → spdk_event → world → list api_call.
Variable poller_fn : nat → world → list api_call.

(** Along the run of [steps] from [w]: whenever the thread of core [n]
    takes a turn of its drain loop with the event [x] at the head of
    its queue, so that it runs [x], the poller ring of [n] has a free
    slot. *)
Fixpoint room_when_run (n : nat) (x : spdk_event) (steps : list reactor_step)
    (w : world) : Prop :=
  match steps with
  | [] => True
  | s :: steps' =>
      (s = Step_event n → head (events_of n w) = Some x → ring_has_room n w)
      ∧ ∀ w1, run_step user_fn poller_fn s w = Ok w1 → room_when_run n x steps' w1
  end.

End room.

(** [w'] comes from [w] by something that leaves [P] and [E] alone:
    [P] is where it was, as often, and the queues have grown by events
    that leave them alone. *)
Definition keeps (P : nat) (E : spdk_event) (w w' : world) : Prop :=
  trace w' = trace w
  ∧ poller_lcore w' !! P = poller_lcore w !! P
  ∧ (∀ n, occurrences P (pollers_of n w') = occurrences P (pollers_of n w))
  ∧ (∀ n, ∃ added, events_of n w' = events_of n w ++ added ∧ Forall (foreign P E) added).

(** ** Hosts *)

(** The shifts [1ULL << i] that [reactor.c] makes by the number of a
    core are defined on this host: the master core and the enabled
    cores are all below 64. *)
Definition lcores_below_64 (h : host) : Prop :=
  rte_get_master_lcore h < 64 ∧ Forall (λ i, i < 64) (lcores h).

(** The host [h] with another master core. *)
Definition with_master (m : nat) (h : host) : host :=
  Host (RTE_MAX_LCORE h) (rte_lcore_is_enabled h) m (SPDK_POLLER_RING_SIZE h)
       (poller_ring_created h) (event_ring_created h) (mempool_created h).

(** ** The drain, event by event

    How the specification reads a drain: the events that are queued
    when it starts are run one after the other; each leaves the queue,
    has its callback run once, and has its record returned to the pool,
    which then holds one free record more. *)

(** The records of the event pool that are free, and those that are
    queued: every queued event with the events chained behind it. *)
Definition records_free (w : world) : nat :=
  match g_spdk_event_mempool w with
  | Some free => N.to_nat free
  | None => 0
  end.

Definition records_of_reactor (r : spdk_reactor) : nat :=
  match events r with
  | Some q => sum_list (map chain_length (ring_entries q))
  | None => 0
  end.

Definition records_queued (w : world) : nat :=
  sum_list (map records_of_reactor (g_reactors w)).

(** The records of an event that may be missing: the event and what
    is chained behind it. *)
Definition chain_of (c : option spdk_event) : nat :=
  match c with Some e => chain_length e | None => 0 end.

(** The records an event hands to its callback: the reactor passes the
    events chained behind an event of the application to the callback
    and does not look at them again. *)
Definition records_handed_over (e : spdk_event) : nat :=
  match ev_fn e with
  | Fn_user _ => chain_length e - 1
  | _ => 0
  end.

Section drain_spec.

Variable user_fn : nat → spdk_event → world → list api_call.

(** One event of the drain, on the thread of core [cur]: [e] leaves
    the queue of [lcore], its callback is run, and its record goes back
    to the pool, which has one free record more. *)
Definition run_and_release (cur lcore : nat) (e : spdk_event) (w : world) : result world :=
  match g_reactors w !! lcore with
  | Some r =>
      match events r with
      | Some q =>
          let w1 := set_events lcore (Ring (ring_capacity q) (tail (ring_entries q))) w in
          w2 ← event_fn_call user_fn cur e (observe (Obs_event_fn e) w1);
          match g_spdk_event_mempool w2 with
          | Some free => Ok (observe (Obs_event_free e) (set_mempool (Some (free + 1)%N) w2))
          | None => Fault
          end
      | None => Panic
      end
  | None => Fault
  end.

(** The events of [snapshot], one after the other. *)
Fixpoint drain_snapshot (cur lcore : nat) (snapshot : list spdk_event) (w : world)
    : result world :=
  match snapshot with
  | [] => Ok w
  | e :: rest =>
      w1 ← run_and_release cur lcore e w;
      drain_snapshot cur lcore rest w1
  end.

End drain_spec.

(** ** The iterations of a reactor loop *)

Section iterations.

Variable user_fn : nat → spdk_event → world → list api_call.
Variable poller_fn : nat → world → list api_call.

(** [ws] holds the worlds in which the successive iterations of the
    loop that starts in [w] have ended, each iteration starting where
    the one before it ended. *)
Fixpoint iterations (cur reactor : nat) (w : world) (ws : list world) : Prop :=
  match ws with
  | [] => True
  | w1 :: ws' =>
      reactor_iteration user_fn poller_fn cur reactor w = Ok w1
      ∧ iterations cur reactor w1 ws'
  end.

End iterations.

(** * Scenarios

    Small configurations on which the properties are run: two cores,
    core 0 being the master, and a handful of pollers. *)

(** An application whose callbacks make no call into the reactor. *)
Definition quiet_fn (id : nat) (e : spdk_event) (w : world) : list api_call := [].
Definition quiet_poller (p : nat) (w : world) : list api_call := [].

(** A constructed reactor: its poller ring and its event queue. *)
Definition core (n : nat) (cap : N) (pollers : list nat) (queue : list spdk_event)
    : spdk_reactor :=
  Reactor n (Some (Ring cap pollers)) (Some (Ring 65535 queue)).

(** A running process with the reactors [rs], on cores 0 and 1. *)
Definition running (rs : list spdk_reactor) (pollers : list (nat * nat)) : world :=
  World rs 3 2 SPDK_REACTOR_STATE_RUNNING (Some 1024%N) (list_to_map pollers) [].

(** Scenario 4 of the specification: the ring of core 0 holds
    (A, B, C, D), here the pollers 10, 11, 12, 13. *)
Definition world_ABCD : world :=
  running [core 0 4095 [10; 11; 12; 13] []; core 1 4095 [] []]
          [(10, 0); (11, 0); (12, 0); (13, 0)].

(** Scenario 2: pollers A, B, C (10, 11, 12) on core 0. *)
Definition world_ABC : world :=
  running [core 0 4095 [10; 11; 12] []; core 1 4095 [] []]
          [(10, 0); (11, 0); (12, 0)].

(** A user event that posts another one to its own core. *)
Definition echo_event : spdk_event := Event 0 (Fn_user 2) Arg_null Arg_null None.
Definition burst_event : spdk_event := Event 0 (Fn_user 1) Arg_null Arg_null None.
Definition burst_fn (id : nat) (e : spdk_event) (w : world) : list api_call :=
  if decide (id = 1) then [Api_event_call echo_event] else [].

Definition world_burst : world :=
  running [core 0 4095 [] [burst_event; echo_event]; core 1 4095 [] []] [].

(** The completion event of the migrations below. *)
Definition completion : spdk_event := Event 0 (Fn_user 5) Arg_null Arg_null None.

(** Scenario 3: poller P (7) on core 0, to be moved to core 1. *)
Definition world_P : world :=
  running [core 0 4095 [7] []; core 1 4095 [] []] [(7, 0)].

(** The same with the ring of core 1 full: its one slot holds poller 9. *)
Definition world_P_full : world :=
  running [core 0 4095 [7] []; core 1 1 [9] []] [(7, 0); (9, 1)].

(** The same with a registration of P on core 0 already queued there. *)
Definition world_P_racing : world :=
  running [core 0 4095 [7]
             [Event 0 Fn_add_poller (Arg_reactor 0) (Arg_poller 7) None];
           core 1 4095 [] []] [(7, 0)].

(** A host with four cores of which 0 and 1 are enabled, core 0 being
    the master, and the process before [spdk_reactors_init]. *)
Definition host_2_of_4 : host :=
  Host 4 (λ i, bool_decide (i < 2)) 0 4096 (λ _, true) (λ _, true) true.

Definition world_boot : world :=
  World (replicate 4 (Reactor 0 None None)) 0 0 SPDK_REACTOR_STATE_INVALID None ∅ [].

(** ** More scenarios *)

(** A host as [host_2_of_4] on which the poller ring of core 1 cannot
    be created. *)
Definition host_no_poller_ring : host :=
  Host 4 (λ i, bool_decide (i < 2)) 0 4096 (λ i, bool_decide (i ≠ 1)) (λ _, true) true.

(** An application whose callback 9 stops the reactors. *)
Definition stop_fn (id : nat) (e : spdk_event) (w : world) : list api_call :=
  if decide (id = 9) then [Api_reactors_stop] else [].

Definition stop_event : spdk_event := Event 0 (Fn_user 9) Arg_null Arg_null None.

(** An initialised process whose mask holds the master core only, with
    poller 10 on it and the stop event queued. *)
Definition world_alone : world :=
  World [core 0 4095 [10] [stop_event]; core 1 4095 [] []]
        1 1 SPDK_REACTOR_STATE_INITIALIZED (Some 1024%N) (list_to_map [(10, 0)]) [].

(** A launcher with every lcore in WAIT. *)
Definition eal_idle : eal := Eal (λ _, WAIT) [].

(** Poller 7 was on core 0 once and is in no ring now. *)
Definition world_P_gone : world :=
  running [core 0 4095 [] []; core 1 4095 [] []] [(7, 0)].

(** An application whose callback 8 posts the stop event, and whose
    callback 9 stops the reactors. *)
Definition relay_fn (id : nat) (e : spdk_event) (w : world) : list api_call :=
  if decide (id = 8) then [Api_event_call stop_event]
  else if decide (id = 9) then [Api_reactors_stop] else [].

Definition relay_event : spdk_event := Event 0 (Fn_user 8) Arg_null Arg_null None.

(** Pollers 10 and 11 on core 0, with the relay event queued. *)
Definition world_relay : world :=
  running [core 0 4095 [10; 11] [relay_event]; core 1 4095 [] []] [(10, 0); (11, 0)].

(** Poller 7 on core 0, to be moved to core 1, while an event of the
    application with the callback of the completion event is queued on
    core 0, and the registration of poller 8 on core 1. *)
Definition world_P_busy : world :=
  running [core 0 4095 [7] [Event 0 (Fn_user 5) Arg_null (Arg_user 1) None];
           core 1 4095 [] [Event 1 Fn_add_poller (Arg_reactor 1) (Arg_poller 8) None]]
          [(7, 0)].

(** * Properties *)

(** ** Rings *)

Lemma rte_ring_enqueue_Some {A} (cap : N) (l : list A) (x : A) :
  (N.of_nat (length l) < cap)%N →
  rte_ring_enqueue (Ring cap l) x = Some (Ring cap (l ++ [x])).
Proof.
  intros Hlt. unfold rte_ring_enqueue, rte_ring_count. simpl.
  apply N.ltb_lt in Hlt. by rewrite Hlt.
Qed.

Lemma rte_ring_enqueue_None {A} (cap : N) (l : list A) (x : A) :
  (cap ≤ N.of_nat (length l))%N →
  rte_ring_enqueue (Ring cap l) x = None.
Proof.
  intros Hle. unfold rte_ring_enqueue, rte_ring_count. simpl.
  apply N.ltb_ge in Hle. by rewrite Hle.
Qed.

(** ** The removal walk *)

Lemma remove_poller_walk_step poller i ring seen :
  remove_poller_walk poller i ring seen =
  if i <? rte_ring_count ring then
    match rte_ring_dequeue ring with
    | None => Fault
    | Some (tmp, ring1) =>
        if decide (tmp = poller) then remove_poller_walk poller (S i) ring1 (seen ++ [tmp])
        else match rte_ring_enqueue ring1 tmp with
             | None => Exit_failure
             | Some ring2 => remove_poller_walk poller (S i) ring2 (seen ++ [tmp])
             end
    end
  else Ok (ring, seen).
Proof.
  funelim (remove_poller_walk poller i ring seen); clear Heqcall;
    repeat match goal with H : @eq (sigma _) _ _ |- _ => clear H end;
    repeat match goal with
    | H : (_ <? _) = _ |- _ => rewrite H; clear H
    | H : rte_ring_dequeue _ = _ |- _ => rewrite H; clear H
    | H : rte_ring_enqueue _ _ = _ |- _ => rewrite H; clear H
    | H : decide _ = _ |- _ => rewrite H; clear H
    end; reflexivity.
Qed.

(** A walk that does not meet the target turns the ring, one entry per
    iteration, for as long as [i] is below the length. *)
Lemma remove_poller_walk_absent k : ∀ cap l i seen poller,
  poller ∉ l →
  (N.of_nat (length l) ≤ cap)%N →
  k = length l - i →
  remove_poller_walk poller i (Ring cap l) seen
  = Ok (Ring cap (drop k l ++ take k l), seen ++ take k l).
Proof.
  induction k as [|k IH]; intros cap l i seen poller Hnotin Hcap Hk;
    rewrite remove_poller_walk_step; unfold rte_ring_count; simpl.
  - destruct (Nat.ltb_spec i (length l)); [lia|].
    by rewrite take_0, drop_0, !app_nil_r.
  - destruct (Nat.ltb_spec i (length l)); [|lia].
    destruct l as [|x l]; [simpl in *; lia|].
    unfold rte_ring_dequeue; simpl.
    apply not_elem_of_cons in Hnotin as [Hx Hl].
    destruct (decide (x = poller)) as [->|_]; [done|].
    rewrite rte_ring_enqueue_Some by (simpl in *; lia).
    rewrite (IH cap (l ++ [x]) (S i) (seen ++ [x]) poller).
    + simpl in *. rewrite drop_app_le, take_app_le by lia.
      by rewrite <- !app_assoc.
    + rewrite not_elem_of_app, not_elem_of_cons. split; [done|]. split; [done|]. apply not_elem_of_nil.
    + rewrite length_app. simpl in *. lia.
    + rewrite length_app. simpl in *. lia.
Qed.

(** A walk that meets the target once: the entries before it are turned
    to the back, the target is dropped, and the walk goes on only while
    [i] is below the length of the shortened ring. *)
Lemma remove_poller_walk_found pre : ∀ cap post i seen poller,
  poller ∉ pre → poller ∉ post →
  (N.of_nat (length pre + 1 + length post) ≤ cap)%N →
  i ≤ length post →
  remove_poller_walk poller i (Ring cap (pre ++ poller :: post)) seen
  = Ok (Ring cap (drop (length post - i - 1) (post ++ pre)
                  ++ take (length post - i - 1) (post ++ pre)),
        seen ++ pre ++ [poller] ++ take (length post - i - 1) (post ++ pre)).
Proof.
  induction pre as [|x pre IH]; intros cap post i seen poller Hpre Hpost Hcap Hi;
    rewrite remove_poller_walk_step; unfold rte_ring_count; simpl.
  - destruct (Nat.ltb_spec i (S (length post))); [|lia].
    unfold rte_ring_dequeue; simpl. rewrite decide_True by done.
    rewrite app_nil_r.
    rewrite (remove_poller_walk_absent (length post - i - 1)); [| done | simpl in *; lia | lia].
    by rewrite <- app_assoc.
  - rewrite length_app. simpl.
    destruct (Nat.ltb_spec i (S (length pre + S (length post)))); [|lia].
    unfold rte_ring_dequeue; simpl.
    apply not_elem_of_cons in Hpre as [Hx Hpre].
    rewrite decide_False by done.
    rewrite rte_ring_enqueue_Some by (rewrite length_app; simpl in *; lia).
    rewrite <- app_assoc. simpl.
    rewrite (IH cap (post ++ [x]) (S i) (seen ++ [x]) poller); try done.
    + rewrite length_app. simpl.
      replace (length post + 1 - S i - 1) with (length post - i - 1) by lia.
      by rewrite <- !app_assoc.
    + rewrite not_elem_of_app, not_elem_of_cons. split; [done|]. split; [done|]. apply not_elem_of_nil.
    + rewrite length_app. simpl in *. lia.
    + rewrite length_app. simpl. lia.
Qed.

(** ** The array of reactors *)

Lemma reactor_load_Ok n w r : reactor_load n w = Ok r ↔ g_reactors w !! n = Some r.
Proof. unfold reactor_load. destruct (g_reactors w !! n); split; congruence. Qed.

Lemma lookup_set_events w n q m :
  g_reactors (set_events n q w) !! m =
  if decide (n = m)
  then (λ r, Reactor (lcore r) (active_pollers r) (Some q)) <$> g_reactors w !! n
  else g_reactors w !! m.
Proof. apply list_lookup_alter. Qed.

Lemma lookup_set_active_pollers w n ring m :
  g_reactors (set_active_pollers n ring w) !! m =
  if decide (n = m)
  then (λ r, Reactor (lcore r) (Some ring) (events r)) <$> g_reactors w !! n
  else g_reactors w !! m.
Proof. apply list_lookup_alter. Qed.

(** ** Frames *)

Lemma queue_extends_refl q : queue_extends q q.
Proof. destruct q; simpl; [|done]. split; [done|]. exists []. by rewrite app_nil_r. Qed.

Lemma queue_extends_trans q1 q2 q3 :
  queue_extends q1 q2 → queue_extends q2 q3 → queue_extends q1 q3.
Proof.
  destruct q1, q2, q3; simpl; try done.
  intros [Hc1 [a1 H1]] [Hc2 [a2 H2]]. split; [congruence|].
  exists (a1 ++ a2). by rewrite H2, H1, app_assoc.
Qed.

Lemma slot_rel_refl R a : (∀ r, R r r) → slot_rel R a a.
Proof. destruct a; simpl; auto. Qed.

Lemma slot_rel_trans R a b c :
  (∀ x y z, R x y → R y z → R x z) → slot_rel R a b → slot_rel R b c → slot_rel R a c.
Proof. destruct a, b, c; simpl; try done. eauto. Qed.

Lemma extends_refl w : extends w w.
Proof.
  split; [done|]. split; [by left|]. intros n. apply slot_rel_refl.
  intros r. split; [done|]. apply queue_extends_refl.
Qed.

Lemma extends_trans w1 w2 w3 : extends w1 w2 → extends w2 w3 → extends w1 w3.
Proof.
  intros (Ht1 & Hs1 & Hr1) (Ht2 & Hs2 & Hr2). split; [congruence|]. split.
  - destruct Hs2 as [Hs2|Hs2]; [|by right]. rewrite Hs2. done.
  - intros n. eapply slot_rel_trans; [|apply Hr1|apply Hr2].
    intros x y z [Hl1 Hq1] [Hl2 Hq2]. split; [congruence|].
    by eapply queue_extends_trans.
Qed.

Lemma posts_refl w : posts w w.
Proof.
  split; [apply extends_refl|]. do 2 (split; [done|]).
  intros n. by apply slot_rel_refl.
Qed.

Lemma posts_trans w1 w2 w3 : posts w1 w2 → posts w2 w3 → posts w1 w3.
Proof.
  intros (He1 & Hp1 & Hm1 & Hr1) (He2 & Hp2 & Hm2 & Hr2).
  split; [by eapply extends_trans|]. do 2 (split; [congruence|]).
  intros n. eapply slot_rel_trans; [|apply Hr1|apply Hr2].
  intros x y z. congruence.
Qed.

Lemma posts_extends w w' : posts w w' → extends w w'.
Proof. by intros [? _]. Qed.

(** A world that differs from [w] in the pool only. *)
Ltac same_slots :=
  try intros ?; apply slot_rel_refl;
  first [done | intros ?; split; [done | apply queue_extends_refl]].

Lemma posts_set_mempool p w : posts w (set_mempool p w).
Proof. repeat split; simpl; try done; try (by left); same_slots. Qed.

Lemma posts_set_events w n r q q' :
  g_reactors w !! n = Some r → events r = Some q → queue_extends (Some q) (Some q') →
  posts w (set_events n q' w).
Proof.
  intros Hn Hq Hext.
  split; [split; [done|split; [by left|]] | split; [done|split; [done|]]].
  - intros m. rewrite lookup_set_events.
    destruct (decide (n = m)) as [<-|_].
    + rewrite Hn. simpl. split; [done|]. by rewrite Hq.
    + apply slot_rel_refl. intros r0. split; [done|]. apply queue_extends_refl.
  - intros m. rewrite lookup_set_events.
    destruct (decide (n = m)) as [<-|_].
    + by rewrite Hn.
    + by apply slot_rel_refl.
Qed.

Lemma spdk_event_allocate_posts l fn a1 a2 next w e w' :
  spdk_event_allocate l fn a1 a2 next w = Ok (e, w') →
  e = Event l fn a1 a2 next ∧ posts w w'.
Proof.
  unfold spdk_event_allocate. destruct (g_spdk_event_mempool w) as [free|]; [|done].
  destruct (free =? 0)%N; [done|]. intros ?; simplify_eq. split; [done|]. apply posts_set_mempool.
Qed.

Lemma spdk_event_call_posts e w w' : spdk_event_call e w = Ok w' → posts w w'.
Proof.
  unfold spdk_event_call. destruct (reactor_load (ev_lcore e) w) as [r| | |] eqn:Hr; try done.
  apply reactor_load_Ok in Hr. simpl.
  destruct (events r) as [q|] eqn:Hq; [|done].
  destruct (rte_ring_enqueue q e) as [q'|] eqn:He; [|done]. intros [= <-].
  unfold rte_ring_enqueue in He. case_match; simplify_eq.
  eapply posts_set_events; [done..|]. simpl. split; [done|]. by eexists.
Qed.

Lemma spdk_poller_register_posts p l c w w' :
  spdk_poller_register p l c w = Ok w' → posts w w'.
Proof.
  unfold spdk_poller_register.
  destruct (spdk_event_allocate _ _ _ _ _ w) as [[e w1]| | |] eqn:Ha; try done. simpl.
  apply spdk_event_allocate_posts in Ha as [_ Ha]. intros Hc%spdk_event_call_posts.
  by eapply posts_trans.
Qed.

Lemma spdk_poller_unregister_posts p c w w' :
  spdk_poller_unregister p c w = Ok w' → posts w w'.
Proof.
  unfold spdk_poller_unregister. destruct (poller_lcore w !! p) as [l|]; [|done].
  destruct (spdk_event_allocate _ _ _ _ _ w) as [[e w1]| | |] eqn:Ha; try done. simpl.
  apply spdk_event_allocate_posts in Ha as [_ Ha]. intros Hc%spdk_event_call_posts.
  by eapply posts_trans.
Qed.

Lemma spdk_poller_migrate_posts p l c w w' :
  spdk_poller_migrate p l c w = Ok w' → posts w w'.
Proof.
  unfold spdk_poller_migrate. case_match; [|done].
  destruct (spdk_event_allocate _ _ _ _ _ w) as [[e w1]| | |] eqn:Ha; try done. simpl.
  apply spdk_event_allocate_posts in Ha as [_ Ha]. intros Hc%spdk_poller_unregister_posts.
  by eapply posts_trans.
Qed.

Lemma allocate_chain_posts c w w' : allocate_chain c w = Ok w' → posts w w'.
Proof.
  unfold allocate_chain, allocate_records. destruct c as [e|]; [|intros [= <-]; apply posts_refl].
  destruct (g_spdk_event_mempool w); repeat case_match; try done;
    intros [= <-]; (apply posts_refl || apply posts_set_mempool).
Qed.

Lemma spdk_reactors_stop_posts w : posts w (spdk_reactors_stop w).
Proof.
  repeat split; simpl; try done; try (by right); same_slots.
Qed.

Lemma run_api_posts c w w' : run_api c w = Ok w' → posts w w'.
Proof.
  destruct c; unfold run_api;
    try (destruct (allocate_chain _ w) as [w1| | |] eqn:Ha; try done;
         unfold mbind, result_bind;
         apply allocate_chain_posts in Ha; intros Hc;
         eapply posts_trans; [exact Ha|]).
  - by eapply spdk_event_call_posts.
  - by eapply spdk_poller_register_posts.
  - by eapply spdk_poller_unregister_posts.
  - by eapply spdk_poller_migrate_posts.
  - intros [= <-]. apply spdk_reactors_stop_posts.
Qed.

Lemma run_script_posts s : ∀ w w', run_script s w = Ok w' → posts w w'.
Proof.
  induction s as [|c s IH]; simpl; intros w w'.
  - intros [= <-]. apply posts_refl.
  - destruct (run_api c w) as [w1| | |] eqn:Hc; try done. simpl.
    apply run_api_posts in Hc. intros Hs%IH. by eapply posts_trans.
Qed.

Lemma extends_set_active_pollers n ring w : extends w (set_active_pollers n ring w).
Proof.
  split; [done|]. split; [by left|]. intros m. rewrite lookup_set_active_pollers.
  destruct (decide (n = m)) as [<-|_].
  - destruct (g_reactors w !! n) as [r|]; simpl; [|done]. split; [done|]. apply queue_extends_refl.
  - same_slots.
Qed.

Lemma extends_set_poller_lcore p l w : extends w (set_poller_lcore p l w).
Proof. split; [done|]. split; [by left|]. same_slots. Qed.

Lemma extends_next next w w' :
  match next with Some e => spdk_event_call e w | None => Ok w end = Ok w' → extends w w'.
Proof.
  destruct next as [e|].
  - intros H%spdk_event_call_posts. by apply posts_extends.
  - intros [= <-]. apply extends_refl.
Qed.

Section handlers.

Variable user_fn : nat → spdk_event → world → list api_call.

Lemma _spdk_event_add_poller_extends e w w' :
  _spdk_event_add_poller e w = Ok w' → extends w w'.
Proof.
  unfold _spdk_event_add_poller.
  destruct (ev_arg1 e) as [|r| |]; try done. destruct (ev_arg2 e) as [| |p|]; try done.
  destruct (reactor_load r w) as [reactor| | |]; try done. simpl.
  destruct (active_pollers reactor) as [ring|]; [|done].
  intros H%extends_next. eapply extends_trans; [|exact H].
  destruct (rte_ring_enqueue ring p).
  - eapply extends_trans; [apply extends_set_poller_lcore|apply extends_set_active_pollers].
  - apply extends_set_poller_lcore.
Qed.

Lemma _spdk_event_remove_poller_extends e w w' :
  _spdk_event_remove_poller e w = Ok w' → extends w w'.
Proof.
  unfold _spdk_event_remove_poller.
  destruct (ev_arg1 e) as [|r| |]; try done. destruct (ev_arg2 e) as [| |p|]; try done.
  destruct (reactor_load r w) as [reactor| | |]; try done. simpl.
  destruct (active_pollers reactor) as [ring|]; [|done].
  destruct (remove_poller_walk p 0 ring []) as [[ring' seen]| | |]; try done. simpl.
  intros H%extends_next. eapply extends_trans; [|exact H].
  apply extends_set_active_pollers.
Qed.

Lemma _spdk_poller_migrate_extends cur e w w' :
  _spdk_poller_migrate cur e w = Ok w' → extends w w'.
Proof.
  unfold _spdk_poller_migrate. destruct (ev_arg1 e); try done.
  intros H%spdk_poller_register_posts. by apply posts_extends.
Qed.

Lemma event_fn_call_extends cur e w w' :
  event_fn_call user_fn cur e w = Ok w' → extends w w'.
Proof.
  unfold event_fn_call. destruct (ev_fn e).
  - apply _spdk_event_add_poller_extends.
  - apply _spdk_event_remove_poller_extends.
  - apply _spdk_poller_migrate_extends.
  - intros H%run_script_posts. by apply posts_extends.
Qed.

(** What one turn of the drain loop does to a non-empty queue. *)
Lemma spdk_event_queue_run_single_cons cur n w r cap e l w' :
  g_reactors w !! n = Some r →
  events r = Some (Ring cap (e :: l)) →
  spdk_event_queue_run_single user_fn cur n w = Ok w' →
  trace w' = trace w ++ event_obs e
  ∧ (g_reactor_state w' = g_reactor_state w
     ∨ g_reactor_state w' = SPDK_REACTOR_STATE_EXITING)
  ∧ ∃ r' added, g_reactors w' !! n = Some r'
                ∧ events r' = Some (Ring cap (l ++ added)).
Proof.
  intros Hn Hq. unfold spdk_event_queue_run_single.
  apply reactor_load_Ok in Hn as Hload. rewrite Hload. simpl. rewrite Hq.
  unfold rte_ring_dequeue. simpl.
  destruct (event_fn_call _ _ _ _) as [w2| | |] eqn:Hcall; try done. simpl.
  apply event_fn_call_extends in Hcall as (Ht & Hs & Hr).
  unfold spdk_event_free. destruct (g_spdk_event_mempool w2); [|done].
  intros [= <-]. simpl in Ht, Hs. simpl. split; [|split].
  - rewrite Ht. by rewrite <- app_assoc.
  - done.
  - specialize (Hr n). cbn [g_reactors observe] in Hr.
    rewrite lookup_set_events, decide_True, Hn in Hr by done.
    simpl in Hr. destruct (g_reactors w2 !! n) as [r2|] eqn:Hn2; [|done].
    destruct Hr as [_ Hr]. simpl in Hr.
    destruct (events r2) as [[cap2 l2]|] eqn:Hq2; [|done]. simpl in Hr.
    destruct Hr as [-> [added ->]]. by exists r2, added.
Qed.

(** The drain loop run for [length l1] turns on a queue that starts
    with [l1]: exactly the events of [l1] are run, in order; what was
    behind them, and what arrived in between, is still queued. *)
Lemma spdk_event_queue_run_prefix cur n l1 : ∀ w r cap l2 w',
  g_reactors w !! n = Some r →
  events r = Some (Ring cap (l1 ++ l2)) →
  spdk_event_queue_run user_fn cur n (length l1) w = Ok w' →
  trace w' = trace w ++ flat_map event_obs l1
  ∧ (g_reactor_state w' = g_reactor_state w
     ∨ g_reactor_state w' = SPDK_REACTOR_STATE_EXITING)
  ∧ ∃ r' added, g_reactors w' !! n = Some r'
                ∧ events r' = Some (Ring cap (l2 ++ added)).
Proof.
  induction l1 as [|e l1 IH]; intros w r cap l2 w' Hn Hq; simpl.
  - intros [= <-]. rewrite app_nil_r. split; [done|]. split; [by left|].
    exists r, []. by rewrite app_nil_r.
  - destruct (spdk_event_queue_run_single _ _ _ _) as [w1| | |] eqn:H1; try done. simpl.
    eapply spdk_event_queue_run_single_cons in H1 as (Ht1 & Hs1 & r1 & added1 & Hn1 & Hq1);
      [|done..].
    intros Hrun. rewrite <- app_assoc in Hq1.
    eapply IH in Hrun as (Ht & Hs & r' & added & Hn' & Hq'); [|done..].
    split; [|split].
    + rewrite Ht, Ht1. by rewrite <- app_assoc.
    + destruct Hs as [-> | ->]; [done|by right].
    + exists r', (added1 ++ added). split; [done|]. by rewrite Hq', <- app_assoc.
Qed.

End handlers.

Lemma events_of_lookup n w r cap l :
  g_reactors w !! n = Some r → events r = Some (Ring cap l) → events_of n w = l.
Proof. intros Hn Hq. unfold events_of. rewrite Hn. destruct r; simpl in *. by rewrite Hq. Qed.

Lemma pollers_of_lookup n w r cap l :
  g_reactors w !! n = Some r → active_pollers r = Some (Ring cap l) → pollers_of n w = l.
Proof. intros Hn Hq. unfold pollers_of. rewrite Hn. destruct r; simpl in *. by rewrite Hq. Qed.

(** ** The drain *)

Section drain.

Variable user_fn : nat → spdk_event → world → list api_call.

Lemma spdk_event_queue_run_all_count cur n w :
  spdk_event_queue_run_all user_fn cur n w
  = match g_reactors w !! n with
    | Some _ => spdk_event_queue_run user_fn cur n (length (events_of n w)) w
    | None => Fault
    end.
Proof.
  unfold spdk_event_queue_run_all, spdk_event_queue_count, reactor_load, events_of.
  destruct (g_reactors w !! n) as [[l a [q|]]|]; done.
Qed.

Lemma spdk_event_queue_run_all_trace cur n w w' :
  spdk_event_queue_run_all user_fn cur n w = Ok w' →
  trace w' = trace w ++ flat_map event_obs (events_of n w)
  ∧ (g_reactor_state w' = g_reactor_state w
     ∨ g_reactor_state w' = SPDK_REACTOR_STATE_EXITING).
Proof.
  rewrite spdk_event_queue_run_all_count.
  destruct (g_reactors w !! n) as [r|] eqn:Hn; [|done].
  destruct (events r) as [[cap l]|] eqn:Hq.
  - rewrite (events_of_lookup _ _ _ _ _ Hn Hq). intros Hrun.
    eapply (spdk_event_queue_run_prefix user_fn cur n l w r cap []) in Hrun
      as (Ht & Hs & _); [done|done|]. by rewrite app_nil_r.
  - unfold events_of. rewrite Hn. destruct r; simpl in *. rewrite Hq. simpl.
    intros [= <-]. rewrite app_nil_r. split; [done|by left].
Qed.

End drain.

(** ** The reactor loop *)

Lemma concat_replicate_cons {A} (x : A) rest k :
  concat (replicate (S k) (x :: rest))
  = x :: concat (replicate k (rest ++ [x])) ++ rest.
Proof.
  induction k as [|k IH].
  - simpl. by rewrite app_nil_r.
  - change (replicate (S (S k)) (x :: rest))
      with ((x :: rest) :: replicate (S k) (x :: rest)).
    rewrite concat_cons, IH. simpl. by rewrite <- !app_assoc.
Qed.

(** The first [n] entries of [l] repeated are the head of [l], then the
    first [n - 1] entries of [l] turned once, repeated. *)
Lemma take_concat_replicate_turn {A} (l : list A) n :
  take (S n) (concat (replicate (S n) l))
  = take 1 l ++ take n (concat (replicate n (head_to_tail l))).
Proof.
  destruct l as [|x rest].
  - simpl. replace (concat (replicate n [])) with (@nil A); [by rewrite !take_nil|].
    induction n; simpl; auto.
  - rewrite concat_replicate_cons. simpl. f_equal.
    rewrite take_app_le; [done|].
    clear. induction n as [|n IH]; simpl; [lia|]. rewrite !length_app in *. simpl. lia.
Qed.

Lemma poller_log_app t1 t2 : poller_log (t1 ++ t2) = poller_log t1 ++ poller_log t2.
Proof. unfold poller_log. by rewrite flat_map_app. Qed.

Section loop.

Variable user_fn : nat → spdk_event → world → list api_call.
Variable poller_fn : nat → world → list api_call.

Lemma reactor_poll_nil reactor w r cap :
  g_reactors w !! reactor = Some r →
  active_pollers r = Some (Ring cap []) →
  reactor_poll poller_fn reactor w = Ok w.
Proof.
  intros Hn Hr. unfold reactor_poll.
  apply reactor_load_Ok in Hn. rewrite Hn. simpl. by rewrite Hr.
Qed.

(** The poll of a non-empty ring: the head is taken out, its callback
    is run, and it is put back at the tail, which the process does not
    survive when the ring refuses it. *)
Lemma reactor_poll_cons reactor w r cap p rest :
  g_reactors w !! reactor = Some r →
  active_pollers r = Some (Ring cap (p :: rest)) →
  reactor_poll poller_fn reactor w
  = (let w1 := observe (Obs_poller_fn p)
                 (set_active_pollers reactor (Ring cap rest) w) in
     w2 ← run_script (poller_fn p w1) w1;
     if (N.of_nat (length rest) <? cap)%N
     then Ok (set_active_pollers reactor (Ring cap (rest ++ [p])) w2)
     else Exit_failure).
Proof.
  intros Hn Hr. unfold reactor_poll.
  apply reactor_load_Ok in Hn as Hload. rewrite Hload. simpl. rewrite Hr.
  unfold rte_ring_dequeue. simpl.
  destruct (run_script _ _) as [w2| | |] eqn:Hs; try done. simpl.
  apply run_script_posts in Hs as (_ & _ & _ & Hslots).
  specialize (Hslots reactor). cbn [g_reactors observe] in Hslots.
  rewrite lookup_set_active_pollers, decide_True, Hn in Hslots by done. simpl in Hslots.
  destruct (g_reactors w2 !! reactor) as [r2|] eqn:Hn2; [|done]. simpl in Hslots.
  apply reactor_load_Ok in Hn2. rewrite Hn2. simpl. rewrite Hslots.
  unfold rte_ring_enqueue, rte_ring_count. simpl. by destruct (_ <? _)%N.
Qed.

Lemma reactor_poll_trace reactor w w' :
  reactor_poll poller_fn reactor w = Ok w' →
  trace w' = trace w ++ poll_obs (pollers_of reactor w)
  ∧ (g_reactor_state w' = g_reactor_state w
     ∨ g_reactor_state w' = SPDK_REACTOR_STATE_EXITING).
Proof.
  destruct (g_reactors w !! reactor) as [r|] eqn:Hn.
  2: { unfold reactor_poll, reactor_load. by rewrite Hn. }
  destruct (active_pollers r) as [[cap [|p rest]]|] eqn:Hr.
  - rewrite (reactor_poll_nil _ _ _ _ Hn Hr). intros [= <-].
    rewrite (pollers_of_lookup _ _ _ _ _ Hn Hr). simpl. rewrite app_nil_r. split; [done|by left].
  - rewrite (reactor_poll_cons _ _ _ _ _ _ Hn Hr).
    rewrite (pollers_of_lookup _ _ _ _ _ Hn Hr). simpl.
    destruct (run_script _ _) as [w2| | |] eqn:Hs; try done. simpl.
    apply run_script_posts in Hs as ((Ht & Hst & _) & _).
    destruct (_ <? _)%N; [|done]. intros [= <-]. simpl in *. by rewrite Ht.
  - unfold reactor_poll, reactor_load. rewrite Hn. simpl. by rewrite Hr.
Qed.

Lemma _spdk_reactor_run_step fuel cur reactor w :
  _spdk_reactor_run user_fn poller_fn (S fuel) cur reactor w
  = match reactor_iteration user_fn poller_fn cur reactor w with
    | Ok w1 =>
        if decide (g_reactor_state w1 = SPDK_REACTOR_STATE_RUNNING)
        then _spdk_reactor_run user_fn poller_fn fuel cur reactor w1
        else Returned (Ok w1)
    | r => Returned r
    end.
Proof.
  simpl. destruct (reactor_iteration _ _ _ _ _) as [w1| | |]; try done.
  by repeat case_decide.
Qed.

(** An iteration on a core with no event pending and a poller whose
    callback makes no call. *)
Lemma reactor_iteration_idle cur w r ecap cap l :
  g_reactors w !! cur = Some r →
  events r = Some (Ring ecap []) →
  active_pollers r = Some (Ring cap l) →
  (N.of_nat (length l) ≤ cap)%N →
  (∀ p w, p ∈ l → poller_fn p w = []) →
  ∃ w1, reactor_iteration user_fn poller_fn cur cur w = Ok w1
        ∧ trace w1 = trace w ++ [Obs_timer cur] ++ poll_obs l
        ∧ g_reactor_state w1 = g_reactor_state w
        ∧ g_reactors w1 !! cur = Some (Reactor (lcore r) (Some (Ring cap (head_to_tail l))) (events r)).
Proof.
  intros Hn Hq Hr Hcap Hfn. unfold reactor_iteration.
  rewrite spdk_event_queue_run_all_count, Hn, (events_of_lookup _ _ _ _ _ Hn Hq). simpl.
  destruct l as [|p rest].
  - erewrite reactor_poll_nil; [|exact Hn|exact Hr]. eexists. split; [done|]. simpl.
    split; [done|]. split; [done|]. rewrite Hn. f_equal. destruct r; simpl in *. by rewrite Hr.
  - erewrite reactor_poll_cons; [|exact Hn|exact Hr]. simpl.
    rewrite Hfn by apply list_elem_of_here. simpl.
    destruct (N.ltb_spec (N.of_nat (length rest)) cap); [|simpl in *; lia].
    eexists. split; [done|]. simpl. split; [by rewrite <- app_assoc|]. split; [done|].
    rewrite list_alter_alter_eq, list_lookup_alter_eq, Hn. done.
Qed.


End loop.

Lemma pollers_of_set_events n q w m : pollers_of m (set_events n q w) = pollers_of m w.
Proof.
  unfold pollers_of. rewrite lookup_set_events.
  destruct (decide (n = m)) as [<-|_]; [|done]. by destruct (g_reactors w !! n) as [[]|].
Qed.

Lemma events_of_set_events n q w m r :
  g_reactors w !! n = Some r →
  events_of m (set_events n q w) = if decide (n = m) then ring_entries q else events_of m w.
Proof.
  intros Hn. unfold events_of. rewrite lookup_set_events.
  destruct (decide (n = m)) as [<-|_]; [|done]. by rewrite Hn.
Qed.

Lemma spdk_event_call_Ok e w w' :
  spdk_event_call e w = Ok w' →
  ∃ r q, g_reactors w !! ev_lcore e = Some r ∧ events r = Some q
         ∧ (N.of_nat (rte_ring_count q) < ring_capacity q)%N
         ∧ w' = set_events (ev_lcore e) (Ring (ring_capacity q) (ring_entries q ++ [e])) w.
Proof.
  unfold spdk_event_call. destruct (reactor_load (ev_lcore e) w) as [r| | |] eqn:Hr; try done.
  apply reactor_load_Ok in Hr. simpl. destruct (events r) as [q|] eqn:Hq; [|done].
  unfold rte_ring_enqueue. destruct (N.ltb_spec (N.of_nat (rte_ring_count q)) (ring_capacity q)); [|done].
  intros [= <-]. by exists r, q.
Qed.

Lemma spdk_event_call_not_exit e w : spdk_event_call e w ≠ Exit_failure.
Proof.
  unfold spdk_event_call, reactor_load. destruct (g_reactors w !! ev_lcore e) as [r|]; [|done].
  simpl. destruct (events r); [|done]. by destruct (rte_ring_enqueue _ _).
Qed.

Section loop_exit.

Variable user_fn : nat → spdk_event → world → list api_call.
Variable poller_fn : nat → world → list api_call.

Lemma reactor_iteration_trace cur reactor w w1 :
  reactor_iteration user_fn poller_fn cur reactor w = Ok w1 →
  (∃ wd, spdk_event_queue_run_all user_fn cur cur w = Ok wd
         ∧ trace wd = trace w ++ flat_map event_obs (events_of cur w)
         ∧ trace w1 = trace wd ++ [Obs_timer cur] ++ poll_obs (pollers_of reactor wd))
  ∧ (g_reactor_state w1 = g_reactor_state w
     ∨ g_reactor_state w1 = SPDK_REACTOR_STATE_EXITING).
Proof.
  unfold reactor_iteration.
  destruct (spdk_event_queue_run_all _ _ _ _) as [wd| | |] eqn:Hd; try done. simpl.
  apply spdk_event_queue_run_all_trace in Hd as [Htd Hsd].
  intros [Ht Hs]%reactor_poll_trace. simpl in Ht, Hs. split.
  - exists wd. split; [done|]. split; [done|]. by rewrite Ht, <- app_assoc.
  - destruct Hs as [-> | ->]; [done|by right].
Qed.

Lemma spdk_event_queue_run_single_state cur n w w' :
  spdk_event_queue_run_single user_fn cur n w = Ok w' →
  g_reactor_state w' = g_reactor_state w
  ∨ g_reactor_state w' = SPDK_REACTOR_STATE_EXITING.
Proof.
  unfold spdk_event_queue_run_single.
  destruct (reactor_load n w) as [r| | |]; try done. simpl.
  destruct (events r) as [q|]; [|done].
  destruct (rte_ring_dequeue q) as [[e q']|]; [|intros [= <-]; by left].
  destruct (event_fn_call _ _ _ _) as [w2| | |] eqn:Hcall; try done. simpl.
  apply event_fn_call_extends in Hcall as (_ & Hs & _).
  unfold spdk_event_free. destruct (g_spdk_event_mempool w2); [|done].
  by intros [= <-].
Qed.

(** No step of a reactor takes the state away from EXITING. *)
Lemma run_steps_exiting steps : ∀ w w',
  g_reactor_state w = SPDK_REACTOR_STATE_EXITING →
  run_steps user_fn poller_fn steps w = Ok w' →
  g_reactor_state w' = SPDK_REACTOR_STATE_EXITING.
Proof.
  induction steps as [|s steps IH]; simpl; intros w w' Hst.
  - by intros [= <-].
  - destruct (run_step _ _ s w) as [w1| | |] eqn:Hstep; try done. simpl.
    apply IH. destruct s as [n|n|n]; simpl in Hstep.
    + apply spdk_event_queue_run_single_state in Hstep as [-> | ->]; done.
    + by injection Hstep as <-.
    + apply reactor_poll_trace in Hstep as [_ [-> | ->]]; done.
Qed.

Lemma run_steps_app l1 : ∀ l2 w,
  run_steps user_fn poller_fn (l1 ++ l2) w
  = w1 ← run_steps user_fn poller_fn l1 w; run_steps user_fn poller_fn l2 w1.
Proof.
  induction l1 as [|s l1 IH]; intros l2 w; simpl; [done|].
  destruct (run_step _ _ s w); simpl; [apply IH|done..].
Qed.

(** An iteration of the loop of a reactor on its own core is a run of
    steps: one turn of the drain loop for every event the queue holds
    at the start, the timer tick, the poll. *)
Lemma reactor_iteration_steps cur w :
  reactor_iteration user_fn poller_fn cur cur w
  = run_steps user_fn poller_fn
      (replicate (length (events_of cur w)) (Step_event cur)
       ++ [Step_timer cur; Step_poll cur]) w.
Proof.
  unfold reactor_iteration. rewrite run_steps_app, spdk_event_queue_run_all_count.
  assert (Hrun : ∀ count v,
    spdk_event_queue_run user_fn cur cur count v
    = run_steps user_fn poller_fn (replicate count (Step_event cur)) v).
  { induction count as [|count IH]; intros v; simpl; [done|].
    destruct (spdk_event_queue_run_single _ _ _ v); simpl; [apply IH|done..]. }
  destruct (g_reactors w !! cur) as [r|] eqn:Hn.
  - rewrite Hrun. destruct (run_steps _ _ _ w) as [w1| | |]; simpl; [|done..].
    by destruct (reactor_poll _ _ _).
  - unfold events_of. rewrite Hn. simpl. unfold reactor_poll, reactor_load. simpl.
    by rewrite Hn.
Qed.

Lemma spdk_event_queue_run_steps cur count : ∀ w,
  spdk_event_queue_run user_fn cur cur count w
  = run_steps user_fn poller_fn (replicate count (Step_event cur)) w.
Proof.
  induction count as [|count IH]; intros w; simpl; [done|].
  destruct (spdk_event_queue_run_single _ _ _ w); simpl; [apply IH|done..].
Qed.

(** The loop returns 0 after the first iteration that ends in a state
    other than RUNNING. *)
Lemma _spdk_reactor_run_returns fuel : ∀ cur reactor w w',
  _spdk_reactor_run user_fn poller_fn fuel cur reactor w = Returned (Ok w')
  ↔ ∃ ws, length ws < fuel
          ∧ iterations user_fn poller_fn cur reactor w (ws ++ [w'])
          ∧ Forall (λ v, g_reactor_state v = SPDK_REACTOR_STATE_RUNNING) ws
          ∧ g_reactor_state w' ≠ SPDK_REACTOR_STATE_RUNNING.
Proof.
  induction fuel as [|fuel IH]; intros cur reactor w w'.
  - simpl. split; [done|]. intros (ws & Hlen & _). lia.
  - rewrite _spdk_reactor_run_step. split.
    + destruct (reactor_iteration _ _ _ _ w) as [w1| | |] eqn:Hit; try done.
      case_decide as Hst.
      * intros (ws & Hlen & Hits & Hrun & Hw')%IH.
        exists (w1 :: ws). simpl. split; [lia|]. split; [done|]. split; [|done].
        by constructor.
      * intros [= <-]. exists []. simpl. split; [lia|]. done.
    + intros ([|w1 ws] & Hlen & Hits & Hrun & Hw'); simpl in Hits.
      * destruct Hits as [-> _]. by rewrite decide_False.
      * destruct Hits as [-> Hits]. apply Forall_cons in Hrun as [Hst Hrun].
        rewrite decide_True by done. apply IH. exists ws. simpl in Hlen.
        split; [lia|]. done.
Qed.

(** C6: an iteration of the reactor loop is this run of steps, in this
    order: one turn of the drain loop for every event that is queued
    when the iteration starts, the timer tick, the poll of at most one
    poller; the test of the reactor state comes after them.  So the
    trace of an iteration that returns shows the events of the queue,
    then the tick, then the poller at the head of the ring.  The loop
    returns after an iteration exactly when the state is not RUNNING at
    the test: it returns [w'] when [w'] is the end of the first
    iteration that ends in another state than RUNNING.
    Once [spdk_reactors_stop] has been called, whatever steps the
    reactors have taken since, the state is EXITING and the loop of any
    reactor returns at the end of the iteration it makes then, with what
    that iteration returns: no step of any reactor takes the state away
    from EXITING, and a loop that starts an iteration in EXITING makes
    no other. *)
Theorem reactor_loop_order_and_exit fuel cur reactor w r :
  g_reactors w !! cur = Some r →
  reactor_iteration user_fn poller_fn cur reactor w
  = run_steps user_fn poller_fn
      (replicate (length (events_of cur w)) (Step_event cur)
       ++ [Step_timer cur; Step_poll reactor]) w
  ∧ (∀ w1, reactor_iteration user_fn poller_fn cur reactor w = Ok w1 →
       ∃ wd, spdk_event_queue_run_all user_fn cur cur w = Ok wd
             ∧ trace wd = trace w ++ flat_map event_obs (events_of cur w)
             ∧ trace w1 = trace wd ++ [Obs_timer cur] ++ poll_obs (pollers_of reactor wd))
  ∧ (∀ w', _spdk_reactor_run user_fn poller_fn fuel cur reactor w = Returned (Ok w')
           ↔ ∃ ws, length ws < fuel
                   ∧ iterations user_fn poller_fn cur reactor w (ws ++ [w'])
                   ∧ Forall (λ v, g_reactor_state v = SPDK_REACTOR_STATE_RUNNING) ws
                   ∧ g_reactor_state w' ≠ SPDK_REACTOR_STATE_RUNNING)
  ∧ (∀ steps w1,
       run_steps user_fn poller_fn steps (spdk_reactors_stop w) = Ok w1 →
       g_reactor_state w1 = SPDK_REACTOR_STATE_EXITING
       ∧ ∀ cur' reactor',
           _spdk_reactor_run user_fn poller_fn (S fuel) cur' reactor' w1
           = Returned (reactor_iteration user_fn poller_fn cur' reactor' w1))
  ∧ (∀ steps w',
       g_reactor_state w = SPDK_REACTOR_STATE_EXITING →
       run_steps user_fn poller_fn steps w = Ok w' →
       g_reactor_state w' = SPDK_REACTOR_STATE_EXITING)
  ∧ (g_reactor_state w = SPDK_REACTOR_STATE_EXITING →
     _spdk_reactor_run user_fn poller_fn (S fuel) cur reactor w
     = Returned (reactor_iteration user_fn poller_fn cur reactor w)).
Proof.
  assert (Hexit : ∀ c n v, g_reactor_state v = SPDK_REACTOR_STATE_EXITING →
            _spdk_reactor_run user_fn poller_fn (S fuel) c n v
            = Returned (reactor_iteration user_fn poller_fn c n v)).
  { intros c n v Hst. rewrite _spdk_reactor_run_step.
    destruct (reactor_iteration _ _ _ _ _) as [w1| | |] eqn:Hit; try done.
    apply reactor_iteration_trace in Hit as [_ Hs].
    rewrite decide_False; [done|]. destruct Hs as [Hs|Hs]; rewrite Hs; [rewrite Hst|]; done. }
  intros Hn. split; [|split; [|split; [|split; [|split]]]].
  - unfold reactor_iteration.
    rewrite run_steps_app, spdk_event_queue_run_all_count, Hn, spdk_event_queue_run_steps.
    destruct (run_steps _ _ _ w) as [w1| | |]; simpl; [|done..].
    by destruct (reactor_poll _ _ _).
  - intros w1 H. by apply reactor_iteration_trace in H as [? _].
  - intros w'. apply _spdk_reactor_run_returns.
  - intros steps w1 Hrun.
    assert (Hst : g_reactor_state w1 = SPDK_REACTOR_STATE_EXITING)
      by (by eapply run_steps_exiting; [|exact Hrun]).
    split; [done|]. intros c n. by apply Hexit.
  - intros steps w'. apply run_steps_exiting.
  - apply Hexit.
Qed.

(** C9: when the ring of the target core is full, the handler of a
    register event does not notice that the enqueue has failed: the
    poller's [lcore] is written (with the [lcore] of the target
    reactor), no ring changes, the completion event is posted, and the
    handler returns whenever that posting does; it never ends in
    [exit].  The poll of the reactor loop and the removal walk leave the
    process with [exit] when the ring refuses the poller they put
    back. *)
Theorem add_poller_ignores_full_ring w n r ring p l next :
  g_reactors w !! n = Some r →
  active_pollers r = Some ring →
  N.of_nat (rte_ring_count ring) = ring_capacity ring →
  let event := Event l Fn_add_poller (Arg_reactor n) (Arg_poller p) next in
  let w1 := set_poller_lcore p (lcore r) w in
  _spdk_event_add_poller event w
  = match next with Some e => spdk_event_call e w1 | None => Ok w1 end
  ∧ _spdk_event_add_poller event w ≠ Exit_failure
  ∧ is_Ok (_spdk_event_add_poller event w)
    = match next with Some e => is_Ok (spdk_event_call e w1) | None => true end
  ∧ (∀ w', _spdk_event_add_poller event w = Ok w' →
       poller_lcore w' !! p = Some (lcore r)
       ∧ (∀ m, pollers_of m w' = pollers_of m w)
       ∧ (∀ e, next = Some e → events_of (ev_lcore e) w' = events_of (ev_lcore e) w ++ [e]))
  ∧ (∀ v m rv cap q rest w2,
       g_reactors v !! m = Some rv →
       active_pollers rv = Some (Ring cap (q :: rest)) →
       (cap ≤ N.of_nat (length rest))%N →
       let v1 := observe (Obs_poller_fn q) (set_active_pollers m (Ring cap rest) v) in
       run_script (poller_fn q v1) v1 = Ok w2 →
       reactor_poll poller_fn m v = Exit_failure)
  ∧ (∀ target cap q rest,
       q ≠ target → (cap ≤ N.of_nat (length rest))%N →
       remove_poller_walk target 0 (Ring cap (q :: rest)) [] = Exit_failure).
Proof.
  intros Hn Hr Hfull event w1.
  assert (Heq : _spdk_event_add_poller event w
                = match next with Some e => spdk_event_call e w1 | None => Ok w1 end).
  { unfold _spdk_event_add_poller, event. simpl.
    apply reactor_load_Ok in Hn. rewrite Hn. simpl. rewrite Hr.
    unfold rte_ring_enqueue. destruct (N.ltb_spec (N.of_nat (rte_ring_count ring)) (ring_capacity ring)); [lia|done]. }
  split; [done|]. rewrite Heq. split; [|split; [|split; [|split]]].
  - destruct next; [apply spdk_event_call_not_exit|done].
  - by destruct next.
  - intros w' Hw'. destruct next as [e|].
    + apply spdk_event_call_Ok in Hw' as (re & q & Hre & Hq & Hlt & ->).
      subst w1. simpl in *.
      split; [apply lookup_insert_eq|]. split.
      * intros m. by rewrite pollers_of_set_events.
      * intros e' [= <-]. erewrite events_of_set_events by exact Hre.
        rewrite decide_True by done. simpl. f_equal.
        symmetry. destruct q as [c lq]. eapply events_of_lookup; [exact Hre|exact Hq].
    + injection Hw' as <-. subst w1. simpl.
      split; [apply lookup_insert_eq|]. split; [done|]. by intros e [=].
  - intros v m rv cap q rest w2 Hm Hrv Hcap v1 Hs.
    erewrite reactor_poll_cons; [|exact Hm|exact Hrv]. simpl. fold v1. rewrite Hs. simpl.
    by destruct (N.ltb_spec (N.of_nat (length rest)) cap); [lia|].
  - intros target cap q rest Hne Hcap.
    rewrite remove_poller_walk_step. unfold rte_ring_count, rte_ring_dequeue. simpl.
    rewrite decide_False by done. by rewrite rte_ring_enqueue_None.
Qed.

End loop_exit.

(** ** The drain, event by event *)

Lemma sum_list_append (l1 l2 : list nat) :
  sum_list (l1 ++ l2) = sum_list l1 + sum_list l2.
Proof. induction l1 as [|x l1 IH]; simpl; [done|]. rewrite IH. lia. Qed.

Lemma sum_list_alter {A} (f : A → nat) (g : A → A) (l : list A) n x :
  l !! n = Some x →
  sum_list (map f (alter g n l)) + f x = sum_list (map f l) + f (g x).
Proof.
  revert n. induction l as [|y l IH]; intros [|n] Hn; simplify_eq/=; [lia|].
  specialize (IH n Hn). lia.
Qed.

Lemma sum_list_alter_same {A} (f : A → nat) (g : A → A) (l : list A) n :
  (∀ x, f (g x) = f x) →
  sum_list (map f (alter g n l)) = sum_list (map f l).
Proof.
  intros Hg. revert n. induction l as [|y l IH]; intros [|n]; simpl; try done.
  - by rewrite Hg.
  - f_equal. apply IH.
Qed.

Lemma records_queued_set_active_pollers n ring w :
  records_queued (set_active_pollers n ring w) = records_queued w.
Proof. unfold records_queued. simpl. by apply sum_list_alter_same. Qed.

Lemma records_queued_set_events n q w r :
  g_reactors w !! n = Some r →
  records_queued (set_events n q w) + records_of_reactor r
  = records_queued w + sum_list (map chain_length (ring_entries q)).
Proof.
  intros Hn. unfold records_queued. simpl.
  by rewrite (sum_list_alter _ _ _ _ _ Hn).
Qed.

Lemma spdk_event_call_records e w w' :
  spdk_event_call e w = Ok w' →
  records_free w' = records_free w
  ∧ records_queued w' = records_queued w + chain_length e.
Proof.
  intros (r & q & Hr & Hq & _ & ->)%spdk_event_call_Ok. split; [done|].
  pose proof (records_queued_set_events (ev_lcore e)
                (Ring (ring_capacity q) (ring_entries q ++ [e])) w r Hr) as H.
  unfold records_of_reactor in H. rewrite Hq in H. simpl in H.
  rewrite map_app, sum_list_append in H. simpl in H. lia.
Qed.

Lemma spdk_event_allocate_records l fn a1 a2 next w e w' :
  spdk_event_allocate l fn a1 a2 next w = Ok (e, w') →
  records_free w' + 1 = records_free w
  ∧ records_queued w' = records_queued w.
Proof.
  unfold spdk_event_allocate, records_free.
  destruct (g_spdk_event_mempool w) as [free|]; [|done].
  destruct (N.eqb_spec free 0); [done|]. intros [= <- <-]. simpl. split; [lia|done].
Qed.

Lemma chain_length_pos e : 0 < chain_length e.
Proof. destruct e as [? ? ? ? [n|]]; simpl; lia. Qed.

Lemma allocate_chain_records c w w' :
  allocate_chain c w = Ok w' →
  records_free w' + chain_of c = records_free w
  ∧ records_queued w' = records_queued w.
Proof.
  unfold allocate_chain, allocate_records, records_free. destruct c as [e|]; simpl.
  - pose proof (chain_length_pos e).
    destruct (g_spdk_event_mempool w) as [free|].
    + destruct (N.ltb_spec free (N.of_nat (chain_length e))); [done|].
      intros [= <-]. simpl. split; [lia|done].
    + destruct (chain_length e); [lia|done].
  - intros [= <-]. split; [lia|done].
Qed.

Lemma chain_length_next l fn a1 a2 c :
  chain_length (Event l fn a1 a2 c) = 1 + chain_of c.
Proof. by destruct c. Qed.

Lemma spdk_poller_register_records p l c w w' :
  spdk_poller_register p l c w = Ok w' →
  records_free w' + records_queued w' = records_free w + records_queued w + chain_of c.
Proof.
  unfold spdk_poller_register.
  destruct (spdk_event_allocate _ _ _ _ _ w) as [[e w1]| | |] eqn:Ha; try done. simpl.
  pose proof (spdk_event_allocate_posts _ _ _ _ _ _ _ _ Ha) as [-> _].
  apply spdk_event_allocate_records in Ha as [Hf Hq].
  intros [Hf2 Hq2]%spdk_event_call_records. rewrite chain_length_next in Hq2. lia.
Qed.

Lemma spdk_poller_unregister_records p c w w' :
  spdk_poller_unregister p c w = Ok w' →
  records_free w' + records_queued w' = records_free w + records_queued w + chain_of c.
Proof.
  unfold spdk_poller_unregister. destruct (poller_lcore w !! p) as [l|]; [|done].
  destruct (spdk_event_allocate _ _ _ _ _ w) as [[e w1]| | |] eqn:Ha; try done. simpl.
  pose proof (spdk_event_allocate_posts _ _ _ _ _ _ _ _ Ha) as [-> _].
  apply spdk_event_allocate_records in Ha as [Hf Hq].
  intros [Hf2 Hq2]%spdk_event_call_records. rewrite chain_length_next in Hq2. lia.
Qed.

Lemma spdk_poller_migrate_records p l c w w' :
  spdk_poller_migrate p l c w = Ok w' →
  records_free w' + records_queued w' = records_free w + records_queued w + chain_of c.
Proof.
  unfold spdk_poller_migrate. destruct (mask_has _ _); [|done].
  destruct (spdk_event_allocate _ _ _ _ _ w) as [[e w1]| | |] eqn:Ha; try done. simpl.
  pose proof (spdk_event_allocate_posts _ _ _ _ _ _ _ _ Ha) as [-> _].
  apply spdk_event_allocate_records in Ha as [Hf Hq].
  intros H%spdk_poller_unregister_records. simpl in H.
  change (S (chain_of c)) with (1 + chain_of c) in H.
  destruct c; simpl in *; lia.
Qed.

Lemma run_api_records c w w' :
  run_api c w = Ok w' →
  records_free w' + records_queued w' = records_free w + records_queued w.
Proof.
  destruct c as [e|p l c|p c|p l c|]; unfold run_api;
    try (destruct (allocate_chain _ w) as [w1| | |] eqn:Ha; try done;
         apply allocate_chain_records in Ha as [Hf Hq]; simpl in Hf;
         unfold mbind, result_bind).
  - intros [Hf2 Hq2]%spdk_event_call_records. lia.
  - intros H%spdk_poller_register_records. lia.
  - intros H%spdk_poller_unregister_records. lia.
  - intros H%spdk_poller_migrate_records. lia.
  - by intros [= <-].
Qed.

Lemma run_script_records s : ∀ w w',
  run_script s w = Ok w' →
  records_free w' + records_queued w' = records_free w + records_queued w.
Proof.
  induction s as [|c s IH]; simpl; intros w w'; [by intros [= <-]|].
  destruct (run_api c w) as [w1| | |] eqn:Hc; try done. simpl.
  apply run_api_records in Hc. intros H%IH. lia.
Qed.

Lemma next_records next w w' :
  match next with Some e => spdk_event_call e w | None => Ok w end = Ok w' →
  records_free w' = records_free w
  ∧ records_queued w' = records_queued w + chain_of next.
Proof.
  destruct next as [e|]; [apply spdk_event_call_records|].
  intros [= <-]. simpl. split; [done|lia].
Qed.

Section drain_props.

Variable user_fn : nat → spdk_event → world → list api_call.

(** The callback of an event takes the event with what is chained
    behind it: the handlers of the reactor queue the next event, the
    callbacks of the application keep it. *)
Lemma event_fn_call_records cur e w w' :
  event_fn_call user_fn cur e w = Ok w' →
  records_free w' + records_queued w' + 1 + records_handed_over e
  = records_free w + records_queued w + chain_length e.
Proof.
  unfold event_fn_call, records_handed_over.
  destruct e as [l fn a1 a2 next]. rewrite chain_length_next. cbn [ev_fn].
  destruct fn as [| | |id].
  - unfold _spdk_event_add_poller. cbn [ev_arg1 ev_arg2 ev_next].
    destruct a1 as [|r| |]; try done. destruct a2 as [| |p|]; try done.
    destruct (reactor_load r w) as [reactor| | |]; try done. simpl.
    destruct (active_pollers reactor) as [ring|]; [|done].
    intros [Hf Hq]%next_records. rewrite Hf, Hq.
    destruct (rte_ring_enqueue ring p); [rewrite records_queued_set_active_pollers|];
      unfold records_free, records_queued; simpl; lia.
  - unfold _spdk_event_remove_poller. cbn [ev_arg1 ev_arg2 ev_next].
    destruct a1 as [|r| |]; try done. destruct a2 as [| |p|]; try done.
    destruct (reactor_load r w) as [reactor| | |]; try done. simpl.
    destruct (active_pollers reactor) as [ring|]; [|done].
    destruct (remove_poller_walk p 0 ring []) as [[ring' seen]| | |]; try done. simpl.
    intros [Hf Hq]%next_records. rewrite Hf, Hq, records_queued_set_active_pollers.
    unfold records_free. simpl. lia.
  - unfold _spdk_poller_migrate. cbn [ev_arg1 ev_next].
    destruct a1; try done. intros H%spdk_poller_register_records. lia.
  - intros H%run_script_records. simpl. lia.
Qed.

Lemma run_and_release_head cur n w r cap e l :
  g_reactors w !! n = Some r →
  events r = Some (Ring cap (e :: l)) →
  spdk_event_queue_run_single user_fn cur n w = run_and_release user_fn cur n e w.
Proof.
  intros Hn Hq. unfold spdk_event_queue_run_single, run_and_release, spdk_event_free.
  apply reactor_load_Ok in Hn as Hl. rewrite Hl, Hn. simpl. rewrite Hq. done.
Qed.

Lemma run_and_release_records cur n w r cap e l w' :
  g_reactors w !! n = Some r →
  events r = Some (Ring cap (e :: l)) →
  run_and_release user_fn cur n e w = Ok w' →
  records_free w' + records_queued w' + records_handed_over e
  = records_free w + records_queued w.
Proof.
  intros Hn Hq. unfold run_and_release. rewrite Hn, Hq. simpl.
  destruct (event_fn_call _ _ _ _) as [w2| | |] eqn:Hcall; try done. simpl.
  apply event_fn_call_records in Hcall.
  destruct (g_spdk_event_mempool w2) as [free|] eqn:Hpool; [|done].
  intros [= <-].
  pose proof (records_queued_set_events n (Ring cap l) w r Hn) as Hs.
  unfold records_of_reactor in Hs. rewrite Hq in Hs. simpl in Hs.
  unfold records_free in *. simpl in *. rewrite Hpool in Hcall.
  change (records_queued (observe ?o ?v)) with (records_queued v) in *.
  change (records_queued (set_mempool ?o ?v)) with (records_queued v) in *.
  lia.
Qed.

(** The drain loop on a queue that starts with [l1]. *)
Lemma spdk_event_queue_run_snapshot cur n l1 : ∀ w r cap l2,
  g_reactors w !! n = Some r →
  events r = Some (Ring cap (l1 ++ l2)) →
  spdk_event_queue_run user_fn cur n (length l1) w = drain_snapshot user_fn cur n l1 w
  ∧ ∀ w', drain_snapshot user_fn cur n l1 w = Ok w' →
      records_free w' + records_queued w' + sum_list (map records_handed_over l1)
      = records_free w + records_queued w.
Proof.
  induction l1 as [|e l1 IH]; intros w r cap l2 Hn Hq; simpl.
  - split; [done|]. intros w' [= <-]. lia.
  - rewrite (run_and_release_head cur n w r cap e (l1 ++ l2) Hn Hq).
    destruct (run_and_release _ _ _ _ w) as [w1| | |] eqn:H1; try done. simpl.
    pose proof H1 as Hrec.
    apply (run_and_release_records cur n w r cap e (l1 ++ l2) w1 Hn Hq) in Hrec.
    rewrite <- (run_and_release_head cur n w r cap e (l1 ++ l2) Hn Hq) in H1.
    eapply spdk_event_queue_run_single_cons in H1 as (_ & _ & r1 & added1 & Hn1 & Hq1);
      [|done..].
    rewrite <- app_assoc in Hq1.
    destruct (IH w1 r1 cap (l2 ++ added1) Hn1 Hq1) as [Heq Hrecs].
    split; [done|]. intros w' Hw'. apply Hrecs in Hw'. lia.
Qed.

Lemma extends_events_of w w' m :
  extends w w' → ∃ added, events_of m w' = events_of m w ++ added.
Proof.
  intros (_ & _ & Hr). specialize (Hr m). unfold events_of.
  destruct (g_reactors w !! m) as [[l a q]|], (g_reactors w' !! m) as [[l' a' q']|];
    simpl in Hr; try done; [|by exists []].
  destruct Hr as [_ Hq]. simpl in Hq.
  destruct q as [q|], q' as [q'|]; simpl in Hq; try done; [|by exists []].
  destruct Hq as [_ [added ->]]. by exists added.
Qed.

Lemma run_and_release_events cur n w r cap e l w' :
  g_reactors w !! n = Some r →
  events r = Some (Ring cap (e :: l)) →
  run_and_release user_fn cur n e w = Ok w' →
  ∀ m, ∃ added,
    events_of m w' = (if decide (m = n) then l else events_of m w) ++ added.
Proof.
  intros Hn Hq. unfold run_and_release. rewrite Hn, Hq. simpl.
  destruct (event_fn_call _ _ _ _) as [w2| | |] eqn:Hcall; try done. simpl.
  apply event_fn_call_extends in Hcall.
  destruct (g_spdk_event_mempool w2) as [free|]; [|done].
  intros [= <-] m. destruct (extends_events_of _ _ m Hcall) as [added Ha].
  exists added. change (events_of m (observe ?o (set_mempool ?p ?v))) with (events_of m v).
  rewrite Ha. change (events_of m (observe ?o ?v)) with (events_of m v).
  erewrite events_of_set_events by exact Hn. simpl.
  by destruct (decide (n = m)), (decide (m = n)).
Qed.

(** What the queues hold after the events of [l1] have been run: what
    was behind them, and what has been added meanwhile. *)
Lemma drain_snapshot_events cur n l1 : ∀ w r cap l2 w',
  g_reactors w !! n = Some r →
  events r = Some (Ring cap (l1 ++ l2)) →
  drain_snapshot user_fn cur n l1 w = Ok w' →
  ∀ m, ∃ added,
    events_of m w' = (if decide (m = n) then l2 else events_of m w) ++ added.
Proof.
  induction l1 as [|e l1 IH]; intros w r cap l2 w' Hn Hq; simpl.
  - intros [= <-] m. exists []. rewrite app_nil_r.
    destruct (decide (m = n)) as [->|]; [|done]. by eapply events_of_lookup.
  - destruct (run_and_release _ _ _ _ w) as [w1| | |] eqn:H1; try done. simpl.
    pose proof (run_and_release_events cur n w r cap e (l1 ++ l2) w1 Hn Hq H1) as Hev1.
    rewrite <- (run_and_release_head cur n w r cap e (l1 ++ l2) Hn Hq) in H1.
    eapply spdk_event_queue_run_single_cons in H1 as (_ & _ & r1 & added1 & Hn1 & Hq1);
      [|done..].
    rewrite <- app_assoc in Hq1. intros Hrun m.
    destruct (IH w1 r1 cap (l2 ++ added1) w' Hn1 Hq1 Hrun m) as [added Ha].
    destruct (decide (m = n)) as [->|Hne].
    + exists (added1 ++ added). by rewrite Ha, app_assoc.
    + destruct (Hev1 m) as [added0 Ha0]. rewrite decide_False in Ha0 by done.
      exists (added0 ++ added). by rewrite Ha, Ha0, app_assoc.
Qed.

(** C3: a drain runs the events that are queued when it starts, and no
    others.  It is the function that takes them in order and, for each,
    removes it from the queue, runs its callback once and returns its
    record to the pool, leaving the pool one free record larger, before
    it turns to the next.  When the drain returns, the trace shows
    just those callbacks, each followed by the release of its record;
    the queue of the core holds what was added during the drain and
    nothing of what was there before, the other queues have only grown;
    and no record has been lost: those that are free or queued are as
    many as before, but for the events that were chained behind events
    of the application, which their callbacks have taken. *)
Theorem spdk_event_queue_run_all_snapshot cur lcore w r :
  g_reactors w !! lcore = Some r →
  let snapshot := events_of lcore w in
  spdk_event_queue_run_all user_fn cur lcore w
  = drain_snapshot user_fn cur lcore snapshot w
  ∧ ∀ w', spdk_event_queue_run_all user_fn cur lcore w = Ok w' →
      trace w' = trace w ++ flat_map event_obs snapshot
      ∧ (∀ n, ∃ added,
           events_of n w' = (if decide (n = lcore) then [] else events_of n w) ++ added)
      ∧ records_free w' + records_queued w' + sum_list (map records_handed_over snapshot)
        = records_free w + records_queued w.
Proof.
  intros Hn snapshot. subst snapshot.
  rewrite spdk_event_queue_run_all_count, Hn.
  destruct (events r) as [[cap l]|] eqn:Hq.
  - rewrite (events_of_lookup _ _ _ _ _ Hn Hq).
    destruct (spdk_event_queue_run_snapshot cur lcore l w r cap [] Hn)
      as [Heq Hrec]; [by rewrite app_nil_r|].
    split; [done|]. intros w' Hrun. split; [|split].
    + eapply (spdk_event_queue_run_prefix user_fn cur lcore l w r cap []) in Hrun
        as (Ht & _); [done|done|by rewrite app_nil_r].
    + rewrite Heq in Hrun.
      apply (drain_snapshot_events cur lcore l w r cap [] w' Hn); [by rewrite app_nil_r|done].
    + apply Hrec. by rewrite <- Heq.
  - assert (Hnil : events_of lcore w = []).
    { unfold events_of. rewrite Hn. destruct r; simpl in *. by rewrite Hq. }
    rewrite Hnil. simpl. split; [done|]. intros w' [= <-].
    split; [by rewrite app_nil_r|]. split; [|lia].
    intros n. exists []. rewrite app_nil_r. by destruct (decide (n = lcore)) as [->|].
Qed.

End drain_props.


(** ** Parsing a mask *)

Local Open Scope Z_scope.

Lemma hex_digit_range c d : hex_digit c = Some d → 0 ≤ d ≤ 15.
Proof.
  unfold hex_digit. intros H.
  repeat match type of H with
  | (if ?b then _ else _) = _ => destruct b eqn:?
  end; simplify_eq; lia.
Qed.

Lemma hex_span_digits s : Forall (λ d, 0 ≤ d ≤ 15) (fst (hex_span s)).
Proof.
  induction s as [|c s IH]; simpl; [constructor|].
  destruct (hex_digit c) as [d|] eqn:Hd; [|constructor].
  destruct (hex_span s) as [ds t]. simpl in *. constructor; [|done].
  by eapply hex_digit_range.
Qed.

Lemma hex_span_length s :
  String.length s = (length (fst (hex_span s)) + String.length (snd (hex_span s)))%nat.
Proof.
  induction s as [|c s IH]; simpl; [done|].
  destruct (hex_digit c); [|done]. destruct (hex_span s). simpl in *. lia.
Qed.

(** The value of the digits [ds] read behind a number [a]. *)
Lemma foldl_hex_ge ds : ∀ a,
  0 ≤ a → Forall (λ d, 0 ≤ d ≤ 15) ds → a ≤ foldl (λ a d, a * 16 + d) a ds.
Proof.
  induction ds as [|d ds IH]; intros a Ha Hds; simpl; [lia|].
  inversion Hds as [|?? Hd Hds']; subst.
  etrans; [|apply IH]; [lia|lia|done].
Qed.

Lemma cutoff_value : ULLONG_MAX / 16 = 2 ^ 60 - 1.
Proof. reflexivity. Qed.

Lemma cutlim_value : ULLONG_MAX mod 16 = 15.
Proof. reflexivity. Qed.

(** Once the flag is up it stays up. *)
Lemma scan_digits_overflowed s : ∀ i,
  ∃ i', scan_digits i true s = (i', true, snd (hex_span s)).
Proof.
  induction s as [|c s IH]; intros i; simpl; [by eexists|].
  destruct (hex_digit c) as [d|]; [|by eexists].
  destruct (hex_span s) as [ds t] eqn:Hspan. simpl in *.
  destruct (_ || _); apply IH.
Qed.

(** The digit loop reads the digits [hex_span] finds; it raises the flag
    exactly when their value does not fit 64 bits, and otherwise ends
    with their value. *)
Lemma scan_digits_spec s : ∀ i,
  0 ≤ i < 2 ^ 64 →
  let v := foldl (λ a d, a * 16 + d) i (fst (hex_span s)) in
  ∃ i', scan_digits i false s = (i', bool_decide (2 ^ 64 ≤ v), snd (hex_span s))
        ∧ (v < 2 ^ 64 → i' = v).
Proof.
  induction s as [|c s IH]; intros i Hi; simpl.
  - exists i. rewrite bool_decide_false by lia. done.
  - destruct (hex_digit c) as [d|] eqn:Hd.
    2: { exists i. simpl. rewrite bool_decide_false by lia. done. }
    pose proof (hex_digit_range _ _ Hd) as Hrange.
    pose proof (hex_span_digits s) as Hds.
    destruct (hex_span s) as [ds t] eqn:Hspan. simpl in *.
    rewrite cutoff_value, cutlim_value.
    destruct (Z.ltb_spec (2 ^ 60 - 1) i) as [Hlt|Hge]; simpl.
    + destruct (scan_digits_overflowed s i) as [i' Hs]. rewrite Hs, Hspan. simpl.
      pose proof (foldl_hex_ge ds (i * 16 + d) ltac:(lia) Hds).
      exists i'. rewrite bool_decide_true by lia. split; [done|lia].
    + destruct (Z.ltb_spec 15 d) as [?|_]; [lia|]. rewrite andb_false_r.
      destruct (IH (i * 16 + d) ltac:(lia)) as (i' & Hs & Hv).
      simpl in Hs, Hv. by exists i'.
Qed.

(** The digit loop and the three ways [strtoull] ends, on the part
    [save] of the string where the digits are expected. *)
Lemma strtoull_digits save (neg : bool) (noconv : Z * string * bool) :
  (let '(i, overflow, s) := scan_digits 0 false save in
   if (String.length s =? String.length save)%nat then noconv
   else if overflow then (ULLONG_MAX, s, true)
   else ((if neg then - i else i) mod 2 ^ 64, s, false))
  = match hex_span save with
    | ([], _) => noconv
    | (ds, t) =>
        (if bool_decide (2 ^ 64 ≤ hex_number ds) then ULLONG_MAX
         else (if neg then - hex_number ds else hex_number ds) mod 2 ^ 64,
         t, bool_decide (2 ^ 64 ≤ hex_number ds))
    end.
Proof.
  destruct (scan_digits_spec save 0 ltac:(lia)) as (i' & Hs & Hv).
  pose proof (hex_span_length save) as Hl.
  rewrite Hs. destruct (hex_span save) as [ds t]. cbn [fst snd] in *.
  fold (hex_number ds) in *.
  destruct ds as [|d ds].
  - simpl in Hl. rewrite Hl, Nat.eqb_refl. done.
  - destruct (Nat.eqb_spec (String.length t) (String.length save)) as [Heq|_];
      [simpl in Hl; lia|].
    destruct (bool_decide _) eqn:Hov; [done|].
    apply bool_decide_eq_false in Hov. rewrite Hv by lia. done.
Qed.

(** [strtoull] against the reading of the specification. *)
Lemma strtoull_spec s :
  strtoull s
  = (if bool_decide (2 ^ 64 ≤ mask_value s) then ULLONG_MAX else mask_parsed s,
     mask_tail s,
     bool_decide (2 ^ 64 ≤ mask_value s)).
Proof.
  unfold strtoull, mask_parsed, mask_tail, mask_value, mask_digits, mask_sign.
  destruct (strip_sign (skip_space s)) as [neg s1]. cbn [fst snd].
  assert (Hzero : ∀ b : bool, (if b then - hex_number [] else hex_number []) mod 2 ^ 64 = 0)
    by (by intros []).
  destruct s1 as [|c [|x s2]].
  - rewrite (strtoull_digits EmptyString). simpl. by rewrite Hzero.
  - rewrite (strtoull_digits (String c EmptyString)).
    destruct (hex_span (String c EmptyString)) as [[|d ds] t]; cbn [fst snd]; [|done].
    simpl. by rewrite Hzero.
  - destruct (Ascii.eqb c "0" && is_x x).
    + rewrite (strtoull_digits s2).
      destruct (hex_span s2) as [[|d ds] t]; cbn [fst snd]; [|done].
      simpl. by destruct neg.
    + rewrite (strtoull_digits (String c (String x s2))).
      destruct (hex_span (String c (String x s2))) as [[|d ds] t]; cbn [fst snd]; [|done].
      simpl. by rewrite Hzero.
Qed.

Lemma testbit_one_shiftl (j : nat) (i : Z) :
  0 ≤ i → Z.testbit (Z.shiftl 1 (Z.of_nat j)) i = (i =? Z.of_nat j).
Proof.
  intros Hi. rewrite Z.shiftl_1_l, Z.pow2_bits_eqb by lia. apply Z.eqb_sym.
Qed.

Lemma land_one_shiftl_zero m (j : nat) :
  (Z.land m (Z.shiftl 1 (Z.of_nat j)) =? 0) = negb (Z.testbit m (Z.of_nat j)).
Proof.
  destruct (Z.testbit m (Z.of_nat j)) eqn:Hb; simpl.
  - apply Z.eqb_neq. intros H0.
    assert (Hbit : Z.testbit (Z.land m (Z.shiftl 1 (Z.of_nat j))) (Z.of_nat j) = true).
    { rewrite Z.land_spec, testbit_one_shiftl, Hb, Z.eqb_refl by lia. done. }
    rewrite H0, Z.bits_0 in Hbit. done.
  - apply Z.eqb_eq. apply Z.bits_inj'. intros i Hi.
    rewrite Z.land_spec, testbit_one_shiftl, Z.bits_0 by lia.
    destruct (Z.eqb_spec i (Z.of_nat j)) as [->|_]; [by rewrite Hb|apply andb_false_r].
Qed.

Lemma mask_has_testbit m (j : nat) : mask_has m j = Z.testbit m (Z.of_nat j).
Proof. unfold mask_has. rewrite land_one_shiftl_zero. apply negb_involutive. Qed.

Section lifecycle_props.

Variable h : host.

Lemma clear_disabled_testbit m (j : nat) (i : Z) :
  0 ≤ i →
  Z.testbit (clear_disabled h m j) i
  = Z.testbit m i && negb ((i =? Z.of_nat j) && negb (rte_lcore_is_enabled h j)).
Proof.
  intros Hi. unfold clear_disabled. rewrite land_one_shiftl_zero, negb_involutive.
  destruct (Z.testbit m (Z.of_nat j)) eqn:Hb; simpl.
  - destruct (rte_lcore_is_enabled h j); simpl.
    + by rewrite andb_false_r, andb_true_r.
    + rewrite Z.land_spec, Z.lnot_spec, testbit_one_shiftl by lia. by rewrite andb_true_r.
  - destruct (Z.eqb_spec i (Z.of_nat j)) as [->|_]; simpl.
    + rewrite Hb. done.
    + by rewrite andb_true_r.
Qed.

Lemma foldl_clear_disabled_testbit n : ∀ m (i : nat),
  Z.testbit (foldl (clear_disabled h) m (seq 0 n)) (Z.of_nat i)
  = Z.testbit m (Z.of_nat i) && (rte_lcore_is_enabled h i || negb (i <? n)%nat).
Proof.
  induction n as [|n IH]; intros m i.
  - simpl. by rewrite orb_true_r, andb_true_r.
  - rewrite seq_S, foldl_app. simpl.
    rewrite clear_disabled_testbit, IH by lia.
    destruct (Z.eqb_spec (Z.of_nat i) (Z.of_nat n)) as [Heq|Hne].
    + apply Nat2Z.inj in Heq as ->.
      destruct (Nat.ltb_spec n n); [lia|]. destruct (Nat.ltb_spec n (S n)); [|lia].
      simpl. destruct (rte_lcore_is_enabled h n); simpl; by rewrite ?andb_true_r, ?andb_false_r.
    + simpl. rewrite andb_true_r. f_equal. f_equal.
      destruct (Nat.ltb_spec i n), (Nat.ltb_spec i (S n)); (done || lia).
Qed.

(** C7: [spdk_app_parse_core_mask] fails exactly for a NULL pointer,
    a string whose number is followed by something else than the
    terminator, and a number that does not fit 64 bits.  When it
    succeeds the bitmap is the parsed value without the bits of the
    cores the host has not enabled: bit [i] is cleared when core [i]
    (below [RTE_MAX_LCORE] and 64) is not enabled, and is the bit of
    the parsed value otherwise. *)
Theorem spdk_app_parse_core_mask_spec mask cpumask :
  let rc := fst (spdk_app_parse_core_mask h mask cpumask) in
  let out := snd (spdk_app_parse_core_mask h mask cpumask) in
  (rc = -1 ∨ rc = 0)
  ∧ (rc = -1 ↔
     mask = None ∨ cpumask = None
     ∨ ∃ s, mask = Some s ∧ (char_at (mask_tail s) ≠ zero ∨ 2 ^ 64 ≤ mask_value s))
  ∧ (rc = 0 →
     ∃ s v, mask = Some s ∧ out = Some v
            ∧ ∀ i : nat,
                Z.testbit v (Z.of_nat i)
                = Z.testbit (mask_parsed s) (Z.of_nat i)
                  && (rte_lcore_is_enabled h i
                      || negb (i <? RTE_MAX_LCORE h `min` 64)%nat)).
Proof.
  unfold spdk_app_parse_core_mask.
  destruct mask as [s|]; [|simpl; split; [by left|]; split; [naive_solver|done]].
  destruct cpumask as [c|]; [|simpl; split; [by left|]; split; [naive_solver|done]].
  rewrite strtoull_spec.
  destruct (Ascii.eqb_spec (char_at (mask_tail s)) zero) as [Htail|Htail]; simpl.
  - destruct (bool_decide (2 ^ 64 ≤ mask_value s)) eqn:Hov; simpl.
    + apply bool_decide_eq_true in Hov. split; [by left|]. split; [|done].
      split; [|done]. intros _. right. right. exists s. split; [done|by right].
    + apply bool_decide_eq_false in Hov. split; [by right|]. split.
      * split; [done|]. intros [?|[?|(s' & [= <-] & [?|?])]]; done.
      * intros _. eexists s, _. split; [done|]. split; [done|].
        intros i. apply foldl_clear_disabled_testbit.
  - split; [by left|]. split; [|done].
    split; [|done]. intros _. right. right. exists s. split; [done|by left].
Qed.

End lifecycle_props.

(** ** Initialisation *)

Section init_props.

Variable h : host.

Lemma elem_of_lcores (i : nat) :
  i ∈ lcores h ↔ (i < RTE_MAX_LCORE h)%nat ∧ rte_lcore_is_enabled h i = true.
Proof.
  unfold lcores. rewrite list_elem_of_filter, elem_of_seq. split.
  - intros [Hen [_ Hlt]]. split; [lia|done].
  - intros [Hlt Hen]. split; [done|lia].
Qed.

Lemma set_core_bit_testbit m (j i : nat) :
  Z.testbit (set_core_bit m j) (Z.of_nat i)
  = Z.testbit m (Z.of_nat i) || (bool_decide (i = j) && bool_decide (i < 64)%nat).
Proof.
  unfold set_core_bit. rewrite Z.lor_spec. f_equal.
  destruct (decide (i < 64)%nat).
  - rewrite Z.mod_pow2_bits_low, testbit_one_shiftl by lia.
    rewrite (bool_decide_true (i < 64)%nat), andb_true_r by done.
    destruct (Z.eqb_spec (Z.of_nat i) (Z.of_nat j)); case_bool_decide; (done || lia).
  - rewrite Z.mod_pow2_bits_high by lia.
    by rewrite (bool_decide_false (i < 64)%nat), andb_false_r.
Qed.

Lemma foldl_set_core_bit_testbit l : ∀ m (i : nat),
  Z.testbit (foldl set_core_bit m l) (Z.of_nat i)
  = Z.testbit m (Z.of_nat i) || (bool_decide (i ∈ l) && bool_decide (i < 64)%nat).
Proof.
  induction l as [|j l IH]; intros m i.
  - rewrite (bool_decide_false (i ∈ [])) by apply not_elem_of_nil. by rewrite orb_false_r.
  - cbn [foldl]. rewrite IH, set_core_bit_testbit, <- orb_assoc. f_equal.
    rewrite <- andb_orb_distrib_l. f_equal.
    rewrite <- bool_decide_or. apply bool_decide_ext. symmetry. apply elem_of_cons.
Qed.

(** The mask a NULL mask string stands for: the cores the host has
    enabled. *)
Lemma spdk_reactor_parse_mask_null w :
  g_reactor_state w = SPDK_REACTOR_STATE_INVALID →
  spdk_reactor_parse_mask h None w
  = (0, set_reactor_mask (foldl set_core_bit 0 (lcores h)) (set_reactor_mask 0 w)).
Proof. intros Hst. unfold spdk_reactor_parse_mask. by rewrite Hst. Qed.

Lemma construct_reactors_Ok l : ∀ w,
  (∀ i, i ∈ l → (i < length (g_reactors w))%nat ∧ event_ring_created h i = true) →
  ∃ w', construct_reactors h l w = Ok w'
        ∧ g_reactor_state w' = g_reactor_state w
        ∧ g_reactor_mask w' = g_reactor_mask w.
Proof.
  induction l as [|i l IH]; intros w Hl; simpl.
  - by exists w.
  - destruct (mask_has _ _).
    + destruct (Hl i) as [Hi Hev]; [by left|].
      unfold spdk_reactor_construct. apply lookup_lt_is_Some in Hi as [r Hr].
      rewrite Hr, Hev. simpl.
      match goal with
      | |- context [construct_reactors h l ?w0] =>
          destruct (IH w0) as (w' & Hw' & Hs & Hm)
      end.
      { intros j Hj. simpl. rewrite length_insert. apply Hl. by right. }
      exists w'. split; [exact Hw'|]. done.
    + apply IH. intros j Hj. apply Hl. by right.
Qed.


End init_props.

Local Close Scope Z_scope.

(** ** Rings and queues under the calls of the interface *)

Lemma posts_rings_same w w' : posts w w' → rings_same w w'.
Proof.
  intros ((_ & _ & He) & Hp & _ & Hr). split; [done|]. intros n.
  specialize (He n). specialize (Hr n).
  destruct (g_reactors w !! n), (g_reactors w' !! n); simpl in *; try done. by destruct He.
Qed.

Lemma rings_same_pollers_of w w' n : rings_same w w' → pollers_of n w' = pollers_of n w.
Proof.
  intros [_ Hr]. specialize (Hr n). unfold pollers_of.
  destruct (g_reactors w !! n) as [[l a q]|], (g_reactors w' !! n) as [[l' a' q']|];
    simpl in *; try done. destruct Hr as [_ ->]. done.
Qed.

Lemma events_of_spdk_event_call e w w' n :
  spdk_event_call e w = Ok w' →
  events_of n w' = events_of n w ++ (if decide (n = ev_lcore e) then [e] else []).
Proof.
  intros (r & [cap l] & Hr & Hq & _ & ->)%spdk_event_call_Ok.
  erewrite events_of_set_events by exact Hr. simpl.
  destruct (decide (ev_lcore e = n)) as [<-|Hne].
  - rewrite decide_True by done. by rewrite (events_of_lookup _ _ _ _ _ Hr Hq).
  - rewrite decide_False by done. by rewrite app_nil_r.
Qed.

Lemma events_of_spdk_event_allocate l fn a1 a2 next w e w' n :
  spdk_event_allocate l fn a1 a2 next w = Ok (e, w') → events_of n w' = events_of n w.
Proof.
  unfold spdk_event_allocate. destruct (g_spdk_event_mempool w) as [free|]; [|done].
  destruct (free =? 0)%N; [done|]. by intros ?; simplify_eq.
Qed.

Lemma occurrences_app p l1 l2 : occurrences p (l1 ++ l2) = occurrences p l1 + occurrences p l2.
Proof. unfold occurrences. by rewrite filter_app, length_app. Qed.

Lemma occurrences_cons p x l :
  occurrences p (x :: l) = (if decide (x = p) then 1 else 0) + occurrences p l.
Proof. unfold occurrences. rewrite filter_cons. by destruct (decide (x = p)). Qed.

Lemma occurrences_0 p l : occurrences p l = 0 ↔ p ∉ l.
Proof.
  induction l as [|x l IH]; [split; [intros _; apply not_elem_of_nil|done]|].
  rewrite occurrences_cons, not_elem_of_cons. destruct (decide (x = p)) as [-> | Hne].
  - split; [done|]. by intros [? _].
  - simpl. rewrite IH. split.
    + by intros ?; split.
    + by intros [_ ?].
Qed.

Lemma occurrences_1_split p l :
  occurrences p l = 1 → ∃ pre post, l = pre ++ p :: post ∧ (p ∉ pre) ∧ (p ∉ post).
Proof.
  induction l as [|x l IH]; [done|]. rewrite occurrences_cons.
  destruct (decide (x = p)) as [-> | Hne]; simpl.
  - intros Hl. exists [], l. split; [done|]. split; [apply not_elem_of_nil|].
    apply occurrences_0. lia.
  - intros (pre & post & -> & Hpre & Hpost)%IH. exists (x :: pre), post.
    split; [done|]. split; [|done]. apply not_elem_of_cons. by split.
Qed.

Lemma pollers_of_set_active_pollers n ring w m r :
  g_reactors w !! n = Some r →
  pollers_of m (set_active_pollers n ring w)
  = if decide (n = m) then ring_entries ring else pollers_of m w.
Proof.
  intros Hn. unfold pollers_of. rewrite lookup_set_active_pollers.
  destruct (decide (n = m)) as [<- | _]; [|done]. by rewrite Hn.
Qed.

Lemma events_of_set_active_pollers n ring w m :
  events_of m (set_active_pollers n ring w) = events_of m w.
Proof.
  unfold events_of. rewrite lookup_set_active_pollers.
  destruct (decide (n = m)) as [<- | _]; [|done]. by destruct (g_reactors w !! n) as [[]|].
Qed.

Lemma _spdk_poller_migrate_migration P M E w w' :
  _spdk_poller_migrate M (migrate_event P M E) w = Ok w' →
  posts w w'
  ∧ ∀ m, events_of m w' = events_of m w ++ (if decide (m = M) then [add_event P M E] else []).
Proof.
  unfold _spdk_poller_migrate, migrate_event. simpl. intros Hrun.
  split; [by eapply spdk_poller_register_posts|].
  revert Hrun. unfold spdk_poller_register.
  destruct (spdk_event_allocate _ _ _ _ _ w) as [[e w1]| | |] eqn:Ha; try done. simpl.
  intros Hcall m. rewrite (events_of_spdk_event_call _ _ _ m Hcall).
  rewrite (events_of_spdk_event_allocate _ _ _ _ _ _ _ _ m Ha).
  by apply spdk_event_allocate_posts in Ha as [-> _].
Qed.

(** *** The steps of a reactor, taken apart *)

Section steps.

Variable user_fn : nat → spdk_event → world → list api_call.
Variable poller_fn : nat → world → list api_call.

(** A turn of the drain loop that returns has found the queue empty,
    or has run the event at its head. *)
Lemma spdk_event_queue_run_single_Ok n w w' :
  spdk_event_queue_run_single user_fn n n w = Ok w' →
  (events_of n w = [] ∧ w' = w)
  ∨ ∃ e rest cap w2 free r,
      g_reactors w !! n = Some r
      ∧ events_of n w = e :: rest
      ∧ event_fn_call user_fn n e
          (observe (Obs_event_fn e) (set_events n (Ring cap rest) w)) = Ok w2
      ∧ w' = observe (Obs_event_free e) (set_mempool (Some free) w2).
Proof.
  unfold spdk_event_queue_run_single, reactor_load.
  destruct (g_reactors w !! n) as [r|] eqn:Hn; [|done]. simpl.
  destruct (events r) as [[cap [|e rest]]|] eqn:Hq; [| |done].
  - simpl. intros [= <-]. left. split; [|done]. by eapply events_of_lookup.
  - unfold rte_ring_dequeue. simpl.
    destruct (event_fn_call _ _ _ _) as [w2| | |] eqn:Hcall; try done. simpl.
    unfold spdk_event_free. destruct (g_spdk_event_mempool w2) as [free|]; [|done].
    intros [= <-]. right. exists e, rest, cap, w2, (free + 1)%N, r.
    split; [done|]. split; [by eapply events_of_lookup|]. done.
Qed.

(** A poll that returns has found the ring empty, or has run the
    poller at its head and put it back at the tail. *)
Lemma reactor_poll_Ok n w w' :
  reactor_poll poller_fn n w = Ok w' →
  (pollers_of n w = [] ∧ w' = w)
  ∨ ∃ p rest cap r w2,
      g_reactors w !! n = Some r
      ∧ active_pollers r = Some (Ring cap (p :: rest))
      ∧ (N.of_nat (length rest) < cap)%N
      ∧ run_script (poller_fn p (observe (Obs_poller_fn p)
                                   (set_active_pollers n (Ring cap rest) w)))
          (observe (Obs_poller_fn p) (set_active_pollers n (Ring cap rest) w)) = Ok w2
      ∧ w' = set_active_pollers n (Ring cap (rest ++ [p])) w2.
Proof.
  destruct (g_reactors w !! n) as [r|] eqn:Hn.
  2: { unfold reactor_poll, reactor_load. by rewrite Hn. }
  destruct (active_pollers r) as [[cap [|p rest]]|] eqn:Hr.
  - rewrite (reactor_poll_nil _ _ _ _ _ Hn Hr). intros [= <-]. left.
    split; [|done]. by eapply pollers_of_lookup.
  - rewrite (reactor_poll_cons _ _ _ _ _ _ _ Hn Hr). cbn zeta.
    destruct (run_script _ _) as [w2| | |] eqn:Hs; try done. simpl.
    destruct (N.ltb_spec (N.of_nat (length rest)) cap); [|done].
    intros [= <-]. right. by exists p, rest, cap, r, w2.
  - unfold reactor_poll, reactor_load. rewrite Hn. simpl. by rewrite Hr.
Qed.

End steps.

(** *** Queues and rings under the writes of a step *)

Lemma events_of_observe_set_events o n q w m r :
  g_reactors w !! n = Some r →
  events_of m (observe o (set_events n q w))
  = if decide (n = m) then ring_entries q else events_of m w.
Proof. apply events_of_set_events. Qed.


(** ** The scenarios *)

(** C1: unregistering does not keep the order of the other pollers.
    With (A, B, C, D) in the ring of core 0, Unregister(B) and the drain
    that runs it leave the ring as (D, A, C): the walk reads the length
    of the ring again after it has dropped B, stops one entry early, and
    D stays in front of A. *)
Theorem unregister_reorders_ring :
  pollers_of 0 world_ABCD = [10; 11; 12; 13]
  ∧ ∃ w1 w2,
      spdk_poller_unregister 11 None world_ABCD = Ok w1
      ∧ spdk_event_queue_run_all quiet_fn 0 0 w1 = Ok w2
      ∧ pollers_of 0 w2 = [13; 10; 12].
Proof.
  split; [reflexivity|]. eexists _, _.
  split; [vm_compute; reflexivity|]. split; [vm_compute; reflexivity|]. reflexivity.
Qed.

(** C2: the walk does not go by the length it finds at its start.  On
    the ring (A, B, C, D) with target B the length is 4, and the walk
    dequeues three entries, A, B and C; D is never looked at. *)
Theorem remove_walk_stops_early :
  rte_ring_count (Ring 4095 [10; 11; 12; 13]) = 4
  ∧ remove_poller_walk 11 0 (Ring 4095 [10; 11; 12; 13]) []
    = Ok (Ring 4095 [13; 10; 12], [10; 11; 12]).
Proof. split; [reflexivity|]. vm_compute. reflexivity. Qed.


(** Registering on the full ring of core 1. *)
Lemma add_poller_ignores_full_ring_witness :
  ∃ w', _spdk_event_add_poller (add_event 7 1 completion) world_P_full = Ok w'
        ∧ poller_lcore w' !! 7 = Some 1
        ∧ pollers_of 1 w' = [9]
        ∧ events_of 0 w' = [completion].
Proof.
  destruct (add_poller_ignores_full_ring quiet_poller world_P_full 1 (core 1 1 [9] [])
              (Ring 1 [9]) 7 1 (Some completion) eq_refl eq_refl eq_refl)
    as (Heq & _ & _ & Hok & _).
  eexists. split; [vm_compute; reflexivity|].
  edestruct Hok as (Hl & Hp & He); [vm_compute; reflexivity|].
  split; [exact Hl|]. split; [exact (Hp 1)|]. exact (He completion eq_refl).
Defined.

(** The masks of scenario 6. *)
Lemma spdk_app_parse_core_mask_spec_witness :
  fst (spdk_app_parse_core_mask host_2_of_4 (Some "0xZZ"%string) (Some 0%Z)) = (-1)%Z
  ∧ fst (spdk_app_parse_core_mask host_2_of_4 (Some "0x10000000000000000"%string) (Some 0%Z))
    = (-1)%Z.
Proof.
  split.
  - apply (spdk_app_parse_core_mask_spec host_2_of_4 (Some "0xZZ"%string) (Some 0%Z)).
    right. right. eexists. split; [reflexivity|]. left. vm_compute. discriminate.
  - apply (spdk_app_parse_core_mask_spec host_2_of_4
             (Some "0x10000000000000000"%string) (Some 0%Z)).
    right. right. eexists. split; [reflexivity|]. right. vm_compute. discriminate.
Defined.




(** * Further properties of the reactor *)

(** ** Unregistering a poller *)

(** The walk on any ring: it returns, the ring does not grow, and the
    pollers other than the target come out in their cyclic order. *)
Lemma remove_poller_walk_rotates k : ∀ cap l i seen poller,
  (N.of_nat (length l) ≤ cap)%N →
  length l - i ≤ k →
  ∃ l' seen', remove_poller_walk poller i (Ring cap l) seen = Ok (Ring cap l', seen')
    ∧ length l' ≤ length l
    ∧ ∃ s1 s2, filter (λ x, x ≠ poller) l = s1 ++ s2
               ∧ filter (λ x, x ≠ poller) l' = s2 ++ s1.
Proof.
  induction k as [|k IH]; intros cap l i seen poller Hcap Hk;
    rewrite remove_poller_walk_step; unfold rte_ring_count; simpl.
  - destruct (Nat.ltb_spec i (length l)); [lia|].
    exists l, seen. split; [done|]. split; [done|].
    exists [], (filter (λ x, x ≠ poller) l). by rewrite app_nil_r.
  - destruct (Nat.ltb_spec i (length l)).
    2: { exists l, seen. split; [done|]. split; [done|].
         exists [], (filter (λ x, x ≠ poller) l). by rewrite app_nil_r. }
    destruct l as [|x l]; [simpl in *; lia|].
    unfold rte_ring_dequeue; simpl.
    destruct (decide (x = poller)) as [->|Hx].
    + destruct (IH cap l (S i) (seen ++ [poller]) poller)
        as (l' & seen' & -> & Hlen & s1 & s2 & H1 & H2); [simpl in *; lia..|].
      exists l', seen'. split; [done|]. split; [simpl; lia|].
      exists s1, s2. rewrite filter_cons_False by (intros ?; done). done.
    + rewrite rte_ring_enqueue_Some by (simpl in *; lia).
      destruct (IH cap (l ++ [x]) (S i) (seen ++ [x]) poller)
        as (l' & seen' & -> & Hlen & s1 & s2 & H1 & H2).
      { rewrite length_app. simpl in *. lia. }
      { rewrite length_app. simpl in *. lia. }
      exists l', seen'. split; [done|].
      split; [rewrite length_app in Hlen; simpl in *; lia|].
      rewrite filter_app, filter_cons_True in H1 by done. rewrite filter_nil in H1.
      rewrite filter_cons_True by done.
      assert (s2 = [] ∨ ∃ s y, s2 = s ++ [y]) as [->|(s & y & ->)]
        by (destruct s2 using rev_ind; eauto).
      * rewrite app_nil_r in H1. simpl in H2. subst s1.
        exists (x :: nil). exists (filter (λ y, y ≠ poller) l). by rewrite H1.
      * rewrite app_assoc in H1. apply app_inj_tail in H1 as [HG <-].
        exists (x :: s1), s. rewrite HG, H2. split; [done|]. by rewrite <- app_assoc.
Qed.

(** X1: on a ring that holds no more than its capacity the removal walk
    of [_spdk_event_remove_poller] always returns: neither of its two
    ways out of the process is taken.  The ring does not grow, keeps
    its capacity, and the pollers other than the target are all still
    there, as often as before and in the same cyclic order. *)
Theorem remove_poller_walk_keeps_survivors cap l poller :
  (N.of_nat (length l) ≤ cap)%N →
  ∃ l' seen, remove_poller_walk poller 0 (Ring cap l) [] = Ok (Ring cap l', seen)
    ∧ length l' ≤ length l
    ∧ ∃ s1 s2, filter (λ x, x ≠ poller) l = s1 ++ s2
               ∧ filter (λ x, x ≠ poller) l' = s2 ++ s1.
Proof. intros Hcap. by apply (remove_poller_walk_rotates (length l)); [|lia]. Qed.

Lemma set_active_pollers_same n r ring w :
  g_reactors w !! n = Some r → active_pollers r = Some ring →
  set_active_pollers n ring w = w.
Proof.
  intros Hn Hr. unfold set_active_pollers, set_reactors.
  destruct w as [rs m c s p pl t]. simpl in *.
  f_equal. apply list_eq. intros i. rewrite list_lookup_alter.
  destruct (decide (n = i)) as [<-|_]; [|done]. rewrite Hn. simpl. f_equal.
  destruct r; simpl in *. by rewrite Hr.
Qed.

(** X2: unregistering a poller that is not in the ring of its core
    changes nothing: the handler leaves the ring as it is, order
    included, and goes on to post the completion event. *)
Theorem unregister_absent_poller w n r cap l poller lc next :
  g_reactors w !! n = Some r →
  active_pollers r = Some (Ring cap l) →
  (N.of_nat (length l) ≤ cap)%N →
  poller ∉ l →
  _spdk_event_remove_poller
    (Event lc Fn_remove_poller (Arg_reactor n) (Arg_poller poller) next) w
  = match next with Some e => spdk_event_call e w | None => Ok w end.
Proof.
  intros Hn Hr Hcap Hp. unfold _spdk_event_remove_poller. simpl.
  apply reactor_load_Ok in Hn as Hl. rewrite Hl. simpl. rewrite Hr.
  rewrite (remove_poller_walk_absent (length l)); [|done|done|lia].
  rewrite drop_all, firstn_all. simpl.
  by rewrite (set_active_pollers_same n r).
Qed.

(** X3: unregistering a poller that is in the ring once.  The handler
    takes it out and posts the completion event; the other pollers
    stay, in their cyclic order, and in their old order when the poller
    was the last entry of the ring.  In general the entry that was last
    is now first. *)
Theorem unregister_present_poller w n r cap pre post poller lc next :
  g_reactors w !! n = Some r →
  active_pollers r = Some (Ring cap (pre ++ poller :: post)) →
  (N.of_nat (length pre + 1 + length post) ≤ cap)%N →
  poller ∉ pre → poller ∉ post →
  let event := Event lc Fn_remove_poller (Arg_reactor n) (Arg_poller poller) next in
  let left_ := drop (length post - 1) (post ++ pre)
               ++ take (length post - 1) (post ++ pre) in
  let w1 := set_active_pollers n (Ring cap left_) w in
  _spdk_event_remove_poller event w
  = match next with Some e => spdk_event_call e w1 | None => Ok w1 end
  ∧ (poller ∉ left_)
  ∧ length left_ = length pre + length post
  ∧ (∃ s1 s2, pre ++ post = s1 ++ s2 ∧ left_ = s2 ++ s1)
  ∧ (post = [] → left_ = pre)
  ∧ (∀ x rest, post = rest ++ [x] → left_ = x :: pre ++ rest)
  ∧ (∀ w', _spdk_event_remove_poller event w = Ok w' →
       pollers_of n w' = left_ ∧ ∀ m, m ≠ n → pollers_of m w' = pollers_of m w).
Proof.
  intros Hn Hr Hcap Hpre Hpost event left_ w1.
  assert (Heq : _spdk_event_remove_poller event w
                = match next with Some e => spdk_event_call e w1 | None => Ok w1 end).
  { unfold _spdk_event_remove_poller. simpl.
    apply reactor_load_Ok in Hn as Hl. rewrite Hl. simpl. rewrite Hr.
    rewrite remove_poller_walk_found; [|done|done|done|lia].
    rewrite Nat.sub_0_r. done. }
  assert (Hlast : ∀ x rest, post = rest ++ [x] → left_ = x :: pre ++ rest).
  { intros x rest ->. subst left_. rewrite length_app. simpl.
    replace (length rest + 1 - 1) with (length rest) by lia.
    rewrite <- !app_assoc. rewrite drop_app_length, take_app_length.
    done. }
  split; [done|]. split; [|split; [|split; [|split; [|split]]]].
  - subst left_. rewrite not_elem_of_app. split.
    + intros Hin%(subseteq_drop _ _). apply elem_of_app in Hin as [?|?]; done.
    + intros Hin%(subseteq_take _ _). apply elem_of_app in Hin as [?|?]; done.
  - subst left_. rewrite length_app, length_drop, length_take, length_app. lia.
  - assert (post = [] ∨ ∃ s y, post = s ++ [y]) as [->|(s & y & ->)]
      by (destruct post using rev_ind; eauto).
    + exists [], pre. subst left_. simpl. by rewrite take_0, drop_0, !app_nil_r.
    + rewrite (Hlast y s eq_refl). exists (pre ++ s), [y]. by rewrite <- !app_assoc.
  - intros ->. subst left_. simpl. by rewrite take_0, drop_0, !app_nil_r.
  - done.
  - intros w' Hw'. rewrite Heq in Hw'.
    assert (Hp1 : pollers_of n w1 = left_ ∧ ∀ m, m ≠ n → pollers_of m w1 = pollers_of m w).
    { subst w1. split.
      - erewrite pollers_of_set_active_pollers by done. by rewrite decide_True.
      - intros m Hm. erewrite pollers_of_set_active_pollers by done. by rewrite decide_False. }
    destruct next as [e|].
    + apply spdk_event_call_Ok in Hw' as (re & q & _ & _ & _ & ->).
      split; [|intros m Hm]; rewrite pollers_of_set_events; by apply Hp1.
    + by injection Hw' as <-.
Qed.

(** ** No way out through [exit] *)

Lemma pollers_fit_posts w w' : posts w w' → pollers_fit w → pollers_fit w'.
Proof.
  intros (_ & _ & _ & Hs) Hfit n r' ring Hn Hr. specialize (Hs n). rewrite Hn in Hs.
  destruct (g_reactors w !! n) as [r|] eqn:Hn0; [|done]. simpl in Hs.
  eapply Hfit; [exact Hn0|]. by rewrite <- Hs.
Qed.

Lemma pollers_fit_set_active_pollers n ring w :
  (N.of_nat (rte_ring_count ring) ≤ ring_capacity ring)%N →
  pollers_fit w → pollers_fit (set_active_pollers n ring w).
Proof.
  intros Hring Hfit m r ring' Hm Hr. rewrite lookup_set_active_pollers in Hm.
  destruct (decide (n = m)) as [<-|_]; [|by eapply Hfit].
  destruct (g_reactors w !! n); simplify_eq/=. done.
Qed.

Lemma pollers_fit_same w w' :
  (∀ n, option_map active_pollers (g_reactors w' !! n) = option_map active_pollers (g_reactors w !! n)) →
  pollers_fit w → pollers_fit w'.
Proof.
  intros Hs Hfit n r' ring Hn Hr. specialize (Hs n). rewrite Hn in Hs.
  destruct (g_reactors w !! n) as [r|] eqn:Hn0; [|done]. simpl in Hs.
  eapply Hfit; [exact Hn0|]. congruence.
Qed.

Lemma allocate_chain_not_exit c w : allocate_chain c w ≠ Exit_failure.
Proof.
  unfold allocate_chain, allocate_records. destruct c; [|done].
  destruct (g_spdk_event_mempool w); repeat case_match; done.
Qed.

Lemma spdk_event_allocate_not_exit l fn a1 a2 nx w :
  spdk_event_allocate l fn a1 a2 nx w ≠ Exit_failure.
Proof. unfold spdk_event_allocate. repeat case_match; done. Qed.

Lemma spdk_poller_register_not_exit p l c w : spdk_poller_register p l c w ≠ Exit_failure.
Proof.
  unfold spdk_poller_register.
  destruct (spdk_event_allocate _ _ _ _ _ w) as [[e w1]| | |] eqn:Ha; try done.
  - simpl. apply spdk_event_call_not_exit.
  - by apply spdk_event_allocate_not_exit in Ha.
Qed.

Lemma spdk_poller_unregister_not_exit p c w : spdk_poller_unregister p c w ≠ Exit_failure.
Proof.
  unfold spdk_poller_unregister. destruct (poller_lcore w !! p); [|done].
  destruct (spdk_event_allocate _ _ _ _ _ w) as [[e w1]| | |] eqn:Ha; try done.
  - simpl. apply spdk_event_call_not_exit.
  - by apply spdk_event_allocate_not_exit in Ha.
Qed.

Lemma spdk_poller_migrate_not_exit p l c w : spdk_poller_migrate p l c w ≠ Exit_failure.
Proof.
  unfold spdk_poller_migrate. case_match; [|done].
  destruct (spdk_event_allocate _ _ _ _ _ w) as [[e w1]| | |] eqn:Ha; try done.
  - simpl. apply spdk_poller_unregister_not_exit.
  - by apply spdk_event_allocate_not_exit in Ha.
Qed.

Lemma run_api_not_exit c w : run_api c w ≠ Exit_failure.
Proof.
  destruct c; unfold run_api; try done;
    (match goal with |- context [allocate_chain ?c w] =>
       destruct (allocate_chain c w) as [w1| | |] eqn:Ha end; try done;
     [simpl|by apply allocate_chain_not_exit in Ha]).
  - apply spdk_event_call_not_exit.
  - apply spdk_poller_register_not_exit.
  - apply spdk_poller_unregister_not_exit.
  - apply spdk_poller_migrate_not_exit.
Qed.

Lemma run_script_not_exit s : ∀ w, run_script s w ≠ Exit_failure.
Proof.
  induction s as [|c s IH]; intros w; simpl; [done|].
  destruct (run_api c w) as [w1| | |] eqn:Hc; try done; [apply IH|].
  by apply run_api_not_exit in Hc.
Qed.

Section safety.

Variable user_fn : nat → spdk_event → world → list api_call.
Variable poller_fn : nat → world → list api_call.

Lemma next_fit next w :
  pollers_fit w →
  match next with Some e => spdk_event_call e w | None => Ok w end ≠ Exit_failure
  ∧ ∀ w', match next with Some e => spdk_event_call e w | None => Ok w end = Ok w' →
          pollers_fit w'.
Proof.
  intros Hfit. destruct next as [e|].
  - split; [apply spdk_event_call_not_exit|].
    intros w' H%spdk_event_call_posts. by eapply pollers_fit_posts.
  - split; [done|]. by intros w' [= <-].
Qed.

Lemma event_fn_call_fit cur e w :
  pollers_fit w →
  event_fn_call user_fn cur e w ≠ Exit_failure
  ∧ ∀ w', event_fn_call user_fn cur e w = Ok w' → pollers_fit w'.
Proof.
  intros Hfit. unfold event_fn_call. destruct (ev_fn e).
  - unfold _spdk_event_add_poller.
    destruct (ev_arg1 e) as [|r| |]; try done. destruct (ev_arg2 e) as [| |p|]; try done.
    unfold reactor_load. destruct (g_reactors w !! r) as [reactor|] eqn:Hl; [|done]. simpl.
    destruct (active_pollers reactor) as [ring|] eqn:Hr; [|done].
    apply next_fit.
    assert (Hfit1 : pollers_fit (set_poller_lcore p (lcore reactor) w)) by done.
    destruct (rte_ring_enqueue ring p) as [ring'|] eqn:He; [|done].
    apply pollers_fit_set_active_pollers; [|done].
    unfold rte_ring_enqueue in He. destruct (N.ltb_spec (N.of_nat (rte_ring_count ring)) (ring_capacity ring)); [|done].
    injection He as <-. unfold rte_ring_count in *. simpl. rewrite length_app. simpl. lia.
  - unfold _spdk_event_remove_poller.
    destruct (ev_arg1 e) as [|r| |]; try done. destruct (ev_arg2 e) as [| |p|]; try done.
    unfold reactor_load. destruct (g_reactors w !! r) as [reactor|] eqn:Hl; [|done]. simpl.
    destruct (active_pollers reactor) as [[cap l]|] eqn:Hr; [|done].
    pose proof (Hfit _ _ _ Hl Hr) as Hcap. unfold rte_ring_count in Hcap. simpl in Hcap.
    destruct (remove_poller_walk_rotates (length l) cap l 0 [] p Hcap ltac:(lia))
      as (l' & seen & -> & Hlen & _).
    simpl. apply next_fit. apply pollers_fit_set_active_pollers; [|done].
    unfold rte_ring_count. simpl. lia.
  - unfold _spdk_poller_migrate. destruct (ev_arg1 e); try done.
    split; [apply spdk_poller_register_not_exit|].
    intros w' H%spdk_poller_register_posts. by eapply pollers_fit_posts.
  - split; [apply run_script_not_exit|].
    intros w' H%run_script_posts. by eapply pollers_fit_posts.
Qed.

Lemma run_step_fit s w :
  pollers_fit w →
  run_step user_fn poller_fn s w ≠ Exit_failure
  ∧ ∀ w', run_step user_fn poller_fn s w = Ok w' → pollers_fit w'.
Proof.
  intros Hfit. destruct s as [n|n|n]; simpl.
  - unfold spdk_event_queue_run_single.
    unfold reactor_load. destruct (g_reactors w !! n) as [r|] eqn:Hl; [|done]. simpl.
    destruct (events r) as [q|]; [|done].
    destruct (rte_ring_dequeue q) as [[e q']|]; [|split; [done|by intros w' [= <-]]].
    destruct (event_fn_call_fit n e (observe (Obs_event_fn e) (set_events n q' w))) as [Hne Hok].
    { eapply pollers_fit_same; [|exact Hfit]. intros m. cbn [g_reactors observe].
      rewrite lookup_set_events. destruct (decide (n = m)) as [<-|_]; [|done].
      by destruct (g_reactors w !! n). }
    destruct (event_fn_call _ _ _ _) as [w2| | |] eqn:Hcall; try done. simpl.
    unfold spdk_event_free. destruct (g_spdk_event_mempool w2); [|done].
    split; [done|]. intros w' [= <-].
    eapply pollers_fit_same; [|by apply Hok]. done.
  - split; [done|]. by intros w' [= <-].
  - destruct (g_reactors w !! n) as [r|] eqn:Hn.
    2: { unfold reactor_poll, reactor_load. by rewrite Hn. }
    destruct (active_pollers r) as [[cap [|p rest]]|] eqn:Hr.
    + rewrite (reactor_poll_nil _ _ _ _ _ Hn Hr). split; [done|]. by intros w' [= <-].
    + rewrite (reactor_poll_cons _ _ _ _ _ _ _ Hn Hr). cbn zeta.
      pose proof (Hfit _ _ _ Hn Hr) as Hcap. unfold rte_ring_count in Hcap. simpl in Hcap.
      destruct (run_script _ _) as [w2| | |] eqn:Hs; try done; simpl.
      2: { by apply run_script_not_exit in Hs. }
      destruct (N.ltb_spec (N.of_nat (length rest)) cap); [|lia].
      split; [done|]. intros w' [= <-].
      apply pollers_fit_set_active_pollers.
      { unfold rte_ring_count. simpl. rewrite length_app. simpl. lia. }
      apply run_script_posts in Hs. eapply pollers_fit_posts; [exact Hs|].
      apply pollers_fit_set_active_pollers; [|done].
      unfold rte_ring_count. simpl. lia.
    + unfold reactor_poll, reactor_load. rewrite Hn. simpl. by rewrite Hr.
Qed.

Lemma run_steps_fit steps : ∀ w,
  pollers_fit w →
  run_steps user_fn poller_fn steps w ≠ Exit_failure
  ∧ ∀ w', run_steps user_fn poller_fn steps w = Ok w' → pollers_fit w'.
Proof.
  induction steps as [|s steps IH]; intros w Hfit; simpl.
  - split; [done|]. by intros w' [= <-].
  - destruct (run_step_fit s w Hfit) as [Hne Hok].
    destruct (run_step _ _ s w) as [w1| | |]; try done. simpl. apply IH. by apply Hok.
Qed.

(** X4: the two calls of [exit(EXIT_FAILURE)] of the file, behind the
    re-enqueue of the poll and of the removal walk, are never reached.
    As long as every poller ring holds no more than its capacity (rings
    do, and every step keeps it so), no run of reactor steps and no
    reactor loop ends in [exit], whatever the callbacks post. *)
Theorem reactor_never_exits steps fuel cur w :
  pollers_fit w →
  run_steps user_fn poller_fn steps w ≠ Exit_failure
  ∧ (∀ w', run_steps user_fn poller_fn steps w = Ok w' → pollers_fit w')
  ∧ _spdk_reactor_run user_fn poller_fn fuel cur cur w ≠ Returned Exit_failure.
Proof.
  intros Hfit. destruct (run_steps_fit steps w Hfit) as [H1 H2].
  split; [done|]. split; [done|]. clear H1 H2.
  revert w Hfit. induction fuel as [|fuel IH]; intros w Hfit; [done|].
  rewrite _spdk_reactor_run_step, reactor_iteration_steps.
  destruct (run_steps_fit (replicate (length (events_of cur w)) (Step_event cur)
                           ++ [Step_timer cur; Step_poll cur]) w Hfit) as [H1 H2].
  destruct (run_steps _ _ _ w) as [w1| | |]; try done.
  case_decide; [|done]. apply IH. by apply H2.
Qed.

End safety.

(** ** The migration protocol, among other things *)

Lemma keeps_refl P E w : keeps P E w w.
Proof.
  split; [done|]. split; [done|]. split; [done|].
  intros n. exists []. by rewrite app_nil_r.
Qed.

Lemma keeps_trans P E w1 w2 w3 : keeps P E w1 w2 → keeps P E w2 w3 → keeps P E w1 w3.
Proof.
  intros (Ht1 & Hl1 & Ho1 & He1) (Ht2 & Hl2 & Ho2 & He2).
  split; [congruence|]. split; [congruence|]. split; [intros n; by rewrite Ho2|].
  intros n. destruct (He1 n) as (a1 & H1 & Hf1). destruct (He2 n) as (a2 & H2 & Hf2).
  exists (a1 ++ a2). split; [by rewrite H2, H1, app_assoc|]. by apply Forall_app.
Qed.

Lemma apart_poller P E e : apart P E e → poller_of_event e ≠ Some P.
Proof. destruct e as [l fn a1 a2 next]. simpl. by intros [? _]. Qed.

Lemma apart_next P E e :
  apart P E e →
  match ev_fn e with Fn_user _ => True | _ => foreign_next P E (ev_next e) end.
Proof.
  destruct e as [l fn a1 a2 [n|]]; simpl; intros [_ H]; destruct fn; done.
Qed.

Lemma posts_keeps P E w w' :
  posts w w' →
  (∀ n, ∃ added, events_of n w' = events_of n w ++ added ∧ Forall (foreign P E) added) →
  keeps P E w w'.
Proof.
  intros Hposts Hev. pose proof (posts_rings_same _ _ Hposts) as Hsame.
  destruct Hposts as ((Ht & _) & Hpl & _).
  split; [done|]. split; [by rewrite Hpl|]. split; [|done].
  intros n. by rewrite (rings_same_pollers_of _ _ n Hsame).
Qed.

Lemma events_of_allocate_chain c w w' n :
  allocate_chain c w = Ok w' → events_of n w' = events_of n w.
Proof.
  unfold allocate_chain, allocate_records. destruct c as [e|]; [|by intros [= <-]].
  destruct (g_spdk_event_mempool w); repeat case_match; try done; by intros [= <-].
Qed.

(** The event a call of [spdk_event_call] has queued. *)
Lemma spdk_event_call_keeps P E e w w' :
  foreign P E e → spdk_event_call e w = Ok w' → keeps P E w w'.
Proof.
  intros He Hcall. apply posts_keeps; [by eapply spdk_event_call_posts|].
  intros n. rewrite (events_of_spdk_event_call _ _ _ n Hcall).
  exists (if decide (n = ev_lcore e) then [e] else []). split; [done|].
  case_decide; [by apply Forall_singleton|by apply Forall_nil].
Qed.

Lemma spdk_event_allocate_keeps P E l fn a1 a2 next w e w' :
  spdk_event_allocate l fn a1 a2 next w = Ok (e, w') → keeps P E w w'.
Proof.
  intros Ha. apply posts_keeps; [by apply spdk_event_allocate_posts in Ha as [_ ?]|].
  intros n. rewrite (events_of_spdk_event_allocate _ _ _ _ _ _ _ _ n Ha).
  exists []. by rewrite app_nil_r.
Qed.

Lemma allocate_chain_keeps P E c w w' : allocate_chain c w = Ok w' → keeps P E w w'.
Proof.
  intros Ha. apply posts_keeps; [by eapply allocate_chain_posts|].
  intros n. rewrite (events_of_allocate_chain _ _ _ n Ha). exists []. by rewrite app_nil_r.
Qed.

Section foreign.

Variables P : nat.
Variable E : spdk_event.
Variable k : nat.
Hypothesis E_fn : ev_fn E = Fn_user k.

Lemma control_event_foreign l fn a1 a2 next :
  (∀ id, fn ≠ Fn_user id) →
  poller_of_event (Event l fn a1 a2 next) ≠ Some P →
  foreign_next P E next →
  foreign P E (Event l fn a1 a2 next).
Proof using E_fn.
  intros Hfn Hp Hnext. split.
  - intros HE. apply (f_equal ev_fn) in HE. rewrite E_fn in HE. simpl in HE.
    by destruct (Hfn k).
  - split; [done|]. destruct fn; try done; by destruct next as [n|]; [destruct Hnext|].
Qed.

Lemma spdk_poller_register_keeps q l c w w' :
  q ≠ P → foreign_next P E c →
  spdk_poller_register q l c w = Ok w' → keeps P E w w'.
Proof using E_fn.
  intros Hq Hc. unfold spdk_poller_register.
  destruct (spdk_event_allocate _ _ _ _ _ w) as [[e w1]| | |] eqn:Ha; try done. simpl.
  pose proof (spdk_event_allocate_posts _ _ _ _ _ _ _ _ Ha) as [-> _].
  apply (spdk_event_allocate_keeps P E) in Ha. intros Hcall.
  eapply keeps_trans; [exact Ha|]. eapply spdk_event_call_keeps; [|exact Hcall].
  apply control_event_foreign; [done| |done]. unfold poller_of_event. simpl. congruence.
Qed.

Lemma spdk_poller_unregister_keeps q c w w' :
  q ≠ P → foreign_next P E c →
  spdk_poller_unregister q c w = Ok w' → keeps P E w w'.
Proof using E_fn.
  intros Hq Hc. unfold spdk_poller_unregister. destruct (poller_lcore w !! q) as [l|]; [|done].
  destruct (spdk_event_allocate _ _ _ _ _ w) as [[e w1]| | |] eqn:Ha; try done. simpl.
  pose proof (spdk_event_allocate_posts _ _ _ _ _ _ _ _ Ha) as [-> _].
  apply (spdk_event_allocate_keeps P E) in Ha. intros Hcall.
  eapply keeps_trans; [exact Ha|]. eapply spdk_event_call_keeps; [|exact Hcall].
  apply control_event_foreign; [done| |done]. unfold poller_of_event. simpl. congruence.
Qed.

Lemma spdk_poller_migrate_keeps q l c w w' :
  q ≠ P → foreign_next P E c →
  spdk_poller_migrate q l c w = Ok w' → keeps P E w w'.
Proof using E_fn.
  intros Hq Hc. unfold spdk_poller_migrate. destruct (mask_has _ _); [|done].
  destruct (spdk_event_allocate _ _ _ _ _ w) as [[e w1]| | |] eqn:Ha; try done. simpl.
  pose proof (spdk_event_allocate_posts _ _ _ _ _ _ _ _ Ha) as [-> _].
  apply (spdk_event_allocate_keeps P E) in Ha. intros Hun.
  eapply keeps_trans; [exact Ha|]. eapply spdk_poller_unregister_keeps; [done| |exact Hun].
  simpl. apply control_event_foreign; [done| |done]. unfold poller_of_event. simpl. congruence.
Qed.

Lemma run_api_keeps c w w' :
  foreign_call P E c → run_api c w = Ok w' → keeps P E w w'.
Proof using E_fn.
  destruct c as [e|q l c|q c|q l c|]; unfold run_api; intros Hc; simpl in Hc;
    try (destruct (allocate_chain _ w) as [w1| | |] eqn:Ha; try done;
         apply (allocate_chain_keeps P E) in Ha; unfold mbind, result_bind;
         intros Hrun; eapply keeps_trans; [exact Ha|]).
  - by eapply spdk_event_call_keeps.
  - destruct Hc. by eapply spdk_poller_register_keeps.
  - destruct Hc. by eapply spdk_poller_unregister_keeps.
  - destruct Hc. by eapply spdk_poller_migrate_keeps.
  - intros [= <-]. apply posts_keeps; [apply spdk_reactors_stop_posts|].
    intros n. exists []. by rewrite app_nil_r.
Qed.

Lemma run_script_keeps s : ∀ w w',
  Forall (foreign_call P E) s → run_script s w = Ok w' → keeps P E w w'.
Proof using E_fn.
  induction s as [|c s IH]; simpl; intros w w' Hs.
  - intros [= <-]. apply keeps_refl.
  - inversion Hs as [|?? Hc Hs']; subst.
    destruct (run_api c w) as [w1| | |] eqn:Hrun; try done. simpl.
    intros Hrest. eapply keeps_trans; [by eapply run_api_keeps|by eapply IH].
Qed.

End foreign.

(** ** Where [P] is, and what leaves it there *)

Lemma occurrences_filter_ne (p q : nat) l :
  q ≠ p → occurrences p (filter (λ x, x ≠ q) l) = occurrences p l.
Proof.
  intros Hq. induction l as [|x l IH]; [done|].
  rewrite filter_cons. destruct (decide (x ≠ q)) as [Hx|Hx].
  - by rewrite !occurrences_cons, IH.
  - rewrite occurrences_cons, IH. apply dec_stable in Hx. subst x.
    by rewrite decide_False.
Qed.

(** The removal walk for another poller leaves [p] in the ring as often
    as it was. *)
Lemma remove_poller_walk_occurrences (p q : nat) cap l ring' seen :
  q ≠ p →
  (N.of_nat (length l) ≤ cap)%N →
  remove_poller_walk q 0 (Ring cap l) [] = Ok (ring', seen) →
  occurrences p (ring_entries ring') = occurrences p l.
Proof.
  intros Hq Hcap Hwalk.
  destruct (remove_poller_walk_rotates (length l) cap l 0 [] q Hcap ltac:(lia))
    as (l' & seen' & Hw & _ & s1 & s2 & H1 & H2).
  rewrite Hw in Hwalk. injection Hwalk as <- <-. simpl.
  rewrite <- (occurrences_filter_ne p q l'), <- (occurrences_filter_ne p q l) by done.
  rewrite H1, H2, !occurrences_app. lia.
Qed.

(** The removal walk for a poller that is in the ring once takes it
    out. *)
Lemma remove_poller_walk_gone (p : nat) cap l ring' seen :
  occurrences p l = 1 →
  (N.of_nat (length l) ≤ cap)%N →
  remove_poller_walk p 0 (Ring cap l) [] = Ok (ring', seen) →
  occurrences p (ring_entries ring') = 0.
Proof.
  intros (pre & post & -> & Hpre & Hpost)%occurrences_1_split Hcap.
  rewrite remove_poller_walk_found; [|done|done| |lia].
  2: { rewrite length_app in Hcap. simpl in Hcap. lia. }
  intros [= <- <-]. simpl. apply occurrences_0. rewrite elem_of_app.
  intros [Hin%subseteq_drop | Hin%subseteq_take];
    apply elem_of_app in Hin as [? | ?]; done.
Qed.

Lemma pollers_of_ring n w l :
  pollers_of n w = l → l ≠ [] →
  ∃ r cap, g_reactors w !! n = Some r ∧ active_pollers r = Some (Ring cap l).
Proof.
  unfold pollers_of. destruct (g_reactors w !! n) as [[lc [[cap l']|] q]|]; try done;
    intros <- Hne; try done. by eexists _, _.
Qed.

Lemma occurrences_nil p : occurrences p [] = 0.
Proof. done. Qed.

Lemma own_number_extends n w w' : extends w w' → own_number n w → own_number n w'.
Proof.
  intros (_ & _ & Hr) Hown r' Hn'. specialize (Hr n). rewrite Hn' in Hr.
  destruct (g_reactors w !! n) as [r|] eqn:Hn; [|done]. simpl in Hr.
  destruct Hr as [-> _]. by apply Hown.
Qed.

Lemma own_number_set_events n m q w : own_number n w → own_number n (set_events m q w).
Proof.
  intros Hown r' Hn'. rewrite lookup_set_events in Hn'.
  destruct (decide (m = n)) as [->|]; [|by apply Hown].
  destruct (g_reactors w !! n) as [r|] eqn:Hn; simplify_eq/=. by apply Hown.
Qed.

Lemma own_number_set_active_pollers n m ring w :
  own_number n w → own_number n (set_active_pollers m ring w).
Proof.
  intros Hown r' Hn'. rewrite lookup_set_active_pollers in Hn'.
  destruct (decide (m = n)) as [->|]; [|by apply Hown].
  destruct (g_reactors w !! n) as [r|] eqn:Hn; simplify_eq/=. by apply Hown.
Qed.

Lemma control_log_app P t1 t2 : control_log P (t1 ++ t2) = control_log P t1 ++ control_log P t2.
Proof. unfold control_log. by rewrite flat_map_app. Qed.

Lemma queue_ok_app P E pending n q added :
  queue_ok P E pending n q → Forall (foreign P E) added → queue_ok P E pending n (q ++ added).
Proof.
  unfold queue_ok. intros Hq Ha. destruct pending as [[c x]|]; [|by apply Forall_app].
  destruct (decide (n = c)); [|by apply Forall_app].
  destruct Hq as (l1 & l2 & -> & H1 & H2). exists l1, (l2 ++ added).
  split; [by rewrite <- app_assoc|]. split; [done|]. by apply Forall_app.
Qed.

Lemma queue_ok_pop P E pending n e rest :
  (∀ c x, pending = Some (c, x) → ¬ foreign P E x) →
  queue_ok P E pending n (e :: rest) → foreign P E e → queue_ok P E pending n rest.
Proof.
  unfold queue_ok. intros Hx Hq He. destruct pending as [[c x]|].
  - destruct (decide (n = c)).
    + destruct Hq as ([|e1 l1] & l2 & Heq & H1 & H2); simpl in Heq.
      * injection Heq as <- <-. by destruct (Hx c e).
      * injection Heq as -> ->. exists l1, l2. split; [done|]. split; [|done].
        by inversion H1.
    + by inversion Hq.
  - by inversion Hq.
Qed.

(** The head of a queue leaves the migration alone, or it is the
    pending event of the migration with such events behind it. *)
Lemma queue_ok_head P E pending n e rest :
  queue_ok P E pending n (e :: rest) →
  foreign P E e ∨ (pending = Some (n, e) ∧ Forall (foreign P E) rest).
Proof.
  unfold queue_ok. intros Hq. destruct pending as [[c x]|].
  - destruct (decide (n = c)) as [-> | ].
    + destruct Hq as ([|e1 l1] & l2 & Heq & H1 & H2); simpl in Heq.
      * injection Heq as -> ->. by right.
      * injection Heq as -> ->. left. by inversion H1.
    + left. by inversion Hq.
  - left. by inversion Hq.
Qed.

(** The queues once the pending event has been taken from the head of
    its queue, and once the next one has been put at the tail of its. *)
Lemma queue_ok_next P E c x n q :
  Forall (foreign P E) q →
  queue_ok P E (Some (c, x)) n (q ++ (if decide (n = c) then [x] else [])).
Proof.
  intros Hq. unfold queue_ok. destruct (decide (n = c)).
  - exists q, []. done.
  - by rewrite app_nil_r.
Qed.

Section migration.

Variable user_fn : nat → spdk_event → world → list api_call.
Variable poller_fn : nat → world → list api_call.
Variables k P A M : nat.
Variable E : spdk_event.
Variable w0 : world.

Hypothesis E_fn : ev_fn E = Fn_user k.
Hypothesis M_ne_A : M ≠ A.
Hypothesis user_foreign : ∀ id e w, Forall (foreign_call P E) (user_fn id e w).
Hypothesis poller_foreign : ∀ p w, Forall (foreign_call P E) (poller_fn p w).

Lemma pending_not_foreign ph c x :
  phase_pending P A M E ph = Some (c, x) → ¬ foreign P E x.
Proof using All.
  destruct ph; simpl; intros [= <- <-] [Hne Hap]; try done;
    unfold remove_event, migrate_event, add_event in Hap; simpl in Hap;
    destruct Hap as [Hp _]; by apply Hp.
Qed.

Lemma pending_not_E ph c x :
  phase_pending P A M E ph = Some (c, x) → ph ≠ Completing →
  Obs_event_fn E ≠ Obs_event_fn x ∧ control_log P [Obs_event_fn x; Obs_event_free x] = [ev_fn x].
Proof using All.
  destruct ph; simpl; intros [= <- <-] Hph; try done;
    (split; [intros [= HE]; apply (f_equal ev_fn) in HE; by rewrite E_fn in HE|]);
    unfold control_log; simpl; unfold poller_of_event; simpl; by rewrite decide_True.
Qed.

Lemma foreign_obs e :
  foreign P E e →
  Obs_event_fn E ≠ Obs_event_fn e ∧ control_log P [Obs_event_fn e; Obs_event_free e] = [].
Proof using All.
  intros [Hne Hp%apart_poller]. split; [congruence|].
  unfold control_log. simpl. by rewrite decide_False.
Qed.

Lemma poller_ok_keep ph w w' :
  poller_lcore w' !! P = poller_lcore w !! P →
  (∀ n, occurrences P (pollers_of n w') = occurrences P (pollers_of n w)) →
  poller_ok P A M ph w → poller_ok P A M ph w'.
Proof using All.
  intros Hl Ho. destruct ph; simpl.
  - intros [H1 H2]. rewrite Ho. split; [done|]. intros n Hn. rewrite Ho. by apply H2.
  - intros H1 n. rewrite Ho. apply H1.
  - intros H1 n. rewrite Ho. apply H1.
  - intros (H1 & H2 & H3). rewrite Hl, Ho. split; [done|]. split; [done|].
    intros n Hn. rewrite Ho. by apply H3.
  - intros (H1 & H2 & H3). rewrite Hl, Ho. split; [done|]. split; [done|].
    intros n Hn. rewrite Ho. by apply H3.
Qed.

(** The callback of an event that leaves the migration alone. *)
Lemma event_fn_call_keeps cur e w w' :
  foreign P E e → pollers_fit w →
  event_fn_call user_fn cur e w = Ok w' → keeps P E w w'.
Proof using All.
  intros [_ Hapart] Hfit. pose proof (apart_next _ _ _ Hapart) as Hnext.
  apply apart_poller in Hapart as Hp.
  unfold event_fn_call. unfold poller_of_event in Hp.
  destruct (ev_fn e) eqn:Hfn.
  - unfold _spdk_event_add_poller.
    destruct (ev_arg1 e) as [|r| |]; try done. destruct (ev_arg2 e) as [| |q|]; try done.
    assert (Hq : q ≠ P) by congruence.
    unfold reactor_load. destruct (g_reactors w !! r) as [reactor|] eqn:Hr; [|done]. simpl.
    destruct (active_pollers reactor) as [[cap l]|] eqn:Hring; [|done].
    intros Hcall.
    assert (Hk : keeps P E w
                   (match rte_ring_enqueue (Ring cap l) q with
                    | Some ring' => set_active_pollers r ring' (set_poller_lcore q (lcore reactor) w)
                    | None => set_poller_lcore q (lcore reactor) w
                    end)).
    { assert (Hk1 : keeps P E w (set_poller_lcore q (lcore reactor) w)).
      { split; [done|]. split; [by apply lookup_insert_ne|]. split; [done|].
        intros n. exists []. by rewrite app_nil_r. }
      unfold rte_ring_enqueue. destruct (_ <? _)%N; [|done].
      eapply keeps_trans; [exact Hk1|].
      split; [done|]. split; [done|]. split.
      - intros n. erewrite pollers_of_set_active_pollers by exact Hr.
        destruct (decide (r = n)) as [<-|]; [|done]. simpl.
        change (pollers_of r (set_poller_lcore ?a ?b ?v)) with (pollers_of r v).
        rewrite (pollers_of_lookup _ _ _ _ _ Hr Hring).
        rewrite occurrences_app, occurrences_cons, decide_False by done. simpl.
        rewrite occurrences_nil. lia.
      - intros n. rewrite events_of_set_active_pollers. exists []. by rewrite app_nil_r. }
    eapply keeps_trans; [exact Hk|].
    destruct (ev_next e) as [next|]; [|injection Hcall as <-; apply keeps_refl].
    by eapply spdk_event_call_keeps.
  - unfold _spdk_event_remove_poller.
    destruct (ev_arg1 e) as [|r| |]; try done. destruct (ev_arg2 e) as [| |q|]; try done.
    assert (Hq : q ≠ P) by congruence.
    unfold reactor_load. destruct (g_reactors w !! r) as [reactor|] eqn:Hr; [|done]. simpl.
    destruct (active_pollers reactor) as [[cap l]|] eqn:Hring; [|done].
    destruct (remove_poller_walk q 0 (Ring cap l) []) as [[ring' seen]| | |] eqn:Hwalk;
      try done. simpl. intros Hcall.
    pose proof (Hfit _ _ _ Hr Hring) as Hcap. unfold rte_ring_count in Hcap. simpl in Hcap.
    apply (remove_poller_walk_occurrences P q) in Hwalk; [|done..].
    assert (Hk : keeps P E w (set_active_pollers r ring' w)).
    { split; [done|]. split; [done|]. split.
      - intros n. erewrite pollers_of_set_active_pollers by exact Hr.
        destruct (decide (r = n)) as [<-|]; [|done].
        by rewrite Hwalk, (pollers_of_lookup _ _ _ _ _ Hr Hring).
      - intros n. rewrite events_of_set_active_pollers. exists []. by rewrite app_nil_r. }
    eapply keeps_trans; [exact Hk|].
    destruct (ev_next e) as [next|]; [|injection Hcall as <-; apply keeps_refl].
    by eapply spdk_event_call_keeps.
  - unfold _spdk_poller_migrate. destruct (ev_arg1 e) as [| |q|]; try done.
    assert (Hq : q ≠ P) by congruence.
    by apply spdk_poller_register_keeps with (k := k).
  - apply run_script_keeps with (k := k); [done|apply user_foreign].
Qed.

Lemma migrate_inv_timer ph n w :
  migrate_inv P A M E w0 ph w → migrate_inv P A M E w0 ph (rte_timer_manage n w).
Proof using All.
  intros ((t & Ht & Hlog & HnE) & Hq & Hp & Hfit & Hown).
  split; [|split; [exact Hq|split; [exact Hp|split; [exact Hfit|exact Hown]]]].
  exists (t ++ [Obs_timer n]). simpl. rewrite Ht, app_assoc. split; [done|].
  rewrite control_log_app. simpl. rewrite app_nil_r. split; [done|].
  intros Hph. rewrite not_elem_of_app, list_elem_of_singleton. split; [by apply HnE|done].
Qed.

Lemma migrate_inv_poll ph n w w' :
  migrate_inv P A M E w0 ph w →
  reactor_poll poller_fn n w = Ok w' →
  migrate_inv P A M E w0 ph w'.
Proof using All.
  intros Hinv Hpoll.
  assert (Hfit' : pollers_fit w').
  { destruct Hinv as (_ & _ & _ & Hfit & _).
    by apply (run_step_fit user_fn poller_fn (Step_poll n) w Hfit). }
  apply reactor_poll_Ok in Hpoll
    as [[_ ->] | (p & rest & cap & r & w2 & Hn & Hr & Hcap & Hs & ->)]; [done|].
  destruct Hinv as ((t & Ht & Hlog & HnE) & Hq & Hp & Hfit & Hown).
  set (w1 := observe (Obs_poller_fn p) (set_active_pollers n (Ring cap rest) w)) in *.
  pose proof (run_script_posts _ _ _ Hs) as Hposts.
  apply run_script_keeps with (P := P) (E := E) (k := k) in Hs
    as (Htr & Hpl & Hocc & Hadded); [|done|apply poller_foreign].
  assert (Hn2 : ∃ r2, g_reactors w2 !! n = Some r2).
  { destruct Hposts as (_ & _ & _ & Hsl). specialize (Hsl n). cbn [g_reactors observe w1] in Hsl.
    rewrite lookup_set_active_pollers, decide_True, Hn in Hsl by done. simpl in Hsl.
    destruct (g_reactors w2 !! n) as [r2|]; [|done]. by exists r2. }
  destruct Hn2 as (r2 & Hn2).
  split; [|split; [|split; [|split; [done|]]]].
  - exists (t ++ [Obs_poller_fn p]). simpl in *. rewrite Htr. simpl. rewrite Ht, app_assoc.
    split; [done|].
    rewrite control_log_app. simpl. rewrite app_nil_r. split; [done|].
    intros Hph. rewrite not_elem_of_app, list_elem_of_singleton. split; [by apply HnE|done].
  - intros m. rewrite events_of_set_active_pollers.
    destruct (Hadded m) as (added & -> & Hforeign).
    apply queue_ok_app; [|done].
    change (events_of m w1) with (events_of m (set_active_pollers n (Ring cap rest) w)).
    rewrite events_of_set_active_pollers. apply Hq.
  - apply (poller_ok_keep ph w); [exact Hpl| |done].
    intros m. erewrite pollers_of_set_active_pollers by exact Hn2. simpl.
    destruct (decide (n = m)) as [<- | Hne].
    + rewrite (pollers_of_lookup _ _ _ _ _ Hn Hr).
      rewrite occurrences_app, !occurrences_cons, occurrences_nil. lia.
    + rewrite Hocc.
      change (pollers_of m w1) with (pollers_of m (set_active_pollers n (Ring cap rest) w)).
      erewrite pollers_of_set_active_pollers by exact Hn. by rewrite decide_False.
  - apply own_number_set_active_pollers.
    eapply own_number_extends; [apply posts_extends, Hposts|].
    by apply (own_number_set_active_pollers M n (Ring cap rest) w).
Qed.


(** *** What the handlers of the migration do *)

Lemma remove_pending w w' :
  occurrences P (pollers_of A w) = 1 → pollers_fit w →
  _spdk_event_remove_poller (remove_event P A M E) w = Ok w' →
  trace w' = trace w
  ∧ poller_lcore w' = poller_lcore w
  ∧ (∀ m, events_of m w'
          = events_of m w ++ (if decide (m = M) then [migrate_event P M E] else []))
  ∧ occurrences P (pollers_of A w') = 0
  ∧ (∀ m, m ≠ A → pollers_of m w' = pollers_of m w).
Proof using All.
  intros Hocc Hfit.
  destruct (pollers_of_ring A w (pollers_of A w) eq_refl) as (r & cap & Hn & Ha).
  { intros Hnil. by rewrite Hnil in Hocc. }
  pose proof (Hfit _ _ _ Hn Ha) as Hcap. unfold rte_ring_count in Hcap. simpl in Hcap.
  unfold _spdk_event_remove_poller, remove_event. simpl.
  apply reactor_load_Ok in Hn as Hload. rewrite Hload. simpl. rewrite Ha.
  destruct (remove_poller_walk P 0 _ []) as [[ring' seen]| | |] eqn:Hwalk; try done. simpl.
  apply remove_poller_walk_gone in Hwalk; [|done..].
  intros Hcall.
  pose proof (spdk_event_call_posts _ _ _ Hcall) as Hposts.
  apply posts_rings_same in Hposts as Hsame.
  destruct Hposts as ((Ht & _) & Hpl & _).
  split; [done|]. split; [done|]. split; [|split].
  - intros m. rewrite (events_of_spdk_event_call _ _ _ m Hcall).
    by rewrite events_of_set_active_pollers.
  - rewrite (rings_same_pollers_of _ _ _ Hsame).
    erewrite pollers_of_set_active_pollers by exact Hn. by rewrite decide_True.
  - intros m Hne. rewrite (rings_same_pollers_of _ _ _ Hsame).
    erewrite pollers_of_set_active_pollers by exact Hn. by rewrite decide_False.
Qed.

Lemma add_pending w w' :
  own_number M w → ring_has_room M w →
  _spdk_event_add_poller (add_event P M E) w = Ok w' →
  trace w' = trace w
  ∧ poller_lcore w' !! P = Some M
  ∧ (∀ m, events_of m w'
          = events_of m w ++ (if decide (m = ev_lcore E) then [E] else []))
  ∧ pollers_of M w' = pollers_of M w ++ [P]
  ∧ (∀ m, m ≠ M → pollers_of m w' = pollers_of m w).
Proof using All.
  intros Hown Hroom. unfold _spdk_event_add_poller, add_event. simpl.
  unfold reactor_load. destruct (g_reactors w !! M) as [r|] eqn:Hn; [|done]. simpl.
  destruct (active_pollers r) as [[cap l]|] eqn:Ha; [|done].
  pose proof (Hroom _ _ Hn Ha) as Hlt. unfold rte_ring_count in Hlt. simpl in Hlt.
  rewrite (Hown _ Hn), rte_ring_enqueue_Some by done. intros Hcall.
  pose proof (spdk_event_call_posts _ _ _ Hcall) as Hposts.
  apply posts_rings_same in Hposts as Hsame.
  destruct Hposts as ((Ht & _) & Hpl & _).
  split; [done|]. split; [|split; [|split]].
  - rewrite Hpl. simpl. apply lookup_insert_eq.
  - intros m. rewrite (events_of_spdk_event_call _ _ _ m Hcall).
    by rewrite events_of_set_active_pollers.
  - rewrite (rings_same_pollers_of _ _ _ Hsame).
    erewrite pollers_of_set_active_pollers by exact Hn. rewrite decide_True by done.
    simpl. by rewrite (pollers_of_lookup _ _ _ _ _ Hn Ha).
  - intros m Hne. rewrite (rings_same_pollers_of _ _ _ Hsame).
    erewrite pollers_of_set_active_pollers by exact Hn. by rewrite decide_False.
Qed.

(** *** The invariant, step by step *)

(** The state after an event has been run, from the state its handler
    has left. *)
Lemma migrate_inv_after_event ph' e w w2 free t :
  trace w = trace w0 ++ t →
  trace w2 = trace w ++ [Obs_event_fn e] →
  control_log P (t ++ [Obs_event_fn e; Obs_event_free e]) = phase_log ph' →
  (ph' ≠ Completed → (Obs_event_fn E ∉ t) ∧ Obs_event_fn E ≠ Obs_event_fn e) →
  (∀ m, queue_ok P E (phase_pending P A M E ph') m (events_of m w2)) →
  poller_ok P A M ph' w2 →
  pollers_fit w2 →
  own_number M w2 →
  migrate_inv P A M E w0 ph' (observe (Obs_event_free e) (set_mempool (Some free) w2)).
Proof using All.
  intros Ht Ht2 Hlog HnE Hq Hp Hfit Hown.
  split; [|split; [exact Hq|split; [|split; [exact Hfit|exact Hown]]]].
  - exists (t ++ [Obs_event_fn e; Obs_event_free e]). simpl. rewrite Ht2, Ht.
    split; [by rewrite <- !app_assoc|]. split; [done|].
    intros [Hn1 Hn2]%HnE. rewrite not_elem_of_app, !not_elem_of_cons.
    split; [done|]. split; [done|]. split; [done|]. apply not_elem_of_nil.
  - by apply (poller_ok_keep ph' w2).
Qed.

Lemma migrate_inv_event ph n w w' :
  migrate_inv P A M E w0 ph w →
  (n = M → head (events_of M w) = Some (add_event P M E) → ring_has_room M w) →
  spdk_event_queue_run_single user_fn n n w = Ok w' →
  ∃ ph', migrate_inv P A M E w0 ph' w'.
Proof using All.
  intros Hinv Hroom [[_ ->] | (e & rest & cap & w2 & free & r & Hn & Hev & Hcall & ->)]
    %spdk_event_queue_run_single_Ok; [by exists ph|].
  destruct Hinv as ((t & Ht & Hlog & HnE) & Hq & Hp & Hfit & Hown).
  set (w1 := observe (Obs_event_fn e) (set_events n (Ring cap rest) w)) in *.
  assert (Hev1 : ∀ m, events_of m w1 = if decide (n = m) then rest else events_of m w).
  { intros m. unfold w1. by erewrite events_of_observe_set_events. }
  assert (Hpo1 : ∀ m, pollers_of m w1 = pollers_of m w).
  { intros m. apply (pollers_of_set_events n (Ring cap rest) w m). }
  assert (Ht1 : trace w1 = trace w ++ [Obs_event_fn e]) by done.
  assert (Hfit1 : pollers_fit w1).
  { eapply pollers_fit_same; [|exact Hfit]. intros m. cbn [g_reactors observe w1].
    rewrite lookup_set_events. destruct (decide (n = m)) as [<-|_]; [|done].
    by rewrite Hn. }
  assert (Hown1 : own_number M w1) by (by apply (own_number_set_events M n (Ring cap rest) w)).
  assert (Hp1 : poller_ok P A M ph w1) by (by apply (poller_ok_keep ph w); [|intros m; rewrite Hpo1|]).
  pose proof (event_fn_call_extends _ _ _ _ _ Hcall) as Hext.
  assert (Hfit2 : pollers_fit w2) by (by apply (event_fn_call_fit user_fn n e w1 Hfit1)).
  assert (Hown2 : own_number M w2) by (by eapply own_number_extends).
  pose proof (Hq n) as Hqn. rewrite Hev in Hqn.
  destruct (queue_ok_head _ _ _ _ _ _ Hqn) as [Hforeign | [Hpend Hrest]].
  - (* an event that leaves the migration alone *)
    exists ph.
    apply event_fn_call_keeps in Hcall as (Htr & Hpl & Hocc & Hadded); [|done..].
    destruct (foreign_obs e Hforeign) as [HneE Hlog0].
    apply (migrate_inv_after_event _ e w w2 free t Ht); [| | | | |done|done].
    + by rewrite Htr.
    + by rewrite control_log_app, Hlog0, app_nil_r.
    + intros Hph. split; [by apply HnE|done].
    + intros m. destruct (Hadded m) as (added & -> & Hfo). apply queue_ok_app; [|done].
      rewrite Hev1. destruct (decide (n = m)) as [<- | _]; [|apply Hq].
      eapply queue_ok_pop; [apply pending_not_foreign|exact Hqn|exact Hforeign].
    + by apply (poller_ok_keep ph w1).
  - (* the pending event of the migration *)
    assert (Hforeign1 : ∀ m, Forall (foreign P E) (events_of m w1)).
    { intros m. rewrite Hev1. destruct (decide (n = m)) as [<- | Hne]; [done|].
      specialize (Hq m). rewrite Hpend in Hq. simpl in Hq. by rewrite decide_False in Hq. }
    destruct ph; simpl in Hpend; try done; injection Hpend as <- <-;
      unfold event_fn_call in Hcall; simpl in Hcall.
    + (* unregister *)
      destruct Hp1 as [HoccA Hnot].
      apply remove_pending in Hcall as (Htr & Hpl & Hevs & HnotA & Hothers); [|done..].
      exists Migrating. apply (migrate_inv_after_event _ _ w w2 free t Ht); [| | | | |done|done].
      * by rewrite Htr.
      * rewrite control_log_app, Hlog.
        by rewrite (proj2 (pending_not_E Unregistering A _ eq_refl ltac:(done))).
      * intros _. split; [by apply HnE|].
        apply (pending_not_E Unregistering A _ eq_refl ltac:(done)).
      * intros m. rewrite Hevs. by apply queue_ok_next.
      * intros m. destruct (decide (m = A)) as [-> | Hne]; [done|].
        rewrite Hothers by done. by apply Hnot.
    + (* migrate *)
      apply _spdk_poller_migrate_migration in Hcall as (Hposts & Hevs).
      apply posts_rings_same in Hposts as Hs2. destruct Hposts as ((Htr & _) & _).
      exists Registering. apply (migrate_inv_after_event _ _ w w2 free t Ht); [| | | | |done|done].
      * by rewrite Htr.
      * rewrite control_log_app, Hlog.
        by rewrite (proj2 (pending_not_E Migrating M _ eq_refl ltac:(done))).
      * intros _. split; [by apply HnE|].
        apply (pending_not_E Migrating M _ eq_refl ltac:(done)).
      * intros m. rewrite Hevs. by apply queue_ok_next.
      * intros m. rewrite (rings_same_pollers_of _ _ _ Hs2). apply Hp1.
    + (* register *)
      assert (Hroom1 : ring_has_room M w1).
      { intros r1 ring Hr1 Hring. cbn [g_reactors observe w1] in Hr1.
        rewrite lookup_set_events, decide_True, Hn in Hr1 by done.
        injection Hr1 as <-. simpl in Hring.
        apply (Hroom eq_refl ltac:(by rewrite Hev) r ring Hn Hring). }
      apply add_pending in Hcall as (Htr & Hlc & Hevs & HpM & Hothers); [|done..].
      exists Completing. apply (migrate_inv_after_event _ _ w w2 free t Ht); [| | | | |done|done].
      * by rewrite Htr.
      * rewrite control_log_app, Hlog.
        by rewrite (proj2 (pending_not_E Registering M _ eq_refl ltac:(done))).
      * intros _. split; [by apply HnE|].
        apply (pending_not_E Registering M _ eq_refl ltac:(done)).
      * intros m. rewrite Hevs. by apply queue_ok_next.
      * split; [done|]. split.
        -- rewrite HpM, occurrences_app, occurrences_cons, decide_True by done.
           rewrite occurrences_nil, (Hp1 M). done.
        -- intros m Hne. rewrite Hothers by done. apply Hp1.
    + (* the completion event *)
      rewrite E_fn in Hcall.
      apply run_script_keeps with (P := P) (E := E) (k := k) in Hcall
        as (Htr & Hpl & Hocc & Hadded); [|done|apply user_foreign].
      exists Completed. apply (migrate_inv_after_event _ _ w w2 free t Ht); [| | | | |done|done].
      * by rewrite Htr.
      * rewrite control_log_app, Hlog. unfold control_log, poller_of_event. simpl.
        by rewrite E_fn.
      * by intros [].
      * intros m. destruct (Hadded m) as (added & -> & Hfo). simpl.
        apply Forall_app. by split.
      * by apply (poller_ok_keep Completing w1).
Qed.

Lemma migrate_inv_steps steps : ∀ ph w w',
  migrate_inv P A M E w0 ph w →
  room_when_run user_fn poller_fn M (add_event P M E) steps w →
  run_steps user_fn poller_fn steps w = Ok w' →
  ∃ ph', migrate_inv P A M E w0 ph' w'.
Proof using All.
  induction steps as [|s steps IH]; simpl; intros ph w w' Hinv Hroom.
  - intros [= <-]. by exists ph.
  - destruct Hroom as [Hroom Hrest].
    destruct (run_step _ _ s w) as [w1| | |] eqn:Hstep; try done. simpl.
    assert (∃ ph1, migrate_inv P A M E w0 ph1 w1) as [ph1 Hinv1].
    { destruct s as [n|n|n]; simpl in Hstep.
      - eapply migrate_inv_event; [exact Hinv| |exact Hstep].
        intros -> Hhead. by apply Hroom.
      - injection Hstep as <-. exists ph. by apply migrate_inv_timer.
      - exists ph. by eapply migrate_inv_poll. }
    apply (IH ph1 w1 w' Hinv1). by apply Hrest.
Qed.

(** The state right after the call of [spdk_poller_migrate]. *)
Lemma migrate_inv_init ws :
  occurrences P (pollers_of A w0) = 1 →
  (∀ n, n ≠ A → P ∉ pollers_of n w0) →
  poller_lcore w0 !! P = Some A →
  (∀ n, Forall (foreign P E) (events_of n w0)) →
  pollers_fit w0 →
  own_number M w0 →
  spdk_poller_migrate P M (Some E) w0 = Ok ws →
  migrate_inv P A M E w0 Unregistering ws.
Proof using All.
  intros HA Hnot Hlc Hforeign Hfit Hown. unfold spdk_poller_migrate.
  destruct (mask_has _ _); [|done].
  destruct (spdk_event_allocate _ _ _ _ _ w0) as [[e1 w1]| | |] eqn:Ha1; try done. simpl.
  pose proof (λ n, events_of_spdk_event_allocate _ _ _ _ _ _ _ _ n Ha1) as Hev1.
  apply spdk_event_allocate_posts in Ha1 as [-> Hp1].
  unfold spdk_poller_unregister.
  destruct Hp1 as (He1 & Hpl1 & Hrest1). rewrite Hpl1, Hlc.
  destruct (spdk_event_allocate _ _ _ _ _ w1) as [[e2 w2]| | |] eqn:Ha2; try done. simpl.
  pose proof (λ n, events_of_spdk_event_allocate _ _ _ _ _ _ _ _ n Ha2) as Hev2.
  apply spdk_event_allocate_posts in Ha2 as [-> Hp2].
  intros Hcall.
  pose proof (λ n, events_of_spdk_event_call _ _ _ n Hcall) as Hev3.
  apply spdk_event_call_posts in Hcall as Hp3.
  assert (Hposts : posts w0 ws).
  { eapply posts_trans; [|exact Hp3]. eapply posts_trans; [|exact Hp2]. by split. }
  apply posts_rings_same in Hposts as Hsame.
  pose proof (pollers_fit_posts _ _ Hposts Hfit) as Hfits.
  pose proof (own_number_extends M _ _ (posts_extends _ _ Hposts) Hown) as Howns.
  destruct Hposts as ((Htr & _) & _).
  split; [|split; [|split; [|split; [done|done]]]].
  - exists []. rewrite app_nil_r. split; [done|]. split; [done|]. intros _. apply not_elem_of_nil.
  - intros n. rewrite Hev3, Hev2, Hev1. apply (queue_ok_next P E A). apply Hforeign.
  - simpl. rewrite (rings_same_pollers_of _ _ _ Hsame). split; [done|].
    intros n Hn. rewrite (rings_same_pollers_of _ _ _ Hsame). apply occurrences_0. by apply Hnot.
Qed.


End migration.

(** ** One poll, one event *)

Lemma spdk_event_call_room e w r cap q :
  g_reactors w !! ev_lcore e = Some r →
  events r = Some (Ring cap q) →
  (N.of_nat (length q) < cap)%N →
  spdk_event_call e w = Ok (set_events (ev_lcore e) (Ring cap (q ++ [e])) w).
Proof.
  intros Hn Hq Hlt. unfold spdk_event_call. apply reactor_load_Ok in Hn. rewrite Hn. simpl.
  rewrite Hq. by rewrite rte_ring_enqueue_Some.
Qed.

Section poll.

Variable poller_fn : nat → world → list api_call.

(** X5: a poll that returns has turned the ring of its core by one
    place, the head going to the tail, whatever the callback of the
    poller did: no other ring and no poller's [lcore] has changed, and
    the event queues have only grown at the tail. *)
Theorem reactor_poll_turns_ring n w w' :
  reactor_poll poller_fn n w = Ok w' →
  pollers_of n w' = head_to_tail (pollers_of n w)
  ∧ (∀ m, m ≠ n → pollers_of m w' = pollers_of m w)
  ∧ poller_lcore w' = poller_lcore w
  ∧ ∀ m, ∃ added, events_of m w' = events_of m w ++ added.
Proof.
  intros [[Hnil ->]|(p & rest & cap & r & w2 & Hn & Hr & Hlt & Hs & ->)]%reactor_poll_Ok.
  - rewrite Hnil. split; [done|]. split; [done|]. split; [done|].
    intros m. exists []. by rewrite app_nil_r.
  - rewrite (pollers_of_lookup _ _ _ _ _ Hn Hr). simpl.
    apply run_script_posts in Hs as Hposts.
    pose proof (posts_rings_same _ _ Hposts) as Hsame.
    destruct Hposts as ((_ & _ & Hq) & Hpl & _ & Hslots).
    assert (Hn2 : is_Some (g_reactors w2 !! n)).
    { specialize (Hslots n). cbn [g_reactors observe] in Hslots.
      rewrite lookup_set_active_pollers, decide_True, Hn in Hslots by done. simpl in Hslots.
      destruct (g_reactors w2 !! n); [by eexists|done]. }
    destruct Hn2 as [r2 Hn2].
    split; [|split; [|split]].
    + erewrite pollers_of_set_active_pollers by exact Hn2. by rewrite decide_True.
    + intros m Hm. erewrite pollers_of_set_active_pollers by exact Hn2.
      rewrite decide_False by done.
      rewrite (rings_same_pollers_of _ _ m Hsame).
      change (pollers_of m (observe ?o ?v)) with (pollers_of m v).
      erewrite pollers_of_set_active_pollers by exact Hn. by rewrite decide_False.
    + simpl. done.
    + intros m. rewrite events_of_set_active_pollers.
      specialize (Hq m). cbn [g_reactors observe] in Hq.
      unfold events_of. rewrite lookup_set_active_pollers in Hq.
      destruct (decide (n = m)) as [<-|_].
      * rewrite Hn in *. simpl in Hq. rewrite Hn2 in *. simpl in Hq. destruct Hq as [_ Hq].
        destruct r as [? ? ev], r2 as [? ? ev2]. simpl in *.
        destruct ev as [q|], ev2 as [q2|]; simpl in Hq; try done.
        -- destruct Hq as [_ [added ->]]. by exists added.
        -- by exists [].
      * destruct (g_reactors w !! m) as [rm|], (g_reactors w2 !! m) as [rm2|]; simpl in Hq; try done.
        -- destruct Hq as [_ Hq]. destruct rm as [? ? ev], rm2 as [? ? ev2]. simpl in *.
           destruct ev as [q|], ev2 as [q2|]; simpl in Hq; try done.
           ++ destruct Hq as [_ [added ->]]. by exists added.
           ++ by exists [].
        -- by exists [].
Qed.

End poll.

Section delivery.

Variable user_fn : nat → spdk_event → world → list api_call.

(** X6: [spdk_event_call] puts the event at the tail of the queue of
    its core and touches nothing else; the next drain of that core
    runs it once, after everything that was queued before it. *)
Theorem spdk_event_call_delivers cur e w w1 :
  spdk_event_call e w = Ok w1 →
  events_of (ev_lcore e) w1 = events_of (ev_lcore e) w ++ [e]
  ∧ (∀ m, m ≠ ev_lcore e → events_of m w1 = events_of m w)
  ∧ (∀ m, pollers_of m w1 = pollers_of m w)
  ∧ g_spdk_event_mempool w1 = g_spdk_event_mempool w
  ∧ trace w1 = trace w
  ∧ ∀ w2, spdk_event_queue_run_all user_fn cur (ev_lcore e) w1 = Ok w2 →
          trace w2 = trace w ++ flat_map event_obs (events_of (ev_lcore e) w) ++ event_obs e.
Proof.
  intros Hcall.
  pose proof (events_of_spdk_event_call e w w1 (ev_lcore e) Hcall) as Hq.
  rewrite decide_True in Hq by done.
  split; [done|]. split; [|split; [|split; [|split]]].
  - intros m Hm. rewrite (events_of_spdk_event_call e w w1 m Hcall).
    rewrite decide_False by done. apply app_nil_r.
  - apply spdk_event_call_Ok in Hcall as (r & q & _ & _ & _ & ->).
    intros m. apply pollers_of_set_events.
  - by apply spdk_event_call_Ok in Hcall as (r & q & _ & _ & _ & ->).
  - by apply spdk_event_call_Ok in Hcall as (r & q & _ & _ & _ & ->).
  - intros w2 [Ht _]%spdk_event_queue_run_all_trace.
    rewrite Ht, Hq, flat_map_app.
    apply spdk_event_call_Ok in Hcall as (r & q & _ & _ & _ & ->). simpl. done.
Qed.

End delivery.

Lemma _spdk_event_add_poller_room w n r cap l p lc next :
  g_reactors w !! n = Some r →
  active_pollers r = Some (Ring cap l) →
  (N.of_nat (length l) < cap)%N →
  _spdk_event_add_poller (Event lc Fn_add_poller (Arg_reactor n) (Arg_poller p) next) w
  = (let w2 := set_active_pollers n (Ring cap (l ++ [p])) (set_poller_lcore p (lcore r) w) in
     match next with Some e => spdk_event_call e w2 | None => Ok w2 end).
Proof.
  intros Hn Hr Hlt. unfold _spdk_event_add_poller. simpl.
  apply reactor_load_Ok in Hn. rewrite Hn. simpl. rewrite Hr.
  by rewrite rte_ring_enqueue_Some.
Qed.

(** ** Registering a poller *)

Section register.

Variable user_fn : nat → spdk_event → world → list api_call.

(** X7: registering a poller, end to end.  [spdk_poller_register] only
    queues an event on the target core: the poller is in no ring yet
    and its [lcore] is not written.  The drain of that core runs the
    handler: the poller goes to the tail of the ring, its [lcore] is
    the core's, the event record is back in the pool, and the
    completion event, when there is one, is at the tail of the queue
    of its own core. *)
Theorem register_then_drain w n r ecap cap l free p complete :
  g_reactors w !! n = Some r →
  events r = Some (Ring ecap []) →
  (0 < ecap)%N →
  active_pollers r = Some (Ring cap l) →
  (N.of_nat (length l) < cap)%N →
  g_spdk_event_mempool w = Some free →
  (0 < free)%N →
  (∀ e, complete = Some e →
     ∃ re qe, g_reactors w !! ev_lcore e = Some re ∧ events re = Some qe
              ∧ (N.of_nat (rte_ring_count qe) < ring_capacity qe)%N) →
  let event := Event n Fn_add_poller (Arg_reactor n) (Arg_poller p) complete in
  ∃ w1 w2,
    spdk_poller_register p n complete w = Ok w1
    ∧ events_of n w1 = [event]
    ∧ (∀ m, pollers_of m w1 = pollers_of m w)
    ∧ poller_lcore w1 = poller_lcore w
    ∧ spdk_event_queue_run_all user_fn n n w1 = Ok w2
    ∧ pollers_of n w2 = l ++ [p]
    ∧ (∀ m, m ≠ n → pollers_of m w2 = pollers_of m w)
    ∧ poller_lcore w2 = <[p := lcore r]> (poller_lcore w)
    ∧ g_spdk_event_mempool w2 = Some free
    ∧ (∀ m, events_of m w2
            = events_of m w ++ match complete with
                               | Some e => if decide (m = ev_lcore e) then [e] else []
                               | None => []
                               end)
    ∧ trace w2 = trace w ++ event_obs event.
Proof.
  intros Hn Hq Hecap Hr Hlt Hpool Hfree Hc event.
  set (wa := set_mempool (Some (free - 1)%N) w).
  set (w1 := set_events n (Ring ecap [event]) wa).
  assert (Hreg : spdk_poller_register p n complete w = Ok w1).
  { unfold spdk_poller_register, spdk_event_allocate. rewrite Hpool.
    destruct (N.eqb_spec free 0); [lia|]. simpl.
    erewrite (spdk_event_call_room _ wa r ecap []); [done|exact Hn|exact Hq|simpl; lia]. }
  set (wb := observe (Obs_event_fn event) (set_events n (Ring ecap []) w1)).
  set (rb := Reactor (lcore r) (active_pollers r) (Some (Ring ecap []))).
  assert (Hnb : g_reactors wb !! n = Some rb).
  { subst wb w1 wa. cbn [g_reactors observe]. rewrite !lookup_set_events, !decide_True by done.
    cbn [g_reactors set_mempool]. rewrite Hn. done. }
  set (wc := set_active_pollers n (Ring cap (l ++ [p])) (set_poller_lcore p (lcore r) wb)).
  assert (Hadd : _spdk_event_add_poller event wb
                 = match complete with Some e => spdk_event_call e wc | None => Ok wc end).
  { subst event. by rewrite (_spdk_event_add_poller_room wb n rb cap l p n complete Hnb Hr Hlt). }
  assert (Hevc : ∀ m, events_of m wc = events_of m w).
  { intros m. subst wc. rewrite events_of_set_active_pollers.
    change (events_of m (set_poller_lcore ?a ?b ?v)) with (events_of m v).
    subst wb. change (events_of m (observe ?o ?v)) with (events_of m v).
    assert (Hn1 : g_reactors w1 !! n = Some (Reactor (lcore r) (active_pollers r) (Some (Ring ecap [event])))).
    { subst w1 wa. rewrite lookup_set_events, decide_True by done.
      cbn [g_reactors set_mempool]. by rewrite Hn. }
    erewrite events_of_set_events by exact Hn1.
    destruct (decide (n = m)) as [<-|Hne].
    - simpl. symmetry. by eapply events_of_lookup.
    - subst w1. erewrite events_of_set_events by (subst wa; exact Hn).
      by rewrite decide_False. }
  assert (Hpc : ∀ m, pollers_of m wc = if decide (n = m) then l ++ [p] else pollers_of m w).
  { intros m. subst wc. erewrite pollers_of_set_active_pollers by exact Hnb.
    destruct (decide (n = m)); [done|].
    change (pollers_of m (set_poller_lcore ?a ?b ?v)) with (pollers_of m v).
    subst wb. change (pollers_of m (observe ?o ?v)) with (pollers_of m v).
    subst w1. by rewrite !pollers_of_set_events. }
  assert (Hnext : ∃ wd, match complete with Some e => spdk_event_call e wc | None => Ok wc end = Ok wd
            ∧ (∀ m, pollers_of m wd = pollers_of m wc)
            ∧ poller_lcore wd = poller_lcore wc
            ∧ g_spdk_event_mempool wd = g_spdk_event_mempool wc
            ∧ trace wd = trace wc
            ∧ ∀ m, events_of m wd = events_of m wc ++ match complete with
                               | Some e => if decide (m = ev_lcore e) then [e] else []
                               | None => []
                               end).
  { destruct complete as [e|].
    2: { exists wc. repeat split; try done. intros m. by rewrite app_nil_r. }
    destruct (Hc e eq_refl) as (re & [ce qe] & Hre & Hqe & Hroom).
    unfold rte_ring_count in Hroom. simpl in Hroom.
    assert (∃ rc qc, g_reactors wc !! ev_lcore e = Some rc ∧ events rc = Some (Ring ce qc)
                     ∧ (N.of_nat (length qc) < ce)%N) as (rc & qc & Hrc & Hqc & Hroomc).
    { subst wc wb w1 wa. cbn [g_reactors observe set_poller_lcore].
      rewrite lookup_set_active_pollers. cbn [g_reactors observe set_poller_lcore].
      rewrite !lookup_set_events. cbn [g_reactors set_mempool].
      destruct (decide (n = ev_lcore e)) as [Heq|Hne].
      - rewrite <- Heq in Hre. rewrite !decide_True by done. rewrite Hn in Hre |- *.
        injection Hre as <-. rewrite Hq in Hqe. injection Hqe as <- <-. simpl.
        eexists _, _. split; [done|]. simpl. split; [done|]. simpl. lia.
      - rewrite Hre. eexists _, _. split; [done|]. split; [exact Hqe|done]. }
    erewrite spdk_event_call_room; [|exact Hrc|exact Hqc|exact Hroomc].
    eexists. split; [done|]. split; [|split; [done|split; [done|split; [done|]]]].
    - intros m. apply pollers_of_set_events.
    - intros m. erewrite events_of_set_events by exact Hrc.
      destruct (decide (ev_lcore e = m)) as [<-|Hne].
      + rewrite decide_True by done. simpl. f_equal. symmetry. by eapply events_of_lookup.
      + rewrite decide_False by done. by rewrite app_nil_r. }
  destruct Hnext as (wd & Hnext & Hpd & Hld & Hmd & Htd & Hed).
  exists w1, (observe (Obs_event_free event) (set_mempool (Some (free - 1 + 1)%N) wd)).
  split; [done|]. split; [|split; [|split; [done|split]]].
  - subst w1. erewrite events_of_set_events by (subst wa; exact Hn). by rewrite decide_True.
  - intros m. subst w1. by rewrite pollers_of_set_events.
  - rewrite spdk_event_queue_run_all_count.
    assert (Hn1 : g_reactors w1 !! n = Some (Reactor (lcore r) (active_pollers r) (Some (Ring ecap [event])))).
    { subst w1 wa. rewrite lookup_set_events, decide_True by done.
      cbn [g_reactors set_mempool]. by rewrite Hn. }
    rewrite Hn1. erewrite (events_of_lookup n w1) by (exact Hn1 || done).
    simpl. unfold spdk_event_queue_run_single.
    apply reactor_load_Ok in Hn1 as Hl1. rewrite Hl1. simpl.
    unfold rte_ring_dequeue. simpl. fold wb.
    change (event_fn_call user_fn n event wb) with (_spdk_event_add_poller event wb).
    rewrite Hadd, Hnext. simpl. unfold spdk_event_free. rewrite Hmd. done.
  - split; [|split; [|split; [|split; [|split]]]].
    + change (pollers_of n (observe ?o (set_mempool ?x ?v))) with (pollers_of n v).
      rewrite Hpd, Hpc. by rewrite decide_True.
    + intros m Hm. change (pollers_of m (observe ?o (set_mempool ?x ?v))) with (pollers_of m v).
      rewrite Hpd, Hpc. by rewrite decide_False.
    + simpl. rewrite Hld. done.
    + simpl. f_equal. lia.
    + intros m. change (events_of m (observe ?o (set_mempool ?x ?v))) with (events_of m v).
      by rewrite Hed, Hevc.
    + simpl. rewrite Htd. simpl. by rewrite <- app_assoc.
Qed.

End register.

(** ** Initialisation, once more *)

Local Open Scope Z_scope.

(** A number whose bits from 64 on are clear fits 64 bits. *)
Lemma fits_64_bits m :
  0 ≤ m → (∀ i : nat, (64 ≤ i)%nat → Z.testbit m (Z.of_nat i) = false) → m < 2 ^ 64.
Proof.
  intros Hm Hbits. replace m with (m mod 2 ^ 64); [apply Z.mod_pos_bound; lia|].
  apply Z.bits_inj'. intros n Hn. destruct (Z.lt_ge_cases n 64).
  - by rewrite Z.mod_pow2_bits_low.
  - rewrite Z.mod_pow2_bits_high by lia. symmetry.
    rewrite <- (Z2Nat.id n) by lia. apply Hbits. lia.
Qed.

Section init_more.

Variable h : host.

Lemma clear_disabled_nonneg m i : 0 ≤ m → 0 ≤ clear_disabled h m i.
Proof.
  intros Hm. unfold clear_disabled. case_match; [|done]. apply Z.land_nonneg. by left.
Qed.

Lemma foldl_clear_disabled_nonneg l : ∀ m, 0 ≤ m → 0 ≤ foldl (clear_disabled h) m l.
Proof.
  induction l as [|i l IH]; intros m Hm; [done|]. simpl. apply IH.
  by apply clear_disabled_nonneg.
Qed.

Lemma foldl_set_core_bit_nonneg l : ∀ m, 0 ≤ m → 0 ≤ foldl set_core_bit m l.
Proof.
  induction l as [|i l IH]; intros m Hm; [done|]. simpl. apply IH.
  unfold set_core_bit. apply Z.lor_nonneg. split; [done|].
  apply Z.mod_pos_bound. lia.
Qed.

(** A successful parse, by the loop that computes its result. *)
Lemma spdk_app_parse_core_mask_Ok s c :
  (fst (spdk_app_parse_core_mask h (Some s) (Some c)) = 0
   ∨ fst (spdk_app_parse_core_mask h (Some s) (Some c)) = -1)
  ∧ (fst (spdk_app_parse_core_mask h (Some s) (Some c)) = 0 →
     snd (spdk_app_parse_core_mask h (Some s) (Some c))
     = Some (foldl (clear_disabled h) (mask_parsed s) (seq 0 (RTE_MAX_LCORE h `min` 64)))).
Proof.
  unfold spdk_app_parse_core_mask. rewrite strtoull_spec.
  destruct (negb (Ascii.eqb (char_at (mask_tail s)) zero)); simpl; [by split; [right|]|].
  destruct (bool_decide (2 ^ 64 ≤ mask_value s)); simpl; [by split; [right|]|].
  by split; [left|].
Qed.

(** What a successful parse of the mask leaves: the world with a new
    mask of 64 bits, in which every core below [RTE_MAX_LCORE] is one
    the host has enabled. *)
Lemma spdk_reactor_parse_mask_Ok mask w w1 :
  spdk_reactor_parse_mask h mask w = (0, w1) →
  g_reactor_state w = SPDK_REACTOR_STATE_INVALID
  ∧ w1 = set_reactor_mask (g_reactor_mask w1) w
  ∧ 0 ≤ g_reactor_mask w1 < 2 ^ 64
  ∧ (∀ i : nat, mask_has (g_reactor_mask w1) i = true →
       (i < 64)%nat ∧ ((i < RTE_MAX_LCORE h)%nat → rte_lcore_is_enabled h i = true))
  ∧ (mask ≠ None → mask_has (g_reactor_mask w1) (rte_get_master_lcore h) = true).
Proof.
  unfold spdk_reactor_parse_mask.
  destruct (Z.leb_spec (state_value SPDK_REACTOR_STATE_INITIALIZED)
                       (state_value (g_reactor_state w))) as [Hge|Hlt]; [done|].
  assert (Hst : g_reactor_state w = SPDK_REACTOR_STATE_INVALID)
    by (destruct (g_reactor_state w); simpl in *; (done || lia)).
  destruct mask as [s|].
  - destruct (spdk_app_parse_core_mask_Ok s (g_reactor_mask (set_reactor_mask 0 w)))
      as [_ Hout].
    destruct (spdk_app_parse_core_mask h _ _) as [ret out]. cbn [fst snd] in Hout.
    destruct (Z.eqb_spec ret 0) as [->|?]; simpl; [|intros ?; simplify_eq].
    rewrite (Hout eq_refl). simpl.
    set (v := foldl (clear_disabled h) (mask_parsed s) (seq 0 (RTE_MAX_LCORE h `min` 64))).
    assert (Hv : ∀ i : nat, Z.testbit v (Z.of_nat i) = true →
              (i < 64)%nat ∧ ((i < RTE_MAX_LCORE h)%nat → rte_lcore_is_enabled h i = true)).
    { intros i. subst v. rewrite foldl_clear_disabled_testbit.
      intros [Hp Hen]%andb_true_iff.
      assert (i < 64)%nat as Hi.
      { destruct (decide (i < 64)%nat); [done|]. unfold mask_parsed in Hp.
        rewrite Z.mod_pow2_bits_high in Hp by lia. done. }
      split; [done|]. intros Hmax. apply orb_true_iff in Hen as [?|Hge]; [done|].
      destruct (Nat.ltb_spec i (RTE_MAX_LCORE h `min` 64)); [done|lia]. }
    assert (Hnn : 0 ≤ v).
    { apply foldl_clear_disabled_nonneg. unfold mask_parsed. apply Z.mod_pos_bound. lia. }
    destruct (mask_has v (rte_get_master_lcore h)) eqn:Hmaster; simpl; [|done].
    intros [= <-]. simpl. split; [done|]. split; [done|]. split; [|split; [|done]].
    + split; [done|]. apply fits_64_bits; [done|]. intros i Hi.
      destruct (Z.testbit v (Z.of_nat i)) eqn:Hb; [|done]. apply Hv in Hb. lia.
    + intros i. rewrite mask_has_testbit. apply Hv.
  - intros [= <-]. simpl.
    assert (Hv : ∀ i : nat, Z.testbit (foldl set_core_bit 0 (lcores h)) (Z.of_nat i) = true →
              (i < 64)%nat ∧ ((i < RTE_MAX_LCORE h)%nat → rte_lcore_is_enabled h i = true)).
    { intros i. rewrite foldl_set_core_bit_testbit, Z.bits_0. simpl.
      intros [Hin Hi]%andb_true_iff. apply bool_decide_eq_true in Hin, Hi.
      apply elem_of_lcores in Hin as [? ?]. done. }
    assert (Hnn : 0 ≤ foldl set_core_bit 0 (lcores h))
      by (by apply foldl_set_core_bit_nonneg).
    split; [done|]. split; [done|]. split; [|split; [|done]].
    + split; [done|]. apply fits_64_bits; [done|]. intros i Hi.
      destruct (Z.testbit _ (Z.of_nat i)) eqn:Hb; [|done]. apply Hv in Hb. lia.
    + intros i. rewrite mask_has_testbit. apply Hv.
Qed.

(** The return value of the parse, and what it leaves alone. *)
Lemma spdk_reactor_parse_mask_rc mask w :
  (fst (spdk_reactor_parse_mask h mask w) = 0 ∨ fst (spdk_reactor_parse_mask h mask w) = -1)
  ∧ g_reactor_state (snd (spdk_reactor_parse_mask h mask w)) = g_reactor_state w
  ∧ g_reactor_count (snd (spdk_reactor_parse_mask h mask w)) = g_reactor_count w.
Proof.
  unfold spdk_reactor_parse_mask.
  destruct (_ <=? _); [by split; [right|]|].
  destruct mask as [s|]; [|by split; [left|]].
  destruct (spdk_app_parse_core_mask_Ok s (g_reactor_mask (set_reactor_mask 0 w)))
    as [Hret _].
  destruct (spdk_app_parse_core_mask h _ _) as [ret out]. cbn [fst] in Hret.
  destruct (Z.eqb_spec ret 0) as [->|?]; simpl.
  - destruct (mask_has _ _); simpl; split; auto.
  - split; [|done]. destruct Hret; auto.
Qed.

Lemma spdk_reactor_construct_Ok n w w' :
  spdk_reactor_construct h n w = Ok w' →
  (n < length (g_reactors w))%nat
  ∧ event_ring_created h n = true
  ∧ w' = set_reactors (<[n := constructed h n]> (g_reactors w)) w.
Proof.
  unfold spdk_reactor_construct, constructed.
  destruct (g_reactors w !! n) as [r|] eqn:Hn; [|done].
  apply lookup_lt_Some in Hn. simpl.
  unfold rte_ring_create at 2 3. destruct (event_ring_created h n); [|done].
  intros [= <-]. done.
Qed.

(** The construction loop: it touches the array of reactors and the
    count, and builds the reactors of the cores of [l] that are in the
    mask. *)
Lemma construct_reactors_spec l : ∀ w w',
  construct_reactors h l w = Ok w' →
  g_reactor_mask w' = g_reactor_mask w
  ∧ g_reactor_state w' = g_reactor_state w
  ∧ g_spdk_event_mempool w' = g_spdk_event_mempool w
  ∧ poller_lcore w' = poller_lcore w
  ∧ trace w' = trace w
  ∧ g_reactor_count w' = g_reactor_count w + Z.of_nat (length (in_mask (g_reactor_mask w) l))
  ∧ length (g_reactors w') = length (g_reactors w)
  ∧ (∀ i : nat, g_reactors w' !! i
         = if bool_decide (i ∈ l) && mask_has (g_reactor_mask w) i
           then Some (constructed h i)
           else g_reactors w !! i)
  ∧ ∀ i : nat, i ∈ l → mask_has (g_reactor_mask w) i = true →
       (i < length (g_reactors w))%nat ∧ event_ring_created h i = true.
Proof.
  induction l as [|j l IH]; intros w w'; cbn [construct_reactors].
  - intros [= <-]. split; [done|]. split; [done|]. split; [done|]. split; [done|].
    split; [done|]. split; [simpl; lia|]. split; [done|]. split; [done|].
    by intros i ?%elem_of_nil.
  - unfold spdk_app_get_core_mask, in_mask. rewrite filter_cons.
    destruct (mask_has (g_reactor_mask w) j) eqn:Hj.
    + destruct (spdk_reactor_construct h j w) as [w1| | |] eqn:Hc; try done.
      intros Hrun. apply spdk_reactor_construct_Ok in Hc as (Hlt & Hev & ->).
      apply IH in Hrun as (Hm & Hs & Hp & Hpl & Ht & Hcount & Hlen & Hr & Hev').
      cbn [g_reactor_mask g_reactor_state g_spdk_event_mempool poller_lcore trace
           g_reactor_count g_reactors set_reactor_count set_reactors] in *.
      rewrite decide_True by done.
      split; [done|]. split; [done|]. split; [done|]. split; [done|]. split; [done|].
      split; [unfold in_mask in Hcount; cbn [length]; lia|].
      rewrite length_insert in Hlen, Hev'. split; [done|]. split.
      * intros i. rewrite Hr. destruct (decide (i = j)) as [->|Hne].
        -- rewrite Hj. rewrite (bool_decide_true (j ∈ j :: l)) by left. cbn [andb].
           rewrite list_lookup_insert_eq by done. rewrite andb_true_r.
           by destruct (bool_decide _).
        -- rewrite list_lookup_insert_ne by done.
           replace (bool_decide (i ∈ j :: l)) with (bool_decide (i ∈ l)); [done|].
           apply bool_decide_ext. rewrite elem_of_cons. split; [by right|by intros [?|?]].
      * intros i [->|Hin]%elem_of_cons Hi; [done|by apply Hev'].
    + rewrite decide_False by done.
      intros Hrun.
      apply IH in Hrun as (Hm & Hs & Hp & Hpl & Ht & Hcount & Hlen & Hr & Hev').
      do 7 (split; [done|]). split.
      * intros i. rewrite Hr.
        destruct (decide (i = j)) as [->|Hne].
        -- rewrite Hj, !andb_false_r. done.
        -- replace (bool_decide (i ∈ j :: l)) with (bool_decide (i ∈ l)); [done|].
           apply bool_decide_ext. rewrite elem_of_cons. split; [by right|by intros [?|?]].
      * intros i [->|Hin]%elem_of_cons Hi; [congruence|by apply Hev'].
Qed.

(** The three stages of an initialisation that returns 0. *)
Lemma spdk_reactors_init_Ok mask w w' :
  spdk_reactors_init h mask w = Ok (0, w') →
  ∃ w1 w2, spdk_reactor_parse_mask h mask w = (0, w1)
           ∧ construct_reactors h (lcores h) w1 = Ok w2
           ∧ mempool_created h = true
           ∧ w' = set_reactor_state SPDK_REACTOR_STATE_INITIALIZED
                    (set_mempool (Some 262144%N) w2).
Proof.
  unfold spdk_reactors_init.
  destruct (spdk_reactor_parse_mask h mask w) as [rc1 w1] eqn:Hparse.
  destruct (Z.ltb_spec rc1 0); [intros [= -> <-]; lia|].
  destruct (construct_reactors h (lcores h) w1) as [w2| | |] eqn:Hc; try done. simpl.
  destruct (mempool_created h); [|intros [=]]. intros [= -> <-].
  by exists w1, w2.
Qed.

(** The slots of the array after an initialisation that returns 0. *)
Lemma spdk_reactors_init_slots mask w w' :
  spdk_reactors_init h mask w = Ok (0, w') →
  ∀ i : nat,
    g_reactors w' !! i
    = if bool_decide (i < RTE_MAX_LCORE h)%nat && mask_has (g_reactor_mask w') i
      then Some (constructed h i)
      else g_reactors w !! i.
Proof.
  intros (w1 & w2 & Hparse & Hc & _ & ->)%spdk_reactors_init_Ok i.
  apply spdk_reactor_parse_mask_Ok in Hparse as (_ & Hw1 & _ & Hbits & _).
  apply construct_reactors_spec in Hc as (Hm & _ & _ & _ & _ & _ & _ & Hr & _).
  assert (Hrs : g_reactors w1 = g_reactors w) by (by rewrite Hw1).
  simpl. rewrite Hm, Hr, Hrs.
  destruct (mask_has (g_reactor_mask w1) i) eqn:Hi; [|by rewrite !andb_false_r].
  rewrite !andb_true_r. destruct (Hbits i Hi) as [_ Hen].
  replace (bool_decide (i ∈ lcores h)) with (bool_decide (i < RTE_MAX_LCORE h)%nat); [done|].
  apply bool_decide_ext. rewrite elem_of_lcores. split; [auto|by intros [? _]].
Qed.

(** X8: [spdk_reactors_init] works once.  In any state but INVALID it
    returns -1 and changes nothing, so after a successful call, after a
    [spdk_reactors_stop], or after the reactors have shut down, the
    mask cannot be set again; [spdk_reactors_fini] does not help, it
    changes nothing.  The call returns 0 or -1; 0 only from INVALID and
    then the state is INITIALIZED; with -1 the state is as before. *)
Theorem spdk_reactors_init_once mask w :
  (g_reactor_state w ≠ SPDK_REACTOR_STATE_INVALID →
   spdk_reactors_init h mask w = Ok (-1, w))
  ∧ (∀ rc w', spdk_reactors_init h mask w = Ok (rc, w') →
       (rc = 0 ∨ rc = -1)
       ∧ (rc = 0 →
          g_reactor_state w = SPDK_REACTOR_STATE_INVALID
          ∧ g_reactor_state w' = SPDK_REACTOR_STATE_INITIALIZED
          ∧ ∀ mask', spdk_reactors_init h mask' w' = Ok (-1, w')
                     ∧ spdk_reactors_init h mask' (snd (spdk_reactors_fini w')) = Ok (-1, w'))
       ∧ (rc = -1 → g_reactor_state w' = g_reactor_state w))
  ∧ spdk_reactors_init h mask (spdk_reactors_stop w) = Ok (-1, spdk_reactors_stop w).
Proof.
  assert (Hguard : ∀ mask v, g_reactor_state v ≠ SPDK_REACTOR_STATE_INVALID →
            spdk_reactors_init h mask v = Ok (-1, v)).
  { intros mask0 v Hst. unfold spdk_reactors_init, spdk_reactor_parse_mask.
    destruct (Z.leb_spec (state_value SPDK_REACTOR_STATE_INITIALIZED)
                         (state_value (g_reactor_state v))); [done|].
    destruct (g_reactor_state v); simpl in *; (done || lia). }
  split; [apply Hguard|]. split; [|by apply Hguard].
  intros rc w' Hinit.
  destruct (decide (rc = 0)) as [->|Hrc].
  - split; [by left|]. split; [|done]. intros _.
    apply spdk_reactors_init_Ok in Hinit as (w1 & w2 & Hparse & Hc & _ & ->).
    apply spdk_reactor_parse_mask_Ok in Hparse as (Hst & _).
    split; [done|]. split; [done|]. intros mask'. split; by apply Hguard.
  - unfold spdk_reactors_init in Hinit.
    destruct (spdk_reactor_parse_mask_rc mask w) as (Hrc1 & Hst1 & _).
    destruct (spdk_reactor_parse_mask h mask w) as [rc1 w1]. cbn [fst snd] in *.
    destruct (Z.ltb_spec rc1 0).
    + injection Hinit as <- <-. split; [right; lia|]. split; [done|]. done.
    + destruct (construct_reactors h (lcores h) w1) as [w2| | |] eqn:Hc; try done.
      simpl in Hinit. apply construct_reactors_spec in Hc as (_ & Hs2 & _).
      destruct (mempool_created h); injection Hinit as <- <-; [lia|].
      split; [by right|]. split; [done|]. intros _. simpl. congruence.
Qed.

(** X9: what an initialisation that returns 0 has built, on a host
    whose cores are numbered below 64.  The pool has its 262144
    records.  The mask fits 64 bits and every core in it
    below [RTE_MAX_LCORE] is enabled; it holds the master core when a
    mask string was given.  The reactors of exactly those cores are
    constructed, each with its own core number, an empty event queue
    for 65535 events and an empty poller ring (if that could be
    created); every other slot of the array is untouched. *)
Theorem spdk_reactors_init_constructs mask w w' :
  lcores_below_64 h →
  spdk_reactors_init h mask w = Ok (0, w') →
  g_spdk_event_mempool w' = Some 262144%N
  ∧ 0 ≤ spdk_app_get_core_mask w' < 2 ^ 64
  ∧ (∀ i : nat, mask_has (spdk_app_get_core_mask w') i = true →
       (i < 64)%nat ∧ ((i < RTE_MAX_LCORE h)%nat → rte_lcore_is_enabled h i = true))
  ∧ (mask ≠ None → mask_has (spdk_app_get_core_mask w') (rte_get_master_lcore h) = true)
  ∧ length (g_reactors w') = length (g_reactors w)
  ∧ (∀ i : nat,
       g_reactors w' !! i
       = if bool_decide (i < RTE_MAX_LCORE h)%nat && mask_has (spdk_app_get_core_mask w') i
         then Some (Reactor i (rte_ring_create (SPDK_POLLER_RING_SIZE h)
                                               (poller_ring_created h i))
                              (Some (Ring 65535%N [])))
         else g_reactors w !! i)
  ∧ (∀ i : nat, (i < RTE_MAX_LCORE h)%nat → mask_has (spdk_app_get_core_mask w') i = true →
       (i < length (g_reactors w))%nat ∧ event_ring_created h i = true).
Proof.
  intros _ Hinit. pose proof (spdk_reactors_init_slots _ _ _ Hinit) as Hslots.
  apply spdk_reactors_init_Ok in Hinit as (w1 & w2 & Hparse & Hc & _ & ->).
  apply spdk_reactor_parse_mask_Ok in Hparse as (_ & Hw1 & Hrange & Hbits & Hmaster).
  apply construct_reactors_spec in Hc as (Hm & _ & _ & _ & _ & _ & Hlen & _ & Hev).
  assert (Hrs : g_reactors w1 = g_reactors w) by (by rewrite Hw1).
  unfold spdk_app_get_core_mask in *. simpl in *. rewrite Hm in *.
  split; [done|]. split; [done|]. split; [done|]. split; [done|].
  split; [by rewrite Hlen, Hrs|]. split; [exact Hslots|].
  intros i Hi Hmi. rewrite <- Hrs. apply Hev; [|done].
  apply elem_of_lcores. split; [done|]. by apply Hbits.
Qed.

(** X10: on a host whose cores are numbered below 64,
    [spdk_reactors_init] adds to the core count the number of reactors
    it constructs, one for every enabled core in the mask, and nothing
    when the mask is refused.  It does so also when it fails
    afterwards on the event pool, and it never sets the count back:
    [spdk_app_get_core_count] is the number of reactors only for a
    process that initialises once, from a count of 0. *)
Theorem spdk_app_get_core_count_after_init mask w rc w' :
  lcores_below_64 h →
  spdk_reactors_init h mask w = Ok (rc, w') →
  spdk_app_get_core_count w'
  = spdk_app_get_core_count w
    + (if fst (spdk_reactor_parse_mask h mask w) <? 0 then 0
       else Z.of_nat (length (in_mask (spdk_app_get_core_mask w') (lcores h)))).
Proof.
  intros _. unfold spdk_reactors_init, spdk_app_get_core_count, spdk_app_get_core_mask.
  destruct (spdk_reactor_parse_mask_rc mask w) as (_ & _ & Hcount1).
  destruct (spdk_reactor_parse_mask h mask w) as [rc1 w1] eqn:Hparse. cbn [fst snd] in *.
  destruct (Z.ltb_spec rc1 0); [intros [= <- <-]; lia|].
  destruct (construct_reactors h (lcores h) w1) as [w2| | |] eqn:Hc; try done. simpl.
  apply construct_reactors_spec in Hc as (Hm & _ & _ & _ & _ & Hcount & _).
  destruct (mempool_created h); intros [= <- <-]; simpl; rewrite Hm; lia.
Qed.

(** *** Initialisation without a mask *)

Lemma construct_reactors_with_master m l : ∀ w,
  construct_reactors (with_master m h) l w = construct_reactors h l w.
Proof.
  induction l as [|i l IH]; intros w; simpl; [done|].
  destruct (mask_has _ _); [|apply IH].
  change (spdk_reactor_construct (with_master m h) i w) with (spdk_reactor_construct h i w).
  destruct (spdk_reactor_construct h i w); simpl; [apply IH|done..].
Qed.

Lemma spdk_reactors_init_with_master m w :
  spdk_reactors_init (with_master m h) None w = spdk_reactors_init h None w.
Proof.
  unfold spdk_reactors_init.
  change (spdk_reactor_parse_mask (with_master m h) None w)
    with (spdk_reactor_parse_mask h None w).
  destruct (spdk_reactor_parse_mask h None w) as [rc w1].
  destruct (rc <? 0)%Z; [done|].
  change (lcores (with_master m h)) with (lcores h).
  by rewrite construct_reactors_with_master.
Qed.

Lemma in_mask_all m l :
  (∀ i, i ∈ l → mask_has m i = true) → in_mask m l = l.
Proof.
  intros Hl. unfold in_mask. induction l as [|i l IH]; [done|].
  rewrite filter_cons_True by (apply Hl; left). f_equal. apply IH.
  intros j Hj. apply Hl. by right.
Qed.

(** C10: a NULL mask string is not an error.  On a host whose cores
    are numbered below 64, with room in the array for its cores and
    rings for their event queues, [spdk_reactors_init(NULL)] returns 0
    when the event pool can be created.  The mask it leaves is the set
    of the cores the host has enabled, bit for bit, so it holds the
    master core when the host has enabled that one; nothing is tested
    against the master bit, the call succeeds either way.  The reactor
    of every enabled core is constructed, the others are left alone,
    the count grows by the number of enabled cores, the pool has its
    262144 records and the state is INITIALIZED: what
    [spdk_reactors_init] does for an explicit mask that parses to the
    same bitmap.  The master core plays no part: the call does the same
    on a host that differs in its master core only. *)
Theorem spdk_reactors_init_null_mask w :
  g_reactor_state w = SPDK_REACTOR_STATE_INVALID →
  lcores_below_64 h →
  (RTE_MAX_LCORE h ≤ length (g_reactors w))%nat →
  (∀ i, i ∈ lcores h → event_ring_created h i = true) →
  ∃ w', spdk_reactors_init h None w = Ok (if mempool_created h then 0 else -1, w')
        ∧ (∀ i : nat,
             Z.testbit (spdk_app_get_core_mask w') (Z.of_nat i) = bool_decide (i ∈ lcores h))
        ∧ (rte_get_master_lcore h ∈ lcores h →
           mask_has (spdk_app_get_core_mask w') (rte_get_master_lcore h) = true)
        ∧ (∀ i : nat,
             g_reactors w' !! i
             = if bool_decide (i ∈ lcores h) then Some (constructed h i)
               else g_reactors w !! i)
        ∧ spdk_app_get_core_count w'
          = spdk_app_get_core_count w + Z.of_nat (length (lcores h))
        ∧ g_reactor_state w'
          = (if mempool_created h then SPDK_REACTOR_STATE_INITIALIZED
             else SPDK_REACTOR_STATE_INVALID)
        ∧ g_spdk_event_mempool w'
          = (if mempool_created h then Some 262144%N else None)
        ∧ (∀ s w2,
             spdk_reactor_parse_mask h (Some s) w = (0, w2) →
             g_reactor_mask w2 = spdk_app_get_core_mask w' →
             spdk_reactors_init h None w = spdk_reactors_init h (Some s) w)
        ∧ (∀ m, spdk_reactors_init (with_master m h) None w = spdk_reactors_init h None w).
Proof.
  intros Hst [_ H64] Hlen Hev.
  set (M := foldl set_core_bit 0 (lcores h)).
  set (w1 := set_reactor_mask M (set_reactor_mask 0 w)).
  assert (Hparse : spdk_reactor_parse_mask h None w = (0, w1))
    by (by apply spdk_reactor_parse_mask_null).
  assert (Hbits : ∀ i : nat, Z.testbit M (Z.of_nat i) = bool_decide (i ∈ lcores h)).
  { intros i. subst M. rewrite foldl_set_core_bit_testbit, Z.bits_0. simpl.
    destruct (decide (i ∈ lcores h)) as [Hi|Hi].
    - rewrite !bool_decide_true; [done| |done]. by eapply Forall_forall in H64.
    - by rewrite (bool_decide_false (i ∈ lcores h)). }
  assert (Hhas : ∀ i, i ∈ lcores h → mask_has M i = true).
  { intros i Hi. rewrite mask_has_testbit, Hbits. by apply bool_decide_true. }
  destruct (construct_reactors_Ok h (lcores h) w1) as (w2 & Hc & _).
  { intros i Hi. split; [|by apply Hev]. apply elem_of_lcores in Hi as [Hi _].
    simpl. lia. }
  pose proof (construct_reactors_spec _ _ _ Hc)
    as (Hm & Hs & Hp & _ & _ & Hcount & _ & Hslots & _).
  change (g_reactor_mask w1) with M in *.
  rewrite (in_mask_all M (lcores h) Hhas) in Hcount.
  assert (Hinit : spdk_reactors_init h None w
                  = if mempool_created h
                    then Ok (0, set_reactor_state SPDK_REACTOR_STATE_INITIALIZED
                                  (set_mempool (Some 262144%N) w2))
                    else Ok (-1, set_mempool None w2)).
  { unfold spdk_reactors_init. rewrite Hparse. simpl. rewrite Hc. done. }
  exists (if mempool_created h
          then set_reactor_state SPDK_REACTOR_STATE_INITIALIZED
                 (set_mempool (Some 262144%N) w2)
          else set_mempool None w2).
  split; [rewrite Hinit; by destruct (mempool_created h)|].
  assert (Hmask : spdk_app_get_core_mask
                    (if mempool_created h
                     then set_reactor_state SPDK_REACTOR_STATE_INITIALIZED
                            (set_mempool (Some 262144%N) w2)
                     else set_mempool None w2) = M)
    by (by destruct (mempool_created h)).
  rewrite Hmask.
  split; [exact Hbits|]. split; [apply Hhas|]. split; [|split; [|split; [|split; [|split]]]].
  - intros i. transitivity (g_reactors w2 !! i); [by destruct (mempool_created h)|].
    rewrite Hslots. change (g_reactors w1) with (g_reactors w).
    destruct (decide (i ∈ lcores h)) as [Hi|Hi].
    + by rewrite bool_decide_true, Hhas.
    + by rewrite bool_decide_false.
  - transitivity (g_reactor_count w2); [by destruct (mempool_created h)|].
    rewrite Hcount. done.
  - destruct (mempool_created h); [done|]. simpl. by rewrite Hs.
  - by destruct (mempool_created h).
  - intros s w3 Hparse3 Hmask3. unfold spdk_reactors_init.
    rewrite Hparse3, Hparse.
    replace w3 with w1; [done|].
    revert Hparse3 Hmask3. unfold spdk_reactor_parse_mask. rewrite Hst.
    destruct (spdk_app_parse_core_mask h _ _) as [ret out]. simpl.
    destruct (Z.eqb_spec ret 0) as [->|Hne]; simpl; [|intros ?; simplify_eq].
    destruct (negb (mask_has _ _)); [intros ?; simplify_eq|].
    intros ?; simplify_eq. simpl. by intros ->.
  - intros m. apply spdk_reactors_init_with_master.
Qed.

End init_more.

Local Close Scope Z_scope.

(** ** A reactor without a poller ring *)

Section no_poller_ring.

Variable h : host.
Variable user_fn : nat → spdk_event → world → list api_call.
Variable poller_fn : nat → world → list api_call.

(** X11: [spdk_reactor_construct] verifies the event ring only.  When
    the poller ring of a core in the mask cannot be created,
    [spdk_reactors_init] still returns 0 with the state INITIALIZED:
    the reactor has no poller ring.  The handler of a register event
    for that core and the first iteration of its reactor loop then
    dereference the NULL ring. *)
Theorem missing_poller_ring_goes_unnoticed mask w w' i :
  spdk_reactors_init h mask w = Ok (0%Z, w') →
  i < RTE_MAX_LCORE h →
  mask_has (spdk_app_get_core_mask w') i = true →
  poller_ring_created h i = false →
  g_reactor_state w' = SPDK_REACTOR_STATE_INITIALIZED
  ∧ g_reactors w' !! i = Some (Reactor i None (Some (Ring 65535%N [])))
  ∧ (∀ p lc next,
       _spdk_event_add_poller
         (Event lc Fn_add_poller (Arg_reactor i) (Arg_poller p) next) w' = Fault)
  ∧ (∀ fuel w'',
       spdk_reactors_start_entry h (rte_get_master_lcore h) w' = Ok w'' →
       _spdk_reactor_run user_fn poller_fn (S fuel) i i w'' = Returned Fault).
Proof.
  intros Hinit Hi Hmi Hring.
  pose proof (spdk_reactors_init_slots h _ _ _ Hinit i) as Hslot.
  unfold spdk_app_get_core_mask in Hmi.
  rewrite Hmi, bool_decide_true in Hslot by done. simpl in Hslot.
  unfold constructed in Hslot. rewrite Hring in Hslot. simpl in Hslot.
  apply spdk_reactors_init_Ok in Hinit as (w1 & w2 & _ & _ & _ & Hw').
  split; [by rewrite Hw'|]. split; [done|]. split.
  - intros p lc next. unfold _spdk_event_add_poller. simpl.
    apply reactor_load_Ok in Hslot. by rewrite Hslot.
  - intros fuel w''. unfold spdk_reactors_start_entry. rewrite decide_True by done.
    intros [= <-]. rewrite _spdk_reactor_run_step.
    unfold reactor_iteration. rewrite spdk_event_queue_run_all_count.
    cbn [g_reactors set_reactor_state]. rewrite Hslot.
    unfold events_of. cbn [g_reactors set_reactor_state]. rewrite Hslot. simpl.
    unfold reactor_poll, reactor_load. cbn [g_reactors rte_timer_manage observe set_reactor_state].
    rewrite Hslot. done.
Qed.

End no_poller_ring.

(** ** The socket mask *)

Section sockets_props.

Variable h : host.
Variable socket_id : nat → nat.

Local Open Scope Z_scope.

Lemma foldl_socket_testbit m l : ∀ info (s : nat),
  Z.testbit (foldl (λ socket_info i,
                      if mask_has m i
                      then set_core_bit socket_info (socket_id i)
                      else socket_info) info l) (Z.of_nat s)
  = Z.testbit info (Z.of_nat s)
    || (bool_decide (Exists (λ i, mask_has m i = true ∧ socket_id i = s) l)
        && bool_decide (s < 64)%nat).
Proof.
  induction l as [|j l IH]; intros info s.
  - cbn [foldl]. rewrite bool_decide_false; [by rewrite orb_false_r|].
    by intros ?%Exists_nil.
  - cbn [foldl]. rewrite IH. destruct (mask_has m j) eqn:Hj.
    + rewrite set_core_bit_testbit, <- orb_assoc. f_equal.
      rewrite <- andb_orb_distrib_l. f_equal.
      rewrite <- bool_decide_or. apply bool_decide_ext.
      split.
      * intros [->|?]; [by apply Exists_cons_hd|by apply Exists_cons_tl].
      * intros [[_ <-]|?]%Exists_cons; auto.
    + f_equal. f_equal. apply bool_decide_ext.
      split; [by apply Exists_cons_tl|]. intros [[? _]|?]%Exists_cons; [congruence|done].
Qed.

(** X12: on a host whose cores and sockets are numbered below 64, the
    socket mask has the bit of socket [s] exactly when [s] is the
    socket of an enabled core that is in the reactor mask. *)
Theorem spdk_reactor_get_socket_mask_bits w (s : nat) :
  lcores_below_64 h →
  (∀ i, i ∈ lcores h → (socket_id i < 64)%nat) →
  Z.testbit (spdk_reactor_get_socket_mask h socket_id w) (Z.of_nat s) = true
  ↔ (s < 64)%nat
    ∧ ∃ i, (i < RTE_MAX_LCORE h)%nat ∧ rte_lcore_is_enabled h i = true
           ∧ mask_has (g_reactor_mask w) i = true
           ∧ socket_id i = s.
Proof.
  intros _ _.
  unfold spdk_reactor_get_socket_mask. rewrite foldl_socket_testbit, Z.bits_0. simpl.
  rewrite andb_true_iff, !bool_decide_eq_true, Exists_exists. split.
  - intros [(i & [? ?]%elem_of_lcores & ? & ?) ?]. split; [done|]. by exists i.
  - intros [? (i & ? & ? & ? & ?)]. split; [|done]. exists i. split; [|done].
    by apply elem_of_lcores.
Qed.

End sockets_props.

(** ** The mask, printed and parsed *)

Local Open Scope Z_scope.


Lemma hex_digit_hex_char d : 0 ≤ d < 16 → hex_digit (hex_char d) = Some d.
Proof.
  intros Hd.
  assert (d = 0 ∨ d = 1 ∨ d = 2 ∨ d = 3 ∨ d = 4 ∨ d = 5 ∨ d = 6 ∨ d = 7 ∨ d = 8
          ∨ d = 9 ∨ d = 10 ∨ d = 11 ∨ d = 12 ∨ d = 13 ∨ d = 14 ∨ d = 15) as H by lia.
  repeat destruct H as [->|H]; try subst d; reflexivity.
Qed.

Lemma hex_number_snoc ds d : hex_number (ds ++ [d]) = hex_number ds * 16 + d.
Proof. unfold hex_number. by rewrite foldl_app. Qed.

Lemma lx_digits_span fuel : ∀ v acc ds,
  0 ≤ v < 16 ^ Z.of_nat fuel →
  hex_span acc = (ds, EmptyString) →
  ∃ ds', hex_span (lx_digits fuel v acc) = (ds' ++ ds, EmptyString)
         ∧ hex_number ds' = v
         ∧ (fuel ≠ 0%nat → ds' ≠ []).
Proof.
  induction fuel as [|fuel IH]; intros v acc ds Hv Hacc.
  - exists []. simpl in *. split; [done|]. split; [|done]. unfold hex_number. simpl. lia.
  - cbn [lx_digits].
    assert (Hd : 0 ≤ v mod 16 < 16) by (apply Z.mod_pos_bound; lia).
    assert (Hacc' : hex_span (String (hex_char (v mod 16)) acc) = (v mod 16 :: ds, EmptyString)).
    { cbn [hex_span]. by rewrite hex_digit_hex_char, Hacc. }
    destruct (Z.eqb_spec (v / 16) 0) as [H0|Hne].
    + exists [v mod 16]. split; [done|]. split; [|done].
      unfold hex_number. simpl. rewrite (Z.div_mod v 16) at 2 by lia. lia.
    + destruct (IH (v / 16) _ _ ltac:(rewrite Nat2Z.inj_succ, Z.pow_succ_r in Hv by lia;
                                      split; [apply Z.div_pos; lia|apply Z.div_lt_upper_bound; lia])
                   Hacc') as (ds'' & Hspan & Hnum & _).
      exists (ds'' ++ [v mod 16]). split; [by rewrite <- app_assoc|]. split.
      * rewrite hex_number_snoc, Hnum. rewrite (Z.div_mod v 16) at 3 by lia. lia.
      * intros _. by destruct ds''.
Qed.

(** Reading back what [%lx] has printed behind a [0x]. *)
Lemma strtoull_printf_lx v :
  0 ≤ v < 2 ^ 64 →
  strtoull (String "0" (String "x" (printf_lx v))) = (v, EmptyString, false).
Proof.
  intros Hv. rewrite strtoull_spec.
  assert (Hv16 : 0 ≤ v < 16 ^ Z.of_nat 16).
  { replace (16 ^ Z.of_nat 16) with (2 ^ 64) by reflexivity. exact Hv. }
  destruct (lx_digits_span 16 v EmptyString [] Hv16 eq_refl) as (ds & Hspan & Hnum & Hne).
  rewrite app_nil_r in Hspan. fold (printf_lx v) in Hspan.
  assert (Hdig : mask_digits (String "0" (String "x" (printf_lx v))) = (ds, EmptyString)).
  { unfold mask_digits, mask_sign. cbn [skip_space isspace strip_sign snd]. simpl.
    rewrite Hspan. destruct ds; [by destruct Hne|done]. }
  unfold mask_parsed, mask_tail, mask_value, mask_sign. rewrite Hdig. cbn [fst].
  rewrite Hnum. rewrite bool_decide_false by lia.
  change (fst (strip_sign (skip_space (String "0" (String "x" (printf_lx v)))))) with false.
  cbv iota. rewrite Z.mod_small by lia.
  destruct ds; [by destruct Hne|]. done.
Qed.

Section round_trip.

Variable h : host.

(** X13: on a host whose cores are numbered below 64, the core mask
    that [spdk_reactors_init] prints is a mask string that
    [spdk_app_parse_core_mask] accepts, and parsing it gives the mask
    back: every core in it is enabled, so no bit is dropped. *)
Theorem core_mask_text_round_trip mask w w' c :
  lcores_below_64 h →
  spdk_reactors_init h mask w = Ok (0, w') →
  spdk_app_parse_core_mask h (Some (core_mask_text w')) (Some c)
  = (0, Some (spdk_app_get_core_mask w')).
Proof.
  intros _ (w1 & w2 & Hparse & Hc & _ & ->)%spdk_reactors_init_Ok.
  apply spdk_reactor_parse_mask_Ok in Hparse as (_ & _ & Hrange & Hbits & _).
  apply construct_reactors_spec in Hc as (Hm & _).
  unfold core_mask_text, spdk_app_get_core_mask. simpl. rewrite Hm.
  set (m := g_reactor_mask w1) in *.
  unfold spdk_app_parse_core_mask. rewrite strtoull_printf_lx by done. simpl.
  do 2 f_equal. apply Z.bits_inj'. intros n Hn.
  rewrite <- (Z2Nat.id n) by lia. rewrite foldl_clear_disabled_testbit.
  destruct (Z.testbit m (Z.of_nat (Z.to_nat n))) eqn:Hb; [|done]. simpl.
  rewrite <- mask_has_testbit in Hb. apply Hbits in Hb as [H64 Hen].
  destruct (Nat.ltb_spec (Z.to_nat n) (RTE_MAX_LCORE h `min` 64)); [|by rewrite orb_true_r].
  rewrite Hen by lia. done.
Qed.

End round_trip.

Local Close Scope Z_scope.

(** ** Starting the reactors *)

Lemma filter_none {A} (P : A → Prop) `{!∀ x, Decision (P x)} (l : list A) :
  (∀ x, x ∈ l → ¬ P x) → filter P l = [].
Proof.
  induction l as [|x l IH]; intros Hl; [done|].
  rewrite filter_cons_False by (apply Hl; left). apply IH. intros y Hy. apply Hl. by right.
Qed.

Lemma filter_ext_in {A} (P Q : A → Prop) `{!∀ x, Decision (P x)} `{!∀ x, Decision (Q x)}
    (l : list A) :
  (∀ x, x ∈ l → P x ↔ Q x) → filter P l = filter Q l.
Proof.
  induction l as [|x l IH]; intros Hl; [done|].
  rewrite !filter_cons, IH by (intros y Hy; apply Hl; by right).
  destruct (decide (P x)) as [HP|HP], (decide (Q x)) as [HQ|HQ]; try done;
    apply (Hl x ltac:(left)) in HP || apply (Hl x ltac:(left)) in HQ; done.
Qed.

Lemma rte_eal_mp_wait_lcore_WAIT l : ∀ e e',
  rte_eal_mp_wait_lcore l e = inl e' →
  launched e' = launched e
  ∧ (∀ i, lcore_state e i = WAIT → lcore_state e' i = WAIT)
  ∧ (∀ i, i ∈ l → lcore_state e' i = WAIT)
  ∧ (∀ i, i ∈ l → lcore_state e i ≠ RUNNING).
Proof.
  induction l as [|j l IH]; intros e e'; simpl.
  - intros [= <-]. split; [done|]. split; [done|]. split; by intros i ?%elem_of_nil.
  - unfold rte_eal_wait_lcore. destruct (lcore_state e j) eqn:Hj; [| done |].
    + intros (Hl & Hkeep & Hin & Hnot)%IH. split; [done|]. split; [done|]. split.
      * intros i [->|Hi]%elem_of_cons; [by apply Hkeep|by apply Hin].
      * intros i [->|Hi]%elem_of_cons; [by rewrite Hj|by apply Hnot].
    + intros (Hl & Hkeep & Hin & Hnot)%IH. simpl in *.
      split; [done|]. split; [|split].
      * intros i Hi. apply Hkeep. case_decide; done.
      * intros i [->|Hi]%elem_of_cons; [|by apply Hin].
        apply Hkeep. by rewrite decide_True.
      * intros i [->|Hi]%elem_of_cons; [by rewrite Hj|].
        specialize (Hnot i Hi). case_decide; [subst; by rewrite Hj|done].
Qed.

Section start_props.

Variable h : host.
Variable user_fn : nat → spdk_event → world → list api_call.
Variable poller_fn : nat → world → list api_call.

(** A reactor loop that started in RUNNING and has returned has seen
    EXITING. *)
Lemma _spdk_reactor_run_returned fuel : ∀ cur reactor w w',
  _spdk_reactor_run user_fn poller_fn fuel cur reactor w = Returned (Ok w') →
  g_reactor_state w = SPDK_REACTOR_STATE_RUNNING →
  g_reactor_state w' = SPDK_REACTOR_STATE_EXITING.
Proof.
  induction fuel as [|fuel IH]; intros cur reactor w w'; [done|].
  rewrite _spdk_reactor_run_step.
  destruct (reactor_iteration _ _ _ _ _) as [w1| | |] eqn:Hit; try done.
  apply reactor_iteration_trace in Hit as [_ Hs].
  case_decide as Hrun.
  - intros Hrec _. by eapply IH.
  - intros [= <-] Hst. destruct Hs as [Hs|Hs]; [congruence|done].
Qed.

(** The launches of the first loop of [spdk_reactors_start], for cores
    whose reactors carry their own number. *)
Lemma start_slaves_spec fuel cur l : ∀ w e,
  (∀ i, i ∈ l → mask_has (spdk_app_get_core_mask w) i = true →
     i ≠ rte_get_master_lcore h ∧ ∃ r, g_reactors w !! i = Some r ∧ lcore r = i) →
  NoDup l →
  ∃ e', start_slaves h user_fn poller_fn fuel cur l w e = Start_returned (Ok (w, e'))
        ∧ (∀ i, lcore_state e' i
                = if bool_decide (i ∈ l) && mask_has (spdk_app_get_core_mask w) i
                  then RUNNING else lcore_state e i)
        ∧ launched e'
          = launched e
            ++ map (λ i, (i, i))
                 (filter (λ i, mask_has (spdk_app_get_core_mask w) i = true
                               ∧ lcore_state e i ≠ RUNNING) l).
Proof.
  induction l as [|j l IH]; intros w e Hl Hnd; cbn [start_slaves].
  - exists e. split; [done|]. split; [done|]. by rewrite filter_nil, app_nil_r.
  - apply NoDup_cons in Hnd as [Hj Hnd].
    rewrite filter_cons.
    destruct (mask_has (spdk_app_get_core_mask w) j) eqn:Hmj.
    + destruct (Hl j ltac:(left) Hmj) as (Hne & r & Hr & Hlc).
      unfold spdk_reactor_start. rewrite Hr, Hlc. rewrite decide_True by done.
      unfold rte_eal_get_lcore_state, rte_eal_wait_lcore, rte_eal_remote_launch.
      assert (Hwait : ∀ e1, (∀ i, i ≠ j → lcore_state e1 i = lcore_state e i) →
                lcore_state e1 j = RUNNING →
                launched e1 = launched e
                              ++ (if decide (lcore_state e j ≠ RUNNING) then [(j, j)] else []) →
                ∃ e', start_slaves h user_fn poller_fn fuel cur l w e1
                      = Start_returned (Ok (w, e'))
                  ∧ (∀ i, lcore_state e' i
                          = if bool_decide (i ∈ j :: l) && mask_has (spdk_app_get_core_mask w) i
                            then RUNNING else lcore_state e i)
                  ∧ launched e'
                    = launched e
                      ++ map (λ i, (i, i))
                           (if decide (true = true ∧ lcore_state e j ≠ RUNNING)
                            then j :: filter (λ i, mask_has (spdk_app_get_core_mask w) i = true
                                                   ∧ lcore_state e i ≠ RUNNING) l
                            else filter (λ i, mask_has (spdk_app_get_core_mask w) i = true
                                               ∧ lcore_state e i ≠ RUNNING) l)).
      { intros e1 Hsame Hrun Hlaunch.
        destruct (IH w e1) as (e' & -> & Hst & Hla).
        { intros i Hi. apply Hl. by right. }
        { done. }
        exists e'. split; [done|]. split.
        - intros i. rewrite Hst. destruct (decide (i = j)) as [->|Hij].
          + rewrite (bool_decide_false (j ∈ l)), (bool_decide_true (j ∈ j :: l)), Hmj by (done || left).
            simpl. done.
          + rewrite Hsame by done.
            replace (bool_decide (i ∈ j :: l)) with (bool_decide (i ∈ l)); [done|].
            apply bool_decide_ext. rewrite elem_of_cons. split; [by right|by intros [?|?]].
        - rewrite Hla, Hlaunch, <- app_assoc. f_equal.
          assert (Hf : filter (λ i, mask_has (spdk_app_get_core_mask w) i = true
                                    ∧ lcore_state e1 i ≠ RUNNING) l
                       = filter (λ i, mask_has (spdk_app_get_core_mask w) i = true
                                      ∧ lcore_state e i ≠ RUNNING) l).
          { apply filter_ext_in. intros i Hi.
            rewrite Hsame; [done|]. intros ->. done. }
          rewrite Hf. destruct (decide (lcore_state e j ≠ RUNNING)).
          + rewrite decide_True by done. done.
          + rewrite decide_False by (intros [_ ?]; done). done. }
      destruct (lcore_state e j) eqn:Hsj.
      * apply Hwait; simpl.
        -- intros i Hi. by rewrite decide_False.
        -- by rewrite decide_True.
        -- done.
      * apply Hwait; simpl; [done|done|]. by rewrite app_nil_r.
      * simpl. rewrite decide_True by done. apply Hwait; simpl.
        -- intros i Hi. by rewrite !decide_False.
        -- by rewrite decide_True.
        -- done.
    + rewrite decide_False by (intros [? _]; done).
      destruct (IH w e) as (e' & -> & Hst & Hla); [|done|].
      { intros i Hi. apply Hl. by right. }
      exists e'. split; [done|]. split; [|done].
      intros i. rewrite Hst. destruct (decide (i = j)) as [->|Hij].
      * by rewrite Hmj, !andb_false_r.
      * replace (bool_decide (i ∈ j :: l)) with (bool_decide (i ∈ l)); [done|].
        apply bool_decide_ext. rewrite elem_of_cons. split; [by right|by intros [?|?]].
Qed.

Lemma NoDup_slave_lcores : NoDup (slave_lcores h).
Proof. unfold slave_lcores, lcores. apply NoDup_filter, NoDup_filter, NoDup_seq. Qed.

(** X15: the reactors [spdk_reactors_start] hands to the launcher, on
    a host whose cores are numbered below 64.  When the reactors of the
    enabled cores in the mask carry their own core numbers (as [spdk_reactors_init] leaves them), the first loop
    changes nothing in the process itself.  Every enabled core in the
    mask, the master apart, is RUNNING afterwards.  The cores that were
    in WAIT or FINISHED have been given their own reactor, in
    increasing order; a core that was RUNNING already keeps what it
    runs, and its reactor is not started. *)
Theorem start_slaves_launches fuel cur w e :
  lcores_below_64 h →
  (∀ i, i ∈ slave_lcores h → mask_has (spdk_app_get_core_mask w) i = true →
     ∃ r, g_reactors w !! i = Some r ∧ lcore r = i) →
  ∃ e', start_slaves h user_fn poller_fn fuel cur (slave_lcores h) w e
        = Start_returned (Ok (w, e'))
        ∧ (∀ i, lcore_state e' i
                = if bool_decide (i ∈ slave_lcores h) && mask_has (spdk_app_get_core_mask w) i
                  then RUNNING else lcore_state e i)
        ∧ launched e'
          = launched e
            ++ map (λ i, (i, i))
                 (filter (λ i, mask_has (spdk_app_get_core_mask w) i = true
                               ∧ lcore_state e i ≠ RUNNING) (slave_lcores h)).
Proof.
  intros _ Hl. apply start_slaves_spec; [|apply NoDup_slave_lcores].
  intros i Hi Hm. split; [|by apply Hl].
  unfold slave_lcores in Hi. by apply list_elem_of_filter in Hi as [? _].
Qed.

(** X14: [spdk_reactors_start] in a process whose mask holds no core
    but the master, on a host whose cores are numbered below 64.  On
    any other thread the call fails its [RTE_VERIFY].  It is inside the master's reactor loop for as long as
    that loop runs.  When it returns, the state is SHUTDOWN, nothing has
    been launched, every other lcore has been waited for and is in
    WAIT, and the loop of the master has run from RUNNING to the point
    where it found the state EXITING: the call does not return before
    [spdk_reactors_stop].  With no other lcore busy it returns as soon
    as the master's loop does. *)
Theorem spdk_reactors_start_returns fuel cur w e :
  lcores_below_64 h →
  (∀ i, i ∈ slave_lcores h → mask_has (spdk_app_get_core_mask w) i = false) →
  (∃ r, g_reactors w !! rte_get_master_lcore h = Some r ∧ lcore r = rte_get_master_lcore h) →
  let w1 := set_reactor_state SPDK_REACTOR_STATE_RUNNING w in
  (cur ≠ rte_get_master_lcore h →
   spdk_reactors_start h user_fn poller_fn fuel cur w e = Start_returned Panic)
  ∧ (∀ w3,
       cur = rte_get_master_lcore h →
       _spdk_reactor_run user_fn poller_fn fuel cur cur w1 = Still_running w3 →
       spdk_reactors_start h user_fn poller_fn fuel cur w e = Start_in_loop w3)
  ∧ (∀ w' e',
       spdk_reactors_start h user_fn poller_fn fuel cur w e = Start_returned (Ok (w', e')) →
       cur = rte_get_master_lcore h
       ∧ g_reactor_state w' = SPDK_REACTOR_STATE_SHUTDOWN
       ∧ (∀ i, i ∈ slave_lcores h → lcore_state e' i = WAIT)
       ∧ launched e' = launched e
       ∧ ∃ w3, _spdk_reactor_run user_fn poller_fn fuel cur cur w1 = Returned (Ok w3)
               ∧ g_reactor_state w3 = SPDK_REACTOR_STATE_EXITING
               ∧ w' = set_reactor_state SPDK_REACTOR_STATE_SHUTDOWN w3)
  ∧ (∀ w3,
       cur = rte_get_master_lcore h →
       (∀ i, i ∈ slave_lcores h → lcore_state e i ≠ RUNNING) →
       _spdk_reactor_run user_fn poller_fn fuel cur cur w1 = Returned (Ok w3) →
       ∃ e', spdk_reactors_start h user_fn poller_fn fuel cur w e
             = Start_returned (Ok (set_reactor_state SPDK_REACTOR_STATE_SHUTDOWN w3, e'))).
Proof.
  intros _ Hnomask (rm & Hrm & Hlm) w1.
  assert (Hslaves : ∃ e2, start_slaves h user_fn poller_fn fuel cur (slave_lcores h) w1 e
        = Start_returned (Ok (w1, e2))
        ∧ (∀ i, lcore_state e2 i = lcore_state e i)
        ∧ launched e2 = launched e).
  { destruct (start_slaves_spec fuel cur (slave_lcores h) w1 e) as (e2 & Hs & Hst & Hla).
    - intros i Hi Hm. change (spdk_app_get_core_mask w1) with (spdk_app_get_core_mask w) in Hm.
      rewrite Hnomask in Hm; done.
    - apply NoDup_slave_lcores.
    - exists e2. split; [done|]. split.
      + intros i. rewrite Hst.
        change (spdk_app_get_core_mask w1) with (spdk_app_get_core_mask w).
        destruct (decide (i ∈ slave_lcores h)) as [Hi|Hi].
        * by rewrite Hnomask, andb_false_r.
        * by rewrite bool_decide_false.
      + rewrite Hla, filter_none; [by rewrite app_nil_r|].
        intros i Hi [Hm _].
        change (spdk_app_get_core_mask w1) with (spdk_app_get_core_mask w) in Hm.
        rewrite Hnomask in Hm; done. }
  destruct Hslaves as (e2 & Hstart & Hst2 & Hla2).
  assert (Hmaster : spdk_reactor_start h user_fn poller_fn fuel cur (rte_get_master_lcore h) w1 e2
                    = match _spdk_reactor_run user_fn poller_fn fuel cur (rte_get_master_lcore h) w1 with
                      | Returned (Ok w3) => Start_returned (Ok (w3, e2))
                      | Returned Exit_failure => Start_returned Exit_failure
                      | Returned Panic => Start_returned Panic
                      | Returned Fault => Start_returned Fault
                      | Still_running w3 => Start_in_loop w3
                      end).
  { unfold spdk_reactor_start. cbn [g_reactors w1 set_reactor_state]. rewrite Hrm.
    rewrite decide_False by (intros ?; done). done. }
  split; [|split; [|split]].
  - intros Hcur. unfold spdk_reactors_start. by rewrite decide_False.
  - intros w3 -> Hrun. unfold spdk_reactors_start.
    rewrite decide_True by done. fold w1. by rewrite Hstart, Hmaster, Hrun.
  - intros w' e'. unfold spdk_reactors_start.
    destruct (decide (rte_get_master_lcore h = cur)) as [<-|]; [|done].
    fold w1. rewrite Hstart, Hmaster.
    destruct (_spdk_reactor_run _ _ _ _ _ w1) as [[w3| | |]|w3] eqn:Hrun; try done.
    destruct (rte_eal_mp_wait_lcore (slave_lcores h) e2) as [e4|] eqn:Hwait; [|done].
    intros [= <- <-].
    apply rte_eal_mp_wait_lcore_WAIT in Hwait as (Hla4 & _ & Hin & _).
    split; [done|]. split; [done|]. split; [done|]. split; [congruence|].
    exists w3. split; [done|]. split; [|done].
    by eapply _spdk_reactor_run_returned.
  - intros w3 -> Hidle Hrun. unfold spdk_reactors_start.
    rewrite decide_True by done. fold w1. rewrite Hstart, Hmaster, Hrun.
    assert (Hwait : ∀ l e0, (∀ i, i ∈ l → lcore_state e0 i ≠ RUNNING) →
              ∃ e4, rte_eal_mp_wait_lcore l e0 = inl e4).
    { induction l as [|j l IH]; intros e0 H0; simpl; [by eexists|].
      unfold rte_eal_wait_lcore. destruct (lcore_state e0 j) eqn:Hj.
      - apply IH. intros i Hi. apply H0. by right.
      - destruct (H0 j); [by left|done].
      - apply IH. intros i Hi. simpl. case_decide; [done|]. apply H0. by right. }
    destruct (Hwait (slave_lcores h) e2) as [e4 ->]; [|by eexists].
    intros i Hi. rewrite Hst2. by apply Hidle.
Qed.

End start_props.

(** ** A registration and an unregistration in flight *)

Lemma spdk_poller_register_Ok p n c w r ecap q free :
  g_reactors w !! n = Some r →
  events r = Some (Ring ecap q) →
  (N.of_nat (length q) < ecap)%N →
  g_spdk_event_mempool w = Some free →
  (0 < free)%N →
  spdk_poller_register p n c w
  = Ok (set_events n (Ring ecap (q ++ [Event n Fn_add_poller (Arg_reactor n) (Arg_poller p) c]))
          (set_mempool (Some (free - 1)%N) w)).
Proof.
  intros Hn Hq Hroom Hpool Hfree. unfold spdk_poller_register, spdk_event_allocate.
  rewrite Hpool. destruct (N.eqb_spec free 0); [lia|]. simpl.
  by erewrite (spdk_event_call_room _ (set_mempool _ w) r ecap q).
Qed.

Lemma spdk_poller_unregister_Ok p a c w r ecap q free :
  poller_lcore w !! p = Some a →
  g_reactors w !! a = Some r →
  events r = Some (Ring ecap q) →
  (N.of_nat (length q) < ecap)%N →
  g_spdk_event_mempool w = Some free →
  (0 < free)%N →
  spdk_poller_unregister p c w
  = Ok (set_events a (Ring ecap (q ++ [Event a Fn_remove_poller (Arg_reactor a) (Arg_poller p) c]))
          (set_mempool (Some (free - 1)%N) w)).
Proof.
  intros Hp Hn Hq Hroom Hpool Hfree. unfold spdk_poller_unregister, spdk_event_allocate.
  rewrite Hp, Hpool. destruct (N.eqb_spec free 0); [lia|]. simpl.
  by erewrite (spdk_event_call_room _ (set_mempool _ w) r ecap q).
Qed.

Section race.

Variable user_fn : nat → spdk_event → world → list api_call.
Variable poller_fn : nat → world → list api_call.

(** One turn of the drain loop on a queue whose head is [e]. *)
Lemma spdk_event_queue_run_single_head cur n w r ecap e q free :
  g_reactors w !! n = Some r →
  events r = Some (Ring ecap (e :: q)) →
  g_spdk_event_mempool w = Some free →
  ∀ w2, event_fn_call user_fn cur e
          (observe (Obs_event_fn e) (set_events n (Ring ecap q) w)) = Ok w2 →
  g_spdk_event_mempool w2 = Some free →
  spdk_event_queue_run_single user_fn cur n w
  = Ok (observe (Obs_event_free e) (set_mempool (Some (free + 1)%N) w2)).
Proof.
  intros Hn Hq Hpool w2 Hcall Hpool2. unfold spdk_event_queue_run_single.
  apply reactor_load_Ok in Hn. rewrite Hn. simpl. rewrite Hq.
  unfold rte_ring_dequeue. simpl. rewrite Hcall. simpl.
  unfold spdk_event_free. by rewrite Hpool2.
Qed.

Ltac reactor_lookup :=
  repeat first
    [ progress cbn [g_reactors observe set_mempool set_poller_lcore set_reactor_state]
    | rewrite lookup_set_events
    | rewrite lookup_set_active_pollers
    | rewrite decide_True by done
    | rewrite decide_False by done ].

(** X16: an unregistration that overtakes the registration.
    [spdk_poller_unregister] goes by the [lcore] field of the poller,
    which [spdk_poller_register] has not written yet: only the handler
    on the target core writes it.  Called while the registration on
    core [n] is still queued, it sends its event to the core [a] the
    poller was on before, where the poller is not in the ring.  The two
    events then run on their cores, in either order, and the poller
    ends registered on [n]: the unregistration is lost. *)
Theorem unregister_overtakes_register w p a n ra rn ecap_a cap_a la ecap_n cap_n ln free steps :
  a ≠ n →
  poller_lcore w !! p = Some a →
  g_reactors w !! a = Some ra →
  events ra = Some (Ring ecap_a []) → (0 < ecap_a)%N →
  active_pollers ra = Some (Ring cap_a la) → (N.of_nat (length la) ≤ cap_a)%N →
  p ∉ la →
  g_reactors w !! n = Some rn →
  events rn = Some (Ring ecap_n []) → (0 < ecap_n)%N →
  active_pollers rn = Some (Ring cap_n ln) → (N.of_nat (length ln) < cap_n)%N →
  g_spdk_event_mempool w = Some free → (2 ≤ free)%N →
  steps = [Step_event a; Step_event n] ∨ steps = [Step_event n; Step_event a] →
  ∃ w1 w2 w3,
    spdk_poller_register p n None w = Ok w1
    ∧ spdk_poller_unregister p None w1 = Ok w2
    ∧ events_of n w2 = [Event n Fn_add_poller (Arg_reactor n) (Arg_poller p) None]
    ∧ events_of a w2 = [Event a Fn_remove_poller (Arg_reactor a) (Arg_poller p) None]
    ∧ run_steps user_fn poller_fn steps w2 = Ok w3
    ∧ events_of n w3 = [] ∧ events_of a w3 = []
    ∧ pollers_of n w3 = ln ++ [p]
    ∧ pollers_of a w3 = la
    ∧ poller_lcore w3 !! p = Some (lcore rn)
    ∧ g_spdk_event_mempool w3 = Some free.
Proof.
  intros Hne Hp Ha Hqa Hecapa Hra Hcapa Hnotin Hn Hqn Hecapn Hrn Hcapn Hpool Hfree Hsteps.
  set (add := Event n Fn_add_poller (Arg_reactor n) (Arg_poller p) None).
  set (rem := Event a Fn_remove_poller (Arg_reactor a) (Arg_poller p) None).
  set (w1 := set_events n (Ring ecap_n [add]) (set_mempool (Some (free - 1)%N) w)).
  set (w2 := set_events a (Ring ecap_a [rem]) (set_mempool (Some (free - 1 - 1)%N) w1)).
  assert (Hreg : spdk_poller_register p n None w = Ok w1).
  { rewrite (spdk_poller_register_Ok p n None w rn ecap_n [] free); try done; simpl; lia. }
  assert (Hunreg : spdk_poller_unregister p None w1 = Ok w2).
  { rewrite (spdk_poller_unregister_Ok p a None w1
               (Reactor (lcore ra) (active_pollers ra) (Some (Ring ecap_a []))) ecap_a []
               (free - 1)%N);
      [done | by subst w1 | | done | simpl; lia | done | lia].
    subst w1. reactor_lookup. rewrite Ha. destruct ra; simpl in *. by rewrite Hqa. }
  (* the handlers, on any world in which the two cores are as they are here *)
  assert (Hadd : ∀ v q f,
    g_reactors v !! n = Some (Reactor (lcore rn) (Some (Ring cap_n ln)) (Some (Ring ecap_n (add :: q)))) →
    g_spdk_event_mempool v = Some f →
    spdk_event_queue_run_single user_fn n n v
    = Ok (observe (Obs_event_free add) (set_mempool (Some (f + 1)%N)
            (set_active_pollers n (Ring cap_n (ln ++ [p]))
               (set_poller_lcore p (lcore rn)
                  (observe (Obs_event_fn add) (set_events n (Ring ecap_n q) v))))))).
  { intros v q f Hv Hf.
    eapply spdk_event_queue_run_single_head; [exact Hv|done|exact Hf| |done].
    unfold event_fn_call, add. cbn [ev_fn]. fold add.
    unfold add at 1.
    rewrite (_spdk_event_add_poller_room _ n
               (Reactor (lcore rn) (Some (Ring cap_n ln)) (Some (Ring ecap_n q)))
               cap_n ln p n None); [done| |done..].
    reactor_lookup. rewrite Hv. done. }
  assert (Hrem : ∀ v q f,
    g_reactors v !! a = Some (Reactor (lcore ra) (Some (Ring cap_a la)) (Some (Ring ecap_a (rem :: q)))) →
    g_spdk_event_mempool v = Some f →
    spdk_event_queue_run_single user_fn a a v
    = Ok (observe (Obs_event_free rem) (set_mempool (Some (f + 1)%N)
            (observe (Obs_event_fn rem) (set_events a (Ring ecap_a q) v))))).
  { intros v q f Hv Hf.
    eapply spdk_event_queue_run_single_head; [exact Hv|done|exact Hf| |done].
    unfold event_fn_call, rem. cbn [ev_fn]. fold rem.
    unfold _spdk_event_remove_poller, rem at 1 2 3. cbn [ev_arg1 ev_arg2 ev_next].
    unfold reactor_load. reactor_lookup. rewrite Hv. simpl.
    rewrite (remove_poller_walk_absent (length la)); [|done|done|lia].
    rewrite drop_all, firstn_all. simpl.
    rewrite (set_active_pollers_same a
               (Reactor (lcore ra) (Some (Ring cap_a la)) (Some (Ring ecap_a q)))); [done| |done].
    reactor_lookup. by rewrite Hv. }
  assert (Hn2 : g_reactors w2 !! n
                = Some (Reactor (lcore rn) (Some (Ring cap_n ln)) (Some (Ring ecap_n [add])))).
  { subst w2 w1. reactor_lookup. rewrite Hn. simpl. by rewrite Hrn. }
  assert (Ha2 : g_reactors w2 !! a
                = Some (Reactor (lcore ra) (Some (Ring cap_a la)) (Some (Ring ecap_a [rem])))).
  { subst w2 w1. reactor_lookup. rewrite Ha. simpl. by rewrite Hra. }
  exists w1, w2.
  destruct Hsteps as [-> | ->]; cbn [run_steps run_step].
  - rewrite (Hrem w2 [] (free - 1 - 1)%N Ha2 eq_refl). simpl.
    erewrite Hadd; [|reactor_lookup; rewrite Hn2; done|done]. simpl.
    eexists. split; [done|]. split; [done|].
    split; [by rewrite (events_of_lookup _ _ _ _ _ Hn2 eq_refl)|].
    split; [by rewrite (events_of_lookup _ _ _ _ _ Ha2 eq_refl)|].
    split; [done|].
    unfold events_of, pollers_of. reactor_lookup. rewrite Hn2, Ha2. simpl.
    rewrite lookup_insert_eq. repeat split; try done. f_equal. lia.
  - rewrite (Hadd w2 [] (free - 1 - 1)%N Hn2 eq_refl). simpl.
    erewrite Hrem; [|reactor_lookup; rewrite Ha2; done|done]. simpl.
    eexists. split; [done|]. split; [done|].
    split; [by rewrite (events_of_lookup _ _ _ _ _ Hn2 eq_refl)|].
    split; [by rewrite (events_of_lookup _ _ _ _ _ Ha2 eq_refl)|].
    split; [done|].
    unfold events_of, pollers_of. reactor_lookup. rewrite Hn2, Ha2. simpl.
    rewrite lookup_insert_eq. repeat split; try done. f_equal. lia.
Qed.

End race.

(** ** Names *)

Local Open Scope Z_scope.

Lemma decimal_digit d :
  0 ≤ d < 10 → Z.of_nat (nat_of_ascii (ascii_of_nat (Z.to_nat (48 + d)))) - 48 = d.
Proof.
  intros Hd.
  assert (d = 0 ∨ d = 1 ∨ d = 2 ∨ d = 3 ∨ d = 4 ∨ d = 5 ∨ d = 6 ∨ d = 7 ∨ d = 8 ∨ d = 9)
    as H by lia.
  repeat destruct H as [->|H]; try subst d; reflexivity.
Qed.

(** Reading the digits of [d_digits] gives the number back, and there
    are no more of them than the number needs. *)
Lemma d_digits_spec fuel : ∀ v acc,
  0 ≤ v < 10 ^ Z.of_nat fuel →
  (∀ a, decimal_value a (d_digits fuel v acc)
        = decimal_value (a * 10 ^ Z.of_nat (String.length (d_digits fuel v acc)
                                            - String.length acc) + v) acc)
  ∧ ∀ k : nat, (1 ≤ k)%nat → v < 10 ^ Z.of_nat k →
      (String.length (d_digits fuel v acc) ≤ k + String.length acc)%nat
      ∧ (String.length acc ≤ String.length (d_digits fuel v acc))%nat.
Proof.
  induction fuel as [|fuel IH]; intros v acc Hv.
  - simpl in *. split.
    + intros a. rewrite Nat.sub_diag. simpl. f_equal. lia.
    + intros k Hk _. lia.
  - cbn [d_digits].
    assert (Hd : 0 ≤ v mod 10 < 10) by (apply Z.mod_pos_bound; lia).
    destruct (Z.eqb_spec (v / 10) 0) as [H0|Hne].
    + split.
      * intros a. cbn [String.length decimal_value].
        replace (S (String.length acc) - String.length acc)%nat with 1%nat by lia.
        rewrite decimal_digit by done. f_equal.
        pose proof (Z.div_mod v 10 ltac:(lia)) as Hdm. rewrite H0 in Hdm.
        change (10 ^ Z.of_nat 1) with 10. lia.
      * intros k Hk _. simpl. lia.
    + assert (Hv10 : 0 ≤ v / 10 < 10 ^ Z.of_nat fuel).
      { rewrite Nat2Z.inj_succ, Z.pow_succ_r in Hv by lia.
        split; [apply Z.div_pos; lia|apply Z.div_lt_upper_bound; lia]. }
      destruct (IH (v / 10) (String (ascii_of_nat (Z.to_nat (48 + v mod 10))) acc) Hv10)
        as [Hval Hlen].
      split.
      * intros a. rewrite Hval. cbn [String.length decimal_value].
        rewrite decimal_digit by done.
        destruct (Hlen (S fuel) ltac:(lia)) as [_ Hge].
        { etrans; [apply Hv10|]. apply Z.pow_lt_mono_r; lia. }
        simpl in Hge.
        set (n := String.length (d_digits fuel (v / 10) _)) in *.
        f_equal.
        replace (Z.of_nat (n - String.length acc))
          with (Z.succ (Z.of_nat (n - S (String.length acc)))) by lia.
        rewrite Z.pow_succ_r by lia.
        pose proof (Z.div_mod v 10 ltac:(lia)) as Hdm. nia.
      * intros k Hk Hvk.
        assert (v ≠ 0) by (intros ->; by rewrite Z.div_0_l in Hne).
        assert (10 ≤ v).
        { destruct (Z.lt_ge_cases v 10); [|done]. rewrite Z.div_small in Hne by lia. done. }
        assert (2 ≤ k)%nat.
        { destruct k as [|[|k]]; [lia| |lia]. simpl in Hvk. lia. }
        destruct (Hlen (k - 1)%nat ltac:(lia)) as [Hle Hge].
        { apply Z.div_lt_upper_bound; [lia|].
          replace (Z.of_nat k) with (Z.succ (Z.of_nat (k - 1))) in Hvk by lia.
          rewrite Z.pow_succ_r in Hvk by lia. done. }
        simpl in Hle, Hge. lia.
Qed.

Lemma printf_d_value (v : nat) :
  Z.of_nat v < 10 ^ 10 → decimal_value 0 (printf_d v) = Z.of_nat v.
Proof.
  intros Hv. unfold printf_d.
  destruct (d_digits_spec 10 (Z.of_nat v) EmptyString) as [Hval _].
  { split; [apply Nat2Z.is_nonneg|exact Hv]. }
  rewrite Hval. simpl. lia.
Qed.

Lemma printf_d_inj (i j : nat) :
  Z.of_nat i < 10 ^ 10 → Z.of_nat j < 10 ^ 10 → printf_d i = printf_d j → i = j.
Proof.
  intros Hi Hj Heq. apply Nat2Z.inj.
  by rewrite <- (printf_d_value i), <- (printf_d_value j), Heq.
Qed.

Lemma printf_d_length (v k : nat) :
  (1 ≤ k)%nat → Z.of_nat v < 10 ^ Z.of_nat k → Z.of_nat v < 10 ^ 10 →
  (String.length (printf_d v) ≤ k)%nat.
Proof.
  intros Hk Hv Hv10. unfold printf_d.
  destruct (d_digits_spec 10 (Z.of_nat v) EmptyString) as [_ Hlen].
  { split; [apply Nat2Z.is_nonneg|exact Hv10]. }
  destruct (Hlen k Hk Hv) as [Hle _].
  change (String.length EmptyString) with 0%nat in Hle. lia.
Qed.

Local Close Scope Z_scope.

Lemma substring_all (s : string) (n : nat) :
  String.length s ≤ n → substring 0 n s = s.
Proof.
  revert n. induction s as [|c s IH]; intros [|n] Hn; simpl in *; try done; [lia|].
  rewrite IH by lia. done.
Qed.

Lemma length_append (s t : string) :
  String.length (s ++ t) = String.length s + String.length t.
Proof. induction s as [|c s IH]; simpl; [done|]. by rewrite IH. Qed.

Lemma append_inj_r (p s t : string) : (p ++ s = p ++ t)%string → s = t.
Proof. induction p as [|c p IH]; simpl; [done|]. intros [= H]. by apply IH. Qed.

(** X17: the names made of a core number.  For a core number below
    10^7 (below 2^31 for the rings) nothing is cut off by the buffer:
    the name is the prefix and the digits of the number.  Different
    cores have different names, and the two rings of a core too. *)
Theorem names_tell_cores_apart (i j : nat) :
  (Z.of_nat i < 10 ^ 7)%Z → (Z.of_nat j < 10 ^ 7)%Z →
  set_reactor_thread_name i = ("reactor " ++ printf_d i)%string
  ∧ active_pollers_ring_name i = ("spdk_active_pollers_" ++ printf_d i)%string
  ∧ events_ring_name i = ("spdk_event_queue_" ++ printf_d i)%string
  ∧ (set_reactor_thread_name i = set_reactor_thread_name j → i = j)
  ∧ (active_pollers_ring_name i = active_pollers_ring_name j → i = j)
  ∧ (events_ring_name i = events_ring_name j → i = j)
  ∧ active_pollers_ring_name i ≠ events_ring_name j.
Proof.
  intros Hi Hj.
  assert (H7 : ∀ k, (Z.of_nat k < 10 ^ 7)%Z →
            (Z.of_nat k < 10 ^ 10)%Z ∧ String.length (printf_d k) ≤ 7).
  { intros k Hk.
    assert (Z.of_nat k < 10 ^ 10)%Z by lia.
    split; [done|]. by apply printf_d_length; [lia|..]. }
  assert (Hname : ∀ k, (Z.of_nat k < 10 ^ 7)%Z →
            set_reactor_thread_name k = ("reactor " ++ printf_d k)%string
            ∧ active_pollers_ring_name k = ("spdk_active_pollers_" ++ printf_d k)%string
            ∧ events_ring_name k = ("spdk_event_queue_" ++ printf_d k)%string).
  { intros k Hk. destruct (H7 k Hk) as [_ Hlen].
    unfold set_reactor_thread_name, active_pollers_ring_name, events_ring_name, snprintf.
    rewrite !substring_all; [done|..]; rewrite length_append; simpl; lia. }
  destruct (Hname i Hi) as (Hti & Hpi & Hei), (Hname j Hj) as (Htj & Hpj & Hej).
  destruct (H7 i Hi) as [Hi10 _], (H7 j Hj) as [Hj10 _].
  split; [done|]. split; [done|]. split; [done|].
  rewrite Hti, Htj, Hpi, Hpj, Hei, Hej.
  split; [|split; [|split]].
  - intros H%append_inj_r. by apply printf_d_inj.
  - intros H%append_inj_r. by apply printf_d_inj.
  - intros H%append_inj_r. by apply printf_d_inj.
  - simpl. intros [=].
Qed.

(** ** The front of a mask string *)

Lemma hex_digit_code c d :
  hex_digit c = Some d →
  (48 ≤ Z.of_nat (nat_of_ascii c) ≤ 102)%Z.
Proof.
  unfold hex_digit. intros H.
  repeat match type of H with
  | (if ?b then _ else _) = _ => destruct b eqn:?
  end; simplify_eq;
  repeat match goal with
  | H : (_ && _) = true |- _ => apply andb_true_iff in H as [? ?]
  | H : (_ <=? _)%Z = true |- _ => apply Z.leb_le in H
  end; lia.
Qed.

Lemma hex_digit_not_space c d : hex_digit c = Some d → isspace c = false.
Proof.
  intros H%hex_digit_code. unfold isspace.
  apply orb_false_iff. split; [apply Nat.eqb_neq; lia|].
  apply andb_false_iff. right. apply Nat.leb_gt. lia.
Qed.

Lemma hex_digit_not_sign c d :
  hex_digit c = Some d → Ascii.eqb c "-" = false ∧ Ascii.eqb c "+" = false.
Proof.
  intros H. split.
  - destruct (Ascii.eqb_spec c "-") as [->|]; [vm_compute in H; discriminate|done].
  - destruct (Ascii.eqb_spec c "+") as [->|]; [vm_compute in H; discriminate|done].
Qed.

(** The reading of a string that starts with a digit. *)
Lemma mask_digits_plain c s d :
  hex_digit c = Some d →
  (∀ x s2, s = String x s2 → Ascii.eqb c "0" && is_x x = false) →
  mask_sign (String c s) = (false, String c s)
  ∧ mask_digits (String c s) = hex_span (String c s).
Proof.
  intros Hd Hx.
  assert (Hsign : mask_sign (String c s) = (false, String c s)).
  { unfold mask_sign. cbn [skip_space]. rewrite (hex_digit_not_space c d Hd).
    unfold strip_sign. destruct (hex_digit_not_sign c d Hd) as [-> ->]. done. }
  split; [done|]. unfold mask_digits. rewrite Hsign. cbn [snd].
  destruct s as [|x s2]; [done|]. by rewrite (Hx x s2 eq_refl).
Qed.

Lemma mask_digits_of_sign t1 t2 :
  snd (mask_sign t1) = snd (mask_sign t2) → mask_digits t1 = mask_digits t2.
Proof. unfold mask_digits. by intros ->. Qed.

Lemma mask_sign_space sp text : isspace sp = true → mask_sign (String sp text) = mask_sign text.
Proof. intros Hsp. unfold mask_sign. cbn [skip_space]. by rewrite Hsp. Qed.

Section prefixes.

Variable h : host.

(** The result of the parse depends on the string through what
    [strtoull] reads in it. *)
Lemma spdk_app_parse_core_mask_reads s1 s2 c :
  fst (mask_sign s1) = fst (mask_sign s2) →
  mask_value s1 = mask_value s2 →
  mask_tail s1 = mask_tail s2 →
  spdk_app_parse_core_mask h (Some s1) (Some c) = spdk_app_parse_core_mask h (Some s2) (Some c).
Proof.
  intros Hs Hv Ht. unfold spdk_app_parse_core_mask. rewrite !strtoull_spec.
  unfold mask_parsed. by rewrite Hs, Hv, Ht.
Qed.

(** X18: what may stand in front of the digits of a mask.  For a
    string that starts with a hexadecimal digit (and not with a [0x] of
    its own), a [0x] or [0X], a plus sign, and a white-space character
    in front of it (also in front of the [0x]) make no difference to
    the result of the parse. *)
Theorem mask_prefixes_are_optional c s d sp cpumask :
  hex_digit c = Some d →
  (∀ x s2, s = String x s2 → Ascii.eqb c "0" && is_x x = false) →
  isspace sp = true →
  let parse text := spdk_app_parse_core_mask h (Some text) (Some cpumask) in
  parse (String "0" (String "x" (String c s))) = parse (String c s)
  ∧ parse (String "0" (String "X" (String c s))) = parse (String c s)
  ∧ parse (String "+" (String c s)) = parse (String c s)
  ∧ parse (String sp (String c s)) = parse (String c s)
  ∧ parse (String sp (String "0" (String "x" (String c s)))) = parse (String c s).
Proof.
  intros Hd Hx Hsp parse. subst parse. cbv beta.
  destruct (mask_digits_plain c s d Hd Hx) as [Hsign Hdig].
  assert (Hspan : ∃ ds t, hex_span (String c s) = (d :: ds, t)).
  { cbn [hex_span]. rewrite Hd. destruct (hex_span s) as [ds t]. by eexists _, _. }
  destruct Hspan as (ds & t & Hspan).
  assert (H0x : ∀ x, is_x x = true →
            mask_sign (String "0" (String x (String c s))) = (false, String "0" (String x (String c s)))
            ∧ mask_digits (String "0" (String x (String c s))) = (d :: ds, t)).
  { intros x Hisx.
    assert (Hs0 : mask_sign (String "0" (String x (String c s)))
                  = (false, String "0" (String x (String c s)))) by done.
    split; [done|]. unfold mask_digits. rewrite Hs0. cbn [snd].
    rewrite Hisx. simpl andb. cbv iota. by rewrite Hspan. }
  assert (Hread : ∀ text,
            fst (mask_sign text) = false → mask_digits text = (d :: ds, t) →
            spdk_app_parse_core_mask h (Some text) (Some cpumask)
            = spdk_app_parse_core_mask h (Some (String c s)) (Some cpumask)).
  { intros text Hs1 Hd1. apply spdk_app_parse_core_mask_reads.
    - by rewrite Hs1, Hsign.
    - unfold mask_value. by rewrite Hd1, Hdig, Hspan.
    - unfold mask_tail. by rewrite Hd1, Hdig, Hspan. }
  split; [|split; [|split; [|split]]].
  - destruct (H0x "x"%char eq_refl) as [Hs1 Hd1]. apply Hread; [by rewrite Hs1|done].
  - destruct (H0x "X"%char eq_refl) as [Hs1 Hd1]. apply Hread; [by rewrite Hs1|done].
  - assert (Hs1 : mask_sign (String "+" (String c s)) = (false, String c s)) by done.
    apply Hread; [by rewrite Hs1|].
    rewrite (mask_digits_of_sign _ (String c s)), Hdig; [done|]. by rewrite Hs1, Hsign.
  - apply Hread.
    + by rewrite mask_sign_space, Hsign.
    + rewrite (mask_digits_of_sign _ (String c s)), Hdig; [done|].
      by rewrite mask_sign_space.
  - destruct (H0x "x"%char eq_refl) as [Hs1 Hd1]. apply Hread.
    + by rewrite mask_sign_space, Hs1.
    + rewrite (mask_digits_of_sign _ (String "0" (String "x" (String c s)))); [done|].
      by rewrite mask_sign_space.
Qed.

End prefixes.

Section empty_mask.

Variable h : host.

Lemma foldl_clear_disabled_0 l : foldl (clear_disabled h) 0%Z l = 0%Z.
Proof. induction l as [|i l IH]; [done|]. simpl. exact IH. Qed.

(** X19: the empty string and strings of white space.  The empty
    string is a mask: the parser returns 0 with no core set, and
    [spdk_reactors_init] then refuses it for want of the master core,
    leaving the mask at 0.  A string of white space only is refused by
    the parser. *)
Theorem empty_mask_string sp text cpumask w :
  isspace sp = true →
  skip_space text = EmptyString →
  g_reactor_state w = SPDK_REACTOR_STATE_INVALID →
  spdk_app_parse_core_mask h (Some EmptyString) (Some cpumask) = (0%Z, Some 0%Z)
  ∧ fst (spdk_app_parse_core_mask h (Some (String sp text)) (Some cpumask)) = (-1)%Z
  ∧ spdk_reactors_init h (Some EmptyString) w = Ok ((-1)%Z, set_reactor_mask 0 w).
Proof.
  intros Hsp Htext Hst.
  assert (Hempty : ∀ c, spdk_app_parse_core_mask h (Some EmptyString) (Some c) = (0%Z, Some 0%Z)).
  { intros c. unfold spdk_app_parse_core_mask.
    change (strtoull EmptyString) with (0%Z, EmptyString, false). simpl.
    by rewrite foldl_clear_disabled_0. }
  split; [apply Hempty|]. split.
  - unfold spdk_app_parse_core_mask. rewrite strtoull_spec.
    assert (Hsign : mask_sign (String sp text) = (false, EmptyString)).
    { unfold mask_sign. cbn [skip_space]. by rewrite Hsp, Htext. }
    assert (Htail : mask_tail (String sp text) = String sp text).
    { unfold mask_tail, mask_digits. by rewrite Hsign. }
    rewrite Htail. cbn [char_at].
    assert (Hnz : Ascii.eqb sp zero = false).
    { destruct (Ascii.eqb_spec sp zero) as [->|]; [done|done]. }
    by rewrite Hnz.
  - unfold spdk_reactors_init, spdk_reactor_parse_mask. rewrite Hst.
    cbn -[spdk_app_parse_core_mask]. rewrite Hempty. done.
Qed.

End empty_mask.

(** * The further properties on the scenarios *)

Lemma pollers_fit_world_ABC : pollers_fit world_ABC.
Proof.
  intros [|[|n]] r ring Hn Hr; vm_compute in Hn; simplify_eq; vm_compute in Hr; simplify_eq;
    vm_compute; discriminate.
Qed.

Lemma lcores_below_64_host_2_of_4 : lcores_below_64 host_2_of_4.
Proof. split; [simpl; lia|]. vm_compute. repeat constructor. Qed.

(** The walk on (A, B, C, D) for B. *)
Lemma remove_poller_walk_keeps_survivors_witness :
  ∃ l' seen, remove_poller_walk 11 0 (Ring 4095 [10; 11; 12; 13]) [] = Ok (Ring 4095 l', seen)
    ∧ length l' ≤ 4.
Proof.
  destruct (remove_poller_walk_keeps_survivors 4095 [10; 11; 12; 13] 11)
    as (l' & seen & Hwalk & Hlen & _); [vm_compute; discriminate|].
  by exists l', seen.
Defined.

(** Unregistering poller 99, which is in no ring. *)
Lemma unregister_absent_poller_witness :
  _spdk_event_remove_poller
    (Event 0 Fn_remove_poller (Arg_reactor 0) (Arg_poller 99) None) world_ABCD
  = Ok world_ABCD.
Proof.
  apply (unregister_absent_poller world_ABCD 0 (core 0 4095 [10; 11; 12; 13] []) 4095
           [10; 11; 12; 13] 99 0 None);
    [reflexivity | reflexivity | vm_compute; discriminate |].
  rewrite !not_elem_of_cons. repeat split; try discriminate. apply not_elem_of_nil.
Defined.

(** Unregistering D, the last entry of (A, B, C, D): (A, B, C). *)
Lemma unregister_present_poller_witness :
  ∃ w', _spdk_event_remove_poller
          (Event 0 Fn_remove_poller (Arg_reactor 0) (Arg_poller 13) None) world_ABCD = Ok w'
        ∧ pollers_of 0 w' = [10; 11; 12].
Proof.
  eexists. split; [vm_compute; reflexivity|].
  destruct (unregister_present_poller world_ABCD 0 (core 0 4095 [10; 11; 12; 13] []) 4095
              [10; 11; 12] [] 13 0 None) as (_ & _ & _ & _ & _ & _ & Hok).
  - reflexivity.
  - reflexivity.
  - vm_compute. discriminate.
  - rewrite !not_elem_of_cons. repeat split; try discriminate. apply not_elem_of_nil.
  - apply not_elem_of_nil.
  - edestruct Hok as [H _]; [vm_compute; reflexivity|]. exact H.
Defined.

(** A poll, an empty turn of the drain loop, and three iterations. *)
Lemma reactor_never_exits_witness :
  run_steps quiet_fn quiet_poller [Step_poll 0; Step_event 1] world_ABC ≠ Exit_failure
  ∧ _spdk_reactor_run quiet_fn quiet_poller 3 0 0 world_ABC ≠ Returned Exit_failure.
Proof.
  destruct (reactor_never_exits quiet_fn quiet_poller [Step_poll 0; Step_event 1] 3 0
              world_ABC pollers_fit_world_ABC) as (H1 & _ & H2).
  by split.
Defined.

(** A poll of (A, B, C). *)
Lemma reactor_poll_turns_ring_witness :
  ∃ w', reactor_poll quiet_poller 0 world_ABC = Ok w'
        ∧ pollers_of 0 w' = [11; 12; 10].
Proof.
  eexists. split; [vm_compute; reflexivity|].
  edestruct (reactor_poll_turns_ring quiet_poller 0 world_ABC) as [H _];
    [vm_compute; reflexivity|]. exact H.
Defined.

(** An event posted behind the two of [world_burst]. *)
Lemma spdk_event_call_delivers_witness :
  ∃ w1, spdk_event_call completion world_burst = Ok w1
        ∧ events_of 0 w1 = [burst_event; echo_event; completion].
Proof.
  eexists. split; [vm_compute; reflexivity|].
  edestruct (spdk_event_call_delivers quiet_fn 0 completion world_burst) as [H _];
    [vm_compute; reflexivity|]. exact H.
Defined.

(** Registering poller 20 on core 0 of [world_ABC]. *)
Lemma register_then_drain_witness :
  ∃ w1 w2,
    spdk_poller_register 20 0 None world_ABC = Ok w1
    ∧ pollers_of 0 w1 = [10; 11; 12]
    ∧ spdk_event_queue_run_all quiet_fn 0 0 w1 = Ok w2
    ∧ pollers_of 0 w2 = [10; 11; 12; 20]
    ∧ poller_lcore w2 !! 20 = Some 0.
Proof.
  destruct (register_then_drain quiet_fn world_ABC 0 (core 0 4095 [10; 11; 12] [])
              65535 4095 [10; 11; 12] 1024 20 None)
    as (w1 & w2 & Hreg & _ & Hp1 & _ & Hrun & Hp2 & _ & Hl & _);
    [reflexivity | reflexivity | reflexivity | reflexivity | vm_compute; reflexivity
    | reflexivity | reflexivity | intros e; discriminate |].
  exists w1, w2. split; [done|]. split; [by rewrite Hp1|]. split; [done|].
  split; [done|]. rewrite Hl. apply lookup_insert_eq.
Defined.

(** Initialising twice. *)
Lemma spdk_reactors_init_once_witness :
  ∃ w', spdk_reactors_init host_2_of_4 None world_boot = Ok (0%Z, w')
        ∧ spdk_reactors_init host_2_of_4 (Some "0x3"%string) w' = Ok ((-1)%Z, w').
Proof.
  eexists. split; [vm_compute; reflexivity|].
  edestruct (spdk_reactors_init_once host_2_of_4 None world_boot) as (_ & H & _).
  edestruct H as (_ & H0 & _); [vm_compute; reflexivity|].
  destruct (H0 eq_refl) as (_ & _ & Hagain). apply Hagain.
Defined.

(** The reactors of a host with cores 0 and 1. *)
Lemma spdk_reactors_init_constructs_witness :
  ∃ w', spdk_reactors_init host_2_of_4 (Some "0x3"%string) world_boot = Ok (0%Z, w')
        ∧ g_reactors w' !! 1 = Some (core 1 4095 [] [])
        ∧ g_reactors w' !! 2 = Some (Reactor 0 None None).
Proof.
  eexists. split; [vm_compute; reflexivity|].
  edestruct (spdk_reactors_init_constructs host_2_of_4 (Some "0x3"%string) world_boot)
    as (_ & _ & _ & _ & _ & Hslot & _);
    [apply lcores_below_64_host_2_of_4 | vm_compute; reflexivity|].
  split; [exact (Hslot 1)|exact (Hslot 2)].
Defined.

(** The count after the initialisation of two cores. *)
Lemma spdk_app_get_core_count_after_init_witness :
  ∃ w', spdk_reactors_init host_2_of_4 None world_boot = Ok (0%Z, w')
        ∧ spdk_app_get_core_count w' = 2%Z.
Proof.
  eexists. split; [vm_compute; reflexivity|].
  erewrite (spdk_app_get_core_count_after_init host_2_of_4 None world_boot);
    [|apply lcores_below_64_host_2_of_4|vm_compute; reflexivity]. reflexivity.
Defined.

(** Core 1 without a poller ring. *)
Lemma missing_poller_ring_goes_unnoticed_witness :
  ∃ w', spdk_reactors_init host_no_poller_ring None world_boot = Ok (0%Z, w')
        ∧ g_reactor_state w' = SPDK_REACTOR_STATE_INITIALIZED
        ∧ g_reactors w' !! 1 = Some (Reactor 1 None (Some (Ring 65535%N []))).
Proof.
  eexists. split; [vm_compute; reflexivity|].
  match goal with
  | |- g_reactor_state ?w' = _ ∧ _ =>
      destruct (missing_poller_ring_goes_unnoticed host_no_poller_ring quiet_fn quiet_poller
                  None world_boot w' 1) as (Hst & Hslot & _);
        [vm_compute; reflexivity | vm_compute; lia | reflexivity | reflexivity |]
  end.
  by split.
Defined.

(** Two cores, each on a socket of its own: the socket mask of the
    mask 3 has the bit of socket 1. *)
Lemma spdk_reactor_get_socket_mask_bits_witness :
  Z.testbit (spdk_reactor_get_socket_mask host_2_of_4 (λ i, i) world_ABC) (Z.of_nat 1) = true.
Proof.
  apply (spdk_reactor_get_socket_mask_bits host_2_of_4 (λ i, i) world_ABC 1).
  - apply lcores_below_64_host_2_of_4.
  - intros i [Hi _]%elem_of_lcores. simpl in Hi. lia.
  - split; [lia|]. exists 1. split; [simpl; lia|]. by repeat split.
Defined.

(** The mask of two cores, printed and parsed. *)
Lemma core_mask_text_round_trip_witness :
  ∃ w', spdk_reactors_init host_2_of_4 None world_boot = Ok (0%Z, w')
        ∧ core_mask_text w' = "0x3"%string
        ∧ spdk_app_parse_core_mask host_2_of_4 (Some (core_mask_text w')) (Some 0%Z)
          = (0%Z, Some 3%Z).
Proof.
  eexists. split; [vm_compute; reflexivity|]. split; [vm_compute; reflexivity|].
  erewrite (core_mask_text_round_trip host_2_of_4 None world_boot);
    [|apply lcores_below_64_host_2_of_4|vm_compute; reflexivity]. reflexivity.
Defined.

(** The master alone: the stop event ends the run in its first
    iteration. *)
Lemma spdk_reactors_start_returns_witness :
  ∃ w' e',
    spdk_reactors_start host_2_of_4 stop_fn quiet_poller 2 0 world_alone eal_idle
    = Start_returned (Ok (w', e'))
    ∧ g_reactor_state w' = SPDK_REACTOR_STATE_SHUTDOWN
    ∧ poller_log (trace w') = [10].
Proof.
  eexists _, _. split; [vm_compute; reflexivity|].
  edestruct (spdk_reactors_start_returns host_2_of_4 stop_fn quiet_poller 2 0 world_alone eal_idle)
    as (_ & _ & Hret & _).
  - apply lcores_below_64_host_2_of_4.
  - intros i Hi. unfold slave_lcores in Hi. apply list_elem_of_filter in Hi as [Hne Hi].
    apply elem_of_lcores in Hi as [Hlt Hen].
    destruct i as [|[|i]]; [done|reflexivity|]. vm_compute in Hen. discriminate.
  - by eexists.
  - edestruct Hret as (_ & Hst & _); [vm_compute; reflexivity|].
    split; [exact Hst|]. vm_compute. reflexivity.
Defined.

(** Two cores in the mask: core 1 is launched with its reactor. *)
Lemma start_slaves_launches_witness :
  ∃ e', start_slaves host_2_of_4 quiet_fn quiet_poller 1 0 (slave_lcores host_2_of_4)
          world_ABC eal_idle = Start_returned (Ok (world_ABC, e'))
        ∧ lcore_state e' 1 = RUNNING
        ∧ launched e' = [(1, 1)].
Proof.
  destruct (start_slaves_launches host_2_of_4 quiet_fn quiet_poller 1 0 world_ABC eal_idle)
    as (e' & Hs & Hst & Hla).
  - apply lcores_below_64_host_2_of_4.
  - intros i Hi Hm. unfold slave_lcores in Hi. apply list_elem_of_filter in Hi as [Hne Hi].
    apply elem_of_lcores in Hi as [Hlt Hen].
    destruct i as [|[|i]]; [done|by eexists|]. vm_compute in Hen. discriminate.
  - exists e'. split; [done|]. split; [by rewrite Hst|]. rewrite Hla. vm_compute. reflexivity.
Defined.

(** Poller 7, last seen on core 0, registered on core 1 and
    unregistered at once. *)
Lemma unregister_overtakes_register_witness :
  ∃ w1 w2 w3,
    spdk_poller_register 7 1 None world_P_gone = Ok w1
    ∧ spdk_poller_unregister 7 None w1 = Ok w2
    ∧ run_steps quiet_fn quiet_poller [Step_event 0; Step_event 1] w2 = Ok w3
    ∧ events_of 0 w3 = [] ∧ events_of 1 w3 = []
    ∧ pollers_of 1 w3 = [7].
Proof.
  destruct (unregister_overtakes_register quiet_fn quiet_poller world_P_gone 7 0 1
              (core 0 4095 [] []) (core 1 4095 [] []) 65535 4095 [] 65535 4095 [] 1024
              [Step_event 0; Step_event 1])
    as (w1 & w2 & w3 & H1 & H2 & _ & _ & H3 & Hq1 & Hq0 & Hp & _);
    try reflexivity; try (vm_compute; discriminate).
  - apply not_elem_of_nil.
  - by left.
  - by exists w1, w2, w3.
Defined.

(** The names of cores 3 and 12. *)
Lemma names_tell_cores_apart_witness :
  set_reactor_thread_name 3 = "reactor 3"%string
  ∧ active_pollers_ring_name 12 = "spdk_active_pollers_12"%string
  ∧ events_ring_name 12 = "spdk_event_queue_12"%string.
Proof.
  destruct (names_tell_cores_apart 3 12) as (Ht & _); [reflexivity | reflexivity |].
  destruct (names_tell_cores_apart 12 3) as (_ & Hp & He & _); [reflexivity | reflexivity |].
  rewrite Ht, Hp, He. by vm_compute.
Defined.

(** The mask of cores 0 and 1, written in four ways. *)
Lemma mask_prefixes_are_optional_witness :
  spdk_app_parse_core_mask host_2_of_4 (Some "0x3"%string) (Some 0%Z)
  = spdk_app_parse_core_mask host_2_of_4 (Some "3"%string) (Some 0%Z)
  ∧ spdk_app_parse_core_mask host_2_of_4 (Some " 0x3"%string) (Some 0%Z)
    = spdk_app_parse_core_mask host_2_of_4 (Some "3"%string) (Some 0%Z).
Proof.
  destruct (mask_prefixes_are_optional host_2_of_4 "3" EmptyString 3 " " 0)
    as (H0x & _ & _ & _ & Hsp); [reflexivity | intros x s2 [=] | reflexivity |].
  by split.
Defined.

(** The empty string and a blank, on the host with cores 0 and 1. *)
Lemma empty_mask_string_witness :
  spdk_app_parse_core_mask host_2_of_4 (Some EmptyString) (Some 0%Z) = (0%Z, Some 0%Z)
  ∧ fst (spdk_app_parse_core_mask host_2_of_4 (Some " "%string) (Some 0%Z)) = (-1)%Z
  ∧ spdk_reactors_init host_2_of_4 (Some EmptyString) world_boot
    = Ok ((-1)%Z, set_reactor_mask 0 world_boot).
Proof.
  apply (empty_mask_string host_2_of_4 " " EmptyString 0 world_boot);
    reflexivity.
Defined.

(** * The drain, the loop, the initialisation and the migration on the scenarios *)

(** The drain on a queue of two events, the first of which posts a third
    one to its own core: two callbacks are run, the third event waits,
    and the pool has one record more than before: two have come back,
    one has been taken for the third event. *)
Lemma spdk_event_queue_run_all_snapshot_witness :
  ∃ w', spdk_event_queue_run_all burst_fn 0 0 world_burst = Ok w'
        ∧ trace w' = event_obs burst_event ++ event_obs echo_event
        ∧ events_of 0 w' = [echo_event]
        ∧ g_spdk_event_mempool world_burst = Some 1024%N
        ∧ g_spdk_event_mempool w' = Some 1025%N.
Proof.
  eexists. split; [vm_compute; reflexivity|].
  destruct (spdk_event_queue_run_all_snapshot burst_fn 0 0 world_burst
              (core 0 4095 [] [burst_event; echo_event]) eq_refl) as [_ H].
  edestruct H as (Ht & _ & _); [vm_compute; reflexivity|].
  split; [exact Ht|]. repeat split; vm_compute; reflexivity.
Defined.

(** Two iterations: the first runs the relay event, which posts the
    stop event, and polls poller 10, and the loop goes on; the second
    runs the stop event and polls poller 11, and the loop returns. *)
Lemma reactor_loop_order_and_exit_witness :
  ∃ w1 w2,
    reactor_iteration relay_fn quiet_poller 0 0 world_relay = Ok w1
    ∧ trace w1 = event_obs relay_event ++ [Obs_timer 0; Obs_poller_fn 10]
    ∧ g_reactor_state w1 = SPDK_REACTOR_STATE_RUNNING
    ∧ reactor_iteration relay_fn quiet_poller 0 0 w1 = Ok w2
    ∧ trace w2 = trace w1 ++ event_obs stop_event ++ [Obs_timer 0; Obs_poller_fn 11]
    ∧ g_reactor_state w2 = SPDK_REACTOR_STATE_EXITING
    ∧ _spdk_reactor_run relay_fn quiet_poller 5 0 0 world_relay = Returned (Ok w2).
Proof.
  eexists _, _. split; [vm_compute; reflexivity|].
  split; [vm_compute; reflexivity|]. split; [reflexivity|].
  split; [vm_compute; reflexivity|].
  split; [vm_compute; reflexivity|]. split; [reflexivity|].
  match goal with
  | |- _ = Returned (Ok ?w2) =>
      apply (reactor_loop_order_and_exit relay_fn quiet_poller 5 0 0 world_relay
               (core 0 4095 [10; 11] [relay_event]) eq_refl);
      eexists (_ :: nil); split; [simpl; lia|]; split;
        [split; [vm_compute; reflexivity|split; [vm_compute; reflexivity|exact I]]|];
      split; [by repeat constructor|discriminate]
  end.
Defined.

(** Initialisation without a mask, on a host with cores 0 and 1. *)
Lemma spdk_reactors_init_null_mask_witness :
  ∃ w', spdk_reactors_init host_2_of_4 None world_boot = Ok (0%Z, w')
        ∧ spdk_app_get_core_mask w' = 3%Z
        ∧ g_reactors w' !! 1 = Some (core 1 4095 [] [])
        ∧ g_reactor_state w' = SPDK_REACTOR_STATE_INITIALIZED.
Proof.
  destruct (spdk_reactors_init_null_mask host_2_of_4 world_boot eq_refl)
    as (w' & Hinit & _ & _ & Hslots & _ & Hst & _).
  - apply lcores_below_64_host_2_of_4.
  - vm_compute. lia.
  - reflexivity.
  - exists w'. split; [exact Hinit|]. split.
    + vm_compute in Hinit. by injection Hinit as <-.
    + split; [exact (Hslots 1)|exact Hst].
Defined.

Ltac concrete_slot Hn :=
  vm_compute in Hn; first [discriminate Hn | injection Hn as <-].

Ltac room_along :=
  repeat lazymatch goal with
  | |- room_when_run _ _ _ _ [] _ => exact I
  | |- room_when_run _ _ _ _ (_ :: _) _ =>
      split;
      [ intros Hs Hhead; first [discriminate Hs | vm_compute in Hhead; discriminate Hhead | idtac];
        try (intros r ring Hr Hring; concrete_slot Hr; concrete_slot Hring; reflexivity)
      | let w1 := fresh "w" in let H := fresh "H" in
        intros w1 H; vm_compute in H; injection H as <- ]
  end.

